(** * Wordle solver: feedback, codec, filtering, entropy selection, game loop

    A shallow embedding of [wordle_solver/solver.py] (the interactive
    solver) and [wordle_solver/simulate_wordle.py] (the batch simulator),
    followed by the properties established about them; the last part
    ("Further properties of the code") covers the sessions of the window,
    the simulation run with its live display, and the final report.

    Conventions of the embedding.
    - A Python [str] is a [string]; [s[i]] is [str_getitem], which raises
      [IndexError] out of range, as Python does.
    - A Python [int] is a [Z]; a cell of the [numpy.uint8] feedback table
      is a [Z] reduced modulo 256.
    - A Python list updated by index is a [list] with [list_setitem];
      [None] entries of [answer_letters] are [None : option ascii].
    - A raised exception is the [Raise] branch of [result].
    - The module-level dictionary [entropy_cache] is a [gmap] threaded
      through the calls that read and write it.
    - Python floats are kept abstract: the arithmetic the code performs on
      them is an interface ([PyFloat]); the embedding is parametric in it,
      and exact real arithmetic ([R]) is one instance. *)

From Stdlib Require Import ZArith List String Ascii Bool Lia Reals Lra.
From stdpp Require Import base option list strings gmap sorting.

Open Scope string_scope.
Open Scope Z_scope.
Open Scope list_scope.

(** ** Exceptions and fallible computations *)

Inductive exn : Type :=
| IndexError
| ValueError
| ZeroDivisionError
| TypeError.

Inductive result (A : Type) : Type :=
| Ok (a : A)
| Raise (e : exn).
Arguments Ok {A} a.
Arguments Raise {A} e.

#[global] Instance exn_eq_dec : EqDecision exn.
Proof. solve_decision. Defined.

#[global] Instance result_eq_dec {A} `{EqDecision A} : EqDecision (result A).
Proof. solve_decision. Defined.

#[global] Instance result_ret : MRet result := fun A a => Ok a.
#[global] Instance result_bind : MBind result := fun A B k r =>
  match r with
  | Ok a => k a
  | Raise e => Raise e
  end.

(** [for i in xs: s = body i s], stopping at the first exception. *)
Fixpoint for_each {I St} (xs : list I) (body : I → St → result St) (s : St)
  : result St :=
  match xs with
  | [] => Ok s
  | i :: xs' => s' ← body i s; for_each xs' body s'
  end.

(** [for i in range(n)]. *)
Definition for_range {St} (n : nat) (body : nat → St → result St) (s : St)
  : result St :=
  for_each (seq 0 n) body s.

(** ** Python sequence primitives *)

(** [s[i]] on a string. *)
Definition str_getitem (s : string) (i : nat) : result ascii :=
  match String.get i s with
  | Some c => Ok c
  | None => Raise IndexError
  end.

(** [l[i]] on a list. *)
Definition list_getitem {A} (l : list A) (i : nat) : result A :=
  match l !! i with
  | Some x => Ok x
  | None => Raise IndexError
  end.

(** [l[i] = x] on a list. *)
Definition list_setitem {A} (l : list A) (i : nat) (x : A) : result (list A) :=
  if decide (i < length l)%nat then Ok (<[i:=x]> l) else Raise IndexError.

(** [x in l]. *)
Definition py_in {A} `{EqDecision A} (x : A) (l : list A) : bool :=
  bool_decide (x ∈ l).

(** [l.index(x)]: the first position of [x], [ValueError] when absent. *)
Fixpoint list_index {A} `{EqDecision A} (l : list A) (x : A) : result nat :=
  match l with
  | [] => Raise ValueError
  | y :: l' => if decide (y = x) then Ok 0%nat
               else (j ← list_index l' x; Ok (S j))
  end.

(** ** Feedback ([get_feedback], identical in both files) *)

(** [list(answer)]; the entries set to [None] by the first pass are [None]. *)
Definition letters_of (answer : string) : list (option ascii) :=
  Some <$> list_ascii_of_string answer.

Definition fb_state : Type := list Z * list (option ascii).

(** First loop: exact positional matches. *)
Definition pass1_body (guess answer : string) (i : nat) (st : fb_state)
  : result fb_state :=
  let '(feedback, answer_letters) := st in
  g ← str_getitem guess i;
  a ← str_getitem answer i;
  if decide (g = a) then
    feedback' ← list_setitem feedback i 2;
    answer_letters' ← list_setitem answer_letters i None;
    Ok (feedback', answer_letters')
  else Ok st.

(** Second loop: letters present elsewhere, each answer letter used once. *)
Definition pass2_body (guess : string) (i : nat) (st : fb_state)
  : result fb_state :=
  let '(feedback, answer_letters) := st in
  f ← list_getitem feedback i;
  if decide (f = 0) then
    g ← str_getitem guess i;
    if py_in (Some g) answer_letters then
      feedback' ← list_setitem feedback i 1;
      j ← list_index answer_letters (Some g);
      answer_letters' ← list_setitem answer_letters j None;
      Ok (feedback', answer_letters')
    else Ok st
  else Ok st.

Definition get_feedback (guess answer : string) : result (list Z) :=
  let feedback := [0; 0; 0; 0; 0] in
  let answer_letters := letters_of answer in
  st1 ← for_range 5 (pass1_body guess answer) (feedback, answer_letters);
  st2 ← for_range 5 (pass2_body guess) st1;
  Ok (fst st2).

(** The all-Correct pattern [(2, 2, 2, 2, 2)]. *)
Definition all_correct : list Z := [2; 2; 2; 2; 2].

(** [filter_words]: [[w for w in words if get_feedback(guess, w) == feedback]].
    The comprehension builds a fresh list; [words] itself is only read. *)
Fixpoint filter_words (words : list string) (guess : string)
    (feedback : list Z) : result (list string) :=
  match words with
  | [] => Ok []
  | w :: words' =>
      fb ← get_feedback guess w;
      rest ← filter_words words' guess feedback;
      Ok (if decide (fb = feedback) then w :: rest else rest)
  end.

(** ** Feedback codes ([simulate_wordle.py]) *)

(** [feedback_to_int]: [n += f * 3**(4-i)] over [enumerate(fb)]. The
    function is only applied to the five-element result of [get_feedback],
    where every exponent [4 - i] is non-negative. *)
Fixpoint feedback_to_int_from (i : Z) (fb : list Z) (n : Z) : Z :=
  match fb with
  | [] => n
  | f :: fb' => feedback_to_int_from (i + 1) fb' (n + f * 3 ^ (4 - i))
  end.

Definition feedback_to_int (fb : list Z) : Z := feedback_to_int_from 0 fb 0.

(** [fb_list = [(fb // 3**(4-i)) % 3 for i in range(5)]]. *)
Definition fb_list (fb : Z) : list Z :=
  (fun i : nat => (fb / 3 ^ (4 - Z.of_nat i)) mod 3) <$> seq 0 5.

(** A value stored in a [numpy.uint8] cell. *)
Definition to_uint8 (z : Z) : Z := z mod 256.

(** [N_feedback = 3**5]. *)
Definition N_feedback : Z := 3 ^ 5.

(** [MAX_GUESSES = 6]. *)
Definition MAX_GUESSES : Z := 6.

(** The precomputed table: row [gi], column [ai] holds
    [feedback_to_int(get_feedback(g, a))] as a [uint8]. *)
Definition table_row (possible_words : list string) (g : string)
  : result (list Z) :=
  mapM (fun a => fb ← get_feedback g a; Ok (to_uint8 (feedback_to_int fb)))
       possible_words.

Definition build_feedback_table (possible_words : list string)
  : result (list (list Z)) :=
  mapM (table_row possible_words) possible_words.

(** [feedback_table[gi, ai]]. *)
Definition table_get (table : list (list Z)) (gi ai : nat) : result Z :=
  row ← list_getitem table gi; list_getitem row ai.

(** [feedback_table[gi, remaining_idx]] (indexing by an index array). *)
Definition table_take (table : list (list Z)) (gi : nat)
    (remaining_idx : list nat) : result (list Z) :=
  row ← list_getitem table gi; mapM (list_getitem row) remaining_idx.

(** [remaining[feedback_table[gi, remaining] == fb]]. *)
Definition table_filter (table : list (list Z)) (gi : nat) (fb : Z)
    (remaining : list nat) : result (list nat) :=
  codes ← table_take table gi remaining;
  Ok (fst <$> filter (fun rc => snd rc = fb) (zip remaining codes)).

(** [np.bincount(a, minlength=m)] on non-negative entries. *)
Definition bincount (a : list Z) (minlength : Z) : list Z :=
  let n := Z.max minlength (foldr Z.max (-1) a + 1) in
  (fun v : nat => Z.of_nat (length (filter (fun x => x = Z.of_nat v) a)))
    <$> seq 0 (Z.to_nat n).

(** ** Floating-point interface *)

Class PyFloat (F : Type) : Type := {
  f_of_int : Z → F;          (* conversion of an int; the literals 0.0, 1, -1 *)
  f_add : F → F → F;
  f_mul : F → F → F;
  f_div : F → F → F;         (* the quotient where the divisor is not zero *)
  f_log2 : F → F;            (* the logarithm where the argument is positive *)
  f_gtb : F → F → bool;      (* [x > y] *)
  f_eqb : F → F → bool;      (* [x == y] *)
  f_isnan : F → bool;
}.

(** [entropy_cache]: keys are [(guess, tuple(possible_answers))]. *)
Abbreviation cache F := (gmap (string * list string) F).

Section Entropy.
Context {F : Type} `{PyFloat F}.

(** [a / b] on two ints (both below 2**53 here, so the quotient of the
    converted operands). *)
Definition int_truediv (a b : Z) : result F :=
  if decide (b = 0) then Raise ZeroDivisionError
  else Ok (f_div (f_of_int a) (f_of_int b)).

(** [x / p] on floats. *)
Definition float_truediv (x p : F) : result F :=
  if f_eqb p (f_of_int 0) then Raise ZeroDivisionError else Ok (f_div x p).

(** [math.log2(x)]: "math domain error" unless [x > 0] (a NaN is passed
    through). *)
Definition math_log2 (x : F) : result F :=
  if f_isnan x then Ok x
  else if f_gtb x (f_of_int 0) then Ok (f_log2 x)
  else Raise ValueError.

(** [buckets[k] += 1] on a [defaultdict(int)]; the association list keeps
    the dictionary's insertion order, which is the order of [.values()]. *)
Fixpoint bucket_incr (k : list Z) (buckets : list (list Z * Z))
  : list (list Z * Z) :=
  match buckets with
  | [] => [(k, 0 + 1)]
  | (k', c) :: buckets' =>
      if decide (k' = k) then (k', c + 1) :: buckets'
      else (k', c) :: bucket_incr k buckets'
  end.

(** Lines 46-54 of [solver.py]: the bucket partition and its entropy,
    without any cache. *)
Definition fill_buckets (guess : string) (possible_answers : list string)
  : result (list (list Z * Z)) :=
  for_each possible_answers
    (fun answer buckets =>
       fb ← get_feedback guess answer; Ok (bucket_incr fb buckets))
    [].

Definition entropy_term (total : Z) (count : Z) (entropy : F) : result F :=
  p ← int_truediv count total;
  q ← float_truediv (f_of_int 1) p;
  l ← math_log2 q;
  Ok (f_add entropy (f_mul p l)).

Definition bucket_entropy (guess : string) (possible_answers : list string)
  : result F :=
  buckets ← fill_buckets guess possible_answers;
  let total := Z.of_nat (length possible_answers) in
  for_each (snd <$> buckets) (entropy_term total) (f_of_int 0).

(** [entropy_for_guess]: the result and the cache after the call. *)
Definition entropy_for_guess (guess : string) (possible_answers : list string)
    (entropy_cache : cache F) : result F * cache F :=
  let key := (guess, possible_answers) in
  match entropy_cache !! key with
  | Some e => (Ok e, entropy_cache)
  | None =>
      match bucket_entropy guess possible_answers with
      | Ok entropy => (Ok entropy, <[key := entropy]> entropy_cache)
      | Raise x => (Raise x, entropy_cache)
      end
  end.

(** [entropy_cache.clear()]. *)
Definition cache_clear (entropy_cache : cache F) : cache F := ∅.

(** [best_entropy_guess] of [solver.py]: the loop over [allowed_words],
    carrying [(best_word, best_entropy)] and the cache. *)
Definition best_update (possible_answers : list string) (guess : string)
    (e : F) (best : option string * F) : option string * F :=
  if f_gtb e (snd best) || (f_eqb e (snd best) && py_in guess possible_answers)
  then (Some guess, e) else best.

Fixpoint best_entropy_loop (allowed_words possible_answers : list string)
    (best : option string * F) (entropy_cache : cache F)
  : result (option string * F) * cache F :=
  match allowed_words with
  | [] => (Ok best, entropy_cache)
  | guess :: allowed' =>
      match entropy_for_guess guess possible_answers entropy_cache with
      | (Ok e, cache') =>
          best_entropy_loop allowed' possible_answers
            (best_update possible_answers guess e best) cache'
      | (Raise x, cache') => (Raise x, cache')
      end
  end.

Definition best_entropy_guess (allowed_words possible_answers : list string)
    (entropy_cache : cache F) : result (option string * F) * cache F :=
  best_entropy_loop allowed_words possible_answers (None, f_of_int (-1))
    entropy_cache.

End Entropy.

(** ** The simulator ([simulate_wordle.py]) *)

Module Sim.
Section Sim.
Context {F : Type} `{PyFloat F}.

(** [np.sum], with the terms added in index order from [0.0] (NumPy adds
    them pairwise; the grouping changes the rounding only). *)
Definition np_sum (xs : list F) : F := foldl f_add (f_of_int 0) xs.

(** Lines 50-52: the entropy of guess row [codes] over [n] candidates.
    NumPy's array division and [np.log2] raise nothing. *)
Definition row_entropy (codes : list Z) (n : Z) : F :=
  let counts := bincount codes N_feedback in
  let probs := (fun c => f_div (f_of_int c) (f_of_int n))
                 <$> filter (fun c => 0 < c) counts in
  np_sum ((fun p => f_mul p (f_log2 (f_div (f_of_int 1) p))) <$> probs).

Definition best_body (table : list (list Z)) (remaining_idx : list nat)
    (gi : nat) (best : option nat * F) : result (option nat * F) :=
  codes ← table_take table gi remaining_idx;
  let e := row_entropy codes (Z.of_nat (length remaining_idx)) in
  Ok (if f_gtb e (snd best) then (Some gi, e) else best).

(** [best_entropy_guess(remaining_idx)]; [None] is Python's [None]. *)
Definition best_entropy_guess (table : list (list Z))
    (remaining_idx : list nat) : result (option nat) :=
  best ← for_each remaining_idx (best_body table remaining_idx)
           (None, f_of_int (-1));
  Ok (fst best).

(** The variables of one game (one iteration of the outer [for]). *)
Record game : Type := Game {
  remaining : list nat;
  guesses : Z;
  game_feedbacks : list (list Z);
  game_words : list string;
}.

(** [remaining = np.arange(N_answers); guesses = 0; ...]. *)
Definition game_init (possible_words : list string) : game :=
  {| remaining := seq 0 (length possible_words);
     guesses := 0;
     game_feedbacks := [];
     game_words := [] |}.

(** One pass through the body of [while True]; the boolean tells whether
    the [break] was taken. A [None] guess is passed by NumPy's indexing
    (it is [np.newaxis]) and rejected by [possible_words[gi]] with a
    [TypeError], which ends the script. *)
Definition game_round (possible_words : list string) (table : list (list Z))
    (fixed_first_guess_idx ai : nat) (st : game) : result (game * bool) :=
  let guesses' := guesses st + 1 in
  gi ← (if decide (guesses' = 1) then Ok fixed_first_guess_idx
        else sel ← best_entropy_guess table (remaining st);
             match sel with
             | Some gi => Ok gi
             | None => Raise TypeError
             end);
  fb ← table_get table gi ai;
  word ← list_getitem possible_words gi;
  let st' := {| remaining := remaining st;
                guesses := guesses';
                game_feedbacks := game_feedbacks st ++ [fb_list fb];
                game_words := game_words st ++ [word] |} in
  if bool_decide (gi = ai) || bool_decide (guesses' >= MAX_GUESSES)
  then Ok (st', true)
  else
    remaining' ← table_filter table gi fb (remaining st);
    Ok ({| remaining := remaining';
           guesses := guesses';
           game_feedbacks := game_feedbacks st';
           game_words := game_words st' |}, false).

(** [while True: ...], run for at most [fuel] rounds; [None] when the
    rounds allowed are used up before the [break]. *)
Fixpoint game_loop (fuel : nat) (possible_words : list string)
    (table : list (list Z)) (fixed_first_guess_idx ai : nat) (st : game)
  : option (result game) :=
  match fuel with
  | O => None
  | S fuel' =>
      match game_round possible_words table fixed_first_guess_idx ai st with
      | Raise x => Some (Raise x)
      | Ok (st', true) => Some (Ok st')
      | Ok (st', false) =>
          game_loop fuel' possible_words table fixed_first_guess_idx ai st'
      end
  end.

(** The states in which a game for answer [ai] can stand at the top of
    the loop body: the initial one, and those left by a round that did
    not [break]. *)
Inductive reachable (possible_words : list string) (table : list (list Z))
    (fixed_first_guess_idx ai : nat) : game → Prop :=
| reachable_init :
    reachable possible_words table fixed_first_guess_idx ai
      (game_init possible_words)
| reachable_round st st' :
    reachable possible_words table fixed_first_guess_idx ai st →
    game_round possible_words table fixed_first_guess_idx ai st
    = Ok (st', false) →
    reachable possible_words table fixed_first_guess_idx ai st'.

(** The rounds recorded were played with the guesses at the indices
    [gis]: each recorded word is the word at its index, and each recorded
    feedback is that of the word against the answer [a]. *)
Definition rounds_played (possible_words : list string) (a : string)
    (gis : list nat) (ws : list string) (fbs : list (list Z)) : Prop :=
  Forall2 (λ gi w, possible_words !! gi = Some w) gis ws ∧
  Forall2 (λ w fb, get_feedback w a = Ok fb) ws fbs.

(** The invariant at the top of the loop body, for the answer [a] at
    index [ai]: fewer than [MAX_GUESSES] rounds played, none of them with
    the answer's index, and the answer's index still a candidate. *)
Definition game_inv (possible_words : list string) (ai : nat) (a : string)
    (st : game) : Prop :=
  0 ≤ guesses st < MAX_GUESSES ∧
  length (game_words st) = Z.to_nat (guesses st) ∧
  length (game_feedbacks st) = Z.to_nat (guesses st) ∧
  ai ∈ remaining st ∧
  Forall (λ r, (r < length possible_words)%nat) (remaining st) ∧
  ∃ gis, rounds_played possible_words a gis (game_words st) (game_feedbacks st)
         ∧ Forall (λ gi, gi ≠ ai) gis.

(** The record of a finished game for the answer [a] at index [ai]: one
    entry per round, at most [MAX_GUESSES] of them; no round but the last
    guessed the answer's index, and the last one did or is round
    [MAX_GUESSES]. *)
Definition game_done (possible_words : list string) (ai : nat) (a : string)
    (st : game) : Prop :=
  1 ≤ guesses st ≤ MAX_GUESSES ∧
  length (game_words st) = Z.to_nat (guesses st) ∧
  length (game_feedbacks st) = Z.to_nat (guesses st) ∧
  ∃ gis gi,
    rounds_played possible_words a (gis ++ [gi])
      (game_words st) (game_feedbacks st) ∧
    Forall (λ g, g ≠ ai) gis ∧
    (gi = ai ∨ guesses st = MAX_GUESSES).


(** Every entropy the selector computes compares above the initial
    [best_e = -1] (each term of the sum is a product of two non-negative
    numbers). *)
Definition scores_above_init : Prop :=
  ∀ codes : list Z,
    codes ≠ [] →
    f_gtb (row_entropy codes (Z.of_nat (length codes))) (f_of_int (-1)) = true.

(** The entropy the selector computes for guess [gi]. *)
Definition guess_score (table : list (list Z)) (remaining_idx : list nat)
    (gi : nat) : F :=
  match table_take table gi remaining_idx with
  | Ok codes => row_entropy codes (Z.of_nat (length remaining_idx))
  | Raise _ => f_of_int 0
  end.

(** [gi], at the split [l1 ++ gi :: l2] of [remaining_idx], is the first
    index of maximal entropy. *)
Definition first_maximum (table : list (list Z)) (remaining_idx l1 : list nat)
    (gi : nat) (l2 : list nat) : Prop :=
  remaining_idx = l1 ++ gi :: l2 ∧
  (∀ g, g ∈ remaining_idx →
        f_gtb (guess_score table remaining_idx g)
              (guess_score table remaining_idx gi) = false) ∧
  (∀ g, g ∈ l1 →
        f_gtb (guess_score table remaining_idx gi)
              (guess_score table remaining_idx g) = true).

(** The module-level setup followed by the game for answer index [ai]. *)
Definition play_game (fuel : nat) (possible_words : list string) (ai : nat)
  : option (result game) :=
  match build_feedback_table possible_words with
  | Raise x => Some (Raise x)
  | Ok table =>
      match list_index possible_words "raise" with
      | Raise x => Some (Raise x)
      | Ok fixed_first_guess_idx =>
          game_loop fuel possible_words table fixed_first_guess_idx ai
            (game_init possible_words)
      end
  end.

End Sim.
End Sim.

(** ** The interactive solver ([WordleGUI] of [solver.py]) *)

Module Gui.

(** What a handler shows or schedules. *)
Inductive event : Type :=
| ShowError (title message : string)
| ShowInfo (title message : string)
| AfterAutoplay (ms : Z).

(** [str.lower()] on the ASCII text of the entry. *)
Definition ascii_lower (c : ascii) : ascii :=
  let n := nat_of_ascii c in
  if (65 <=? n)%nat && (n <=? 90)%nat then ascii_of_nat (n + 32) else c.

Definition str_lower (s : string) : string :=
  string_of_list_ascii (ascii_lower <$> list_ascii_of_string s).

Section Gui.
Context {F : Type} `{PyFloat F}.

(** The fields of [WordleGUI] the handlers read and write: the candidate
    list, the auto flag, the five tile states, the entry text and the
    suggestion last computed. *)
Record gui : Type := Gui {
  words : list string;
  auto : bool;
  tiles : list Z;
  entry : string;
  suggestion : option string * F;
}.

(** [Tile.cycle]: [state = (state + 1) % 3]. *)
Definition cycle (state : Z) : Z := (state + 1) mod 3.

(** [refresh]: recompute the suggestion, clear the entry, reset the tiles. *)
Definition refresh (allowed_words : list string) (g : gui)
    (entropy_cache : cache F) : result unit * gui * cache F :=
  match best_entropy_guess allowed_words (words g) entropy_cache with
  | (Ok best, cache') =>
      (Ok (),
       {| words := words g; auto := auto g; tiles := (fun _ => 0) <$> tiles g;
          entry := ""; suggestion := best |},
       cache')
  | (Raise x, cache') => (Raise x, g, cache')
  end.

(** [submit]: the handler of the Submit button. The handler's state is
    returned also when an exception escapes it. *)
Definition submit (allowed_words : list string) (g : gui)
    (entropy_cache : cache F) : result unit * gui * cache F * list event :=
  let guess := str_lower (entry g) in
  if negb (bool_decide (String.length guess = 5%nat))
     || negb (py_in guess allowed_words)
  then (Ok (), g, entropy_cache, [ShowError "Error" "Invalid guess"])
  else
    let feedback := tiles g in
    if decide (feedback = all_correct) then
      (Ok (),
       {| words := words g; auto := false; tiles := tiles g;
          entry := entry g; suggestion := suggestion g |},
       entropy_cache, [ShowInfo "Solved" "🎉 Solved!"])
    else
      match filter_words (words g) guess feedback with
      | Raise x => (Raise x, g, entropy_cache, [])
      | Ok words' =>
          let g1 := {| words := words'; auto := auto g; tiles := tiles g;
                       entry := entry g; suggestion := suggestion g |} in
          match words' with
          | [] =>
              (Ok (),
               {| words := words'; auto := false; tiles := tiles g;
                  entry := entry g; suggestion := suggestion g |},
               entropy_cache, [ShowError "Error" "No words left"])
          | _ :: _ =>
              match refresh allowed_words g1 entropy_cache with
              | (Ok _, g2, cache') =>
                  (Ok (), g2, cache',
                   if auto g2 then [AfterAutoplay 300] else [])
              | (Raise x, g2, cache') => (Raise x, g2, cache', [])
              end
          end
      end.

(** [reset]: restore the candidate list, clear the cache, refresh. *)
Definition reset (possible_words allowed_words : list string) (g : gui)
    (entropy_cache : cache F) : result unit * gui * cache F :=
  refresh allowed_words
    {| words := possible_words; auto := false; tiles := tiles g;
       entry := entry g; suggestion := suggestion g |}
    (cache_clear entropy_cache).

End Gui.
End Gui.

(** ** Sessions: the calls that touch the entropy cache *)

Section Session.
Context {F : Type} `{PyFloat F}.

(** What may happen to [entropy_cache] in a session: a call of
    [entropy_for_guess] or of [best_entropy_guess], a handler of the
    window run from any state of it, or [entropy_cache.clear()]. *)
Inductive op : Type :=
| OpEntropy (guess : string) (possible_answers : list string)
| OpBest (allowed_words possible_answers : list string)
| OpRefresh (allowed_words : list string) (g : @Gui.gui F)
| OpSubmit (allowed_words : list string) (g : @Gui.gui F)
| OpReset (possible_words allowed_words : list string) (g : @Gui.gui F)
| OpClear.

Definition run_op (entropy_cache : cache F) (o : op) : cache F :=
  match o with
  | OpEntropy guess possible_answers =>
      (entropy_for_guess guess possible_answers entropy_cache).2
  | OpBest allowed_words possible_answers =>
      (best_entropy_guess allowed_words possible_answers entropy_cache).2
  | OpRefresh allowed_words g =>
      (Gui.refresh allowed_words g entropy_cache).2
  | OpSubmit allowed_words g =>
      (Gui.submit allowed_words g entropy_cache).1.2
  | OpReset possible_words allowed_words g =>
      (Gui.reset possible_words allowed_words g entropy_cache).2
  | OpClear => cache_clear entropy_cache
  end.

(** The cache after a session that starts with the empty module-level
    dictionary. *)
Definition run_session (ops : list op) : cache F := foldl run_op ∅ ops.

(** Every cached value is what the bucket computation gives for its key. *)
Definition cache_ok (entropy_cache : cache F) : Prop :=
  ∀ guess possible_answers e,
    entropy_cache !! (guess, possible_answers) = Some e →
    bucket_entropy guess possible_answers = Ok e.

End Session.

(** ** Comparison laws and the selection as a fold *)

(** What the selection needs of [>] and [==] on the scores compared:
    [>] is a strict weak order and [==] holds exactly between scores that
    neither exceeds the other (true of floats that are not NaN, and of
    exact arithmetic). *)
Class PyFloatOrder (F : Type) `{PyFloat F} : Prop := {
  gtb_irrefl (x : F) : f_gtb x x = false;
  gtb_trans (x y z : F) :
    f_gtb x y = true → f_gtb y z = true → f_gtb x z = true;
  gtb_neg_trans (x y z : F) :
    f_gtb x y = false → f_gtb y z = false → f_gtb x z = false;
  eqb_tie (x y : F) :
    f_eqb x y = true ↔ f_gtb x y = false ∧ f_gtb y x = false;
}.

Section Selection.
Context {F : Type} `{PyFloat F}.

(** The value of [bucket_entropy] where it returns one. *)
Definition score (guess : string) (possible_answers : list string) : F :=
  match bucket_entropy guess possible_answers with
  | Ok e => e
  | Raise _ => f_of_int 0
  end.

(** The loop of [best_entropy_guess] over scores already known. *)
Definition best_fold (possible_answers allowed_words : list string)
    (best : option string * F) : option string * F :=
  foldl (λ b guess,
           best_update possible_answers guess (score guess possible_answers) b)
        best allowed_words.

(** [w], at the split [l1 ++ w :: l2] of the allowed list, is what the
    loop selects: no score exceeds its score, no candidate after it ties
    with it, and it is a candidate or every word before it scores strictly
    less. *)
Definition selected (possible_answers l1 : list string) (w : string)
    (l2 : list string) : Prop :=
  (∀ g, g ∈ l1 ++ w :: l2 →
        f_gtb (score g possible_answers) (score w possible_answers) = false) ∧
  (∀ g, g ∈ l2 →
        f_eqb (score g possible_answers) (score w possible_answers) = true →
        g ∉ possible_answers) ∧
  (w ∈ possible_answers ∨
   ∀ g, g ∈ l1 →
        f_gtb (score w possible_answers) (score g possible_answers) = true).

(** The tie-break policy the loop implements, for the word [w] returned
    at the split [l1 ++ w :: l2] of the allowed list:
    no allowed word scores strictly higher; if an allowed candidate ties
    with [w] then [w] is a candidate; when [w] is a candidate, no candidate
    after it ties with it; when [w] is not a candidate, every word before
    it scores strictly less. *)
Definition selection_policy (allowed_words possible_answers l1 : list string)
    (w : string) (l2 : list string) : Prop :=
  allowed_words = l1 ++ w :: l2 ∧
  (∀ g, g ∈ allowed_words →
        f_gtb (score g possible_answers) (score w possible_answers) = false) ∧
  (∀ g, g ∈ allowed_words →
        f_eqb (score g possible_answers) (score w possible_answers) = true →
        g ∈ possible_answers → w ∈ possible_answers) ∧
  (w ∈ possible_answers →
   ∀ g, g ∈ l2 →
        f_eqb (score g possible_answers) (score w possible_answers) = true →
        g ∉ possible_answers) ∧
  (w ∉ possible_answers →
   ∀ g, g ∈ l1 →
        f_gtb (score w possible_answers) (score g possible_answers) = true).

End Selection.

(** ** Exact arithmetic as an instance of the interface *)

Definition R_gtb (x y : R) : bool := if Rgt_dec x y then true else false.
Definition R_eqb (x y : R) : bool := if Req_dec_T x y then true else false.
Definition R_log2 (x : R) : R := (ln x / ln 2)%R.

#[global] Instance R_float : PyFloat R := {|
  f_of_int := IZR;
  f_add := Rplus;
  f_mul := Rmult;
  f_div := Rdiv;
  f_log2 := R_log2;
  f_gtb := R_gtb;
  f_eqb := R_eqb;
  f_isnan := fun _ => false;
|}.

(** A feedback pattern: five marks, each Absent (0), Present (1) or
    Correct (2). *)
Definition valid_pattern (p : list Z) : Prop :=
  length p = 5%nat ∧ Forall (λ f : Z, 0 ≤ f ≤ 2) p.

(** A word of the game: exactly five characters. *)
Definition is_word (w : string) : Prop := String.length w = 5%nat.

(** The table cell for a pair of words, as a total function. *)
Definition cell (g a : string) : Z :=
  match get_feedback g a with
  | Ok fb => to_uint8 (feedback_to_int fb)
  | Raise _ => 0
  end.

(** ** Counting letters and marks

    The vocabulary in which the multiset rule of [get_feedback] is stated. *)

(** The number of indices [i < k] that satisfy [P]. *)
Definition count_upto (k : nat) (P : nat → Prop) `{!∀ i, Decision (P i)}
  : nat :=
  length (filter P (seq 0 k)).

(** The number of occurrences of [x] in [l]. *)
Definition count_in {A} `{EqDecision A} (x : A) (l : list A) : nat :=
  length (filter (λ y, y = x) l).

(** Occurrences of the letter [c] in the word [w]. *)
Definition count_letter (c : ascii) (w : string) : nat :=
  count_in c (list_ascii_of_string w).

(** Positions of the guess that hold [c] and are marked [f]. *)
Definition count_marked (f : Z) (c : ascii) (guess : string) (fb : list Z)
  : nat :=
  count_upto 5 (λ i, String.get i guess = Some c ∧ fb !! i = Some f).

(** Positions of the guess that hold [c] where the answer holds another
    letter. *)
Definition count_unmatched (c : ascii) (guess answer : string) : nat :=
  count_upto 5 (λ i, String.get i guess = Some c
                      ∧ String.get i guess ≠ String.get i answer).

(** ** Loop invariants of [get_feedback]

    [gl] and [al0] are the letters of the guess and of the answer. *)

(** After the first loop has handled the positions below [k]. *)
Definition pass1_inv (gl al0 : list ascii) (k : nat)
    (fb : list Z) (al : list (option ascii)) : Prop :=
  length fb = 5%nat ∧ length al = length al0 ∧
  (∀ i, (i < 5)%nat →
        fb !! i = Some (if decide ((i < k)%nat ∧ gl !! i = al0 !! i)
                        then 2 else 0)) ∧
  (∀ j, (k ≤ j)%nat → al !! j = Some <$> al0 !! j) ∧
  (∀ c, (count_in (Some c) al
         + count_upto k (λ i, gl !! i = Some c ∧ al0 !! i = Some c)
         = count_in c al0)%nat).

(** After the second loop has handled the positions below [k]; [al1] is
    the list of answer letters the first loop left. *)
Definition pass2_inv (gl al0 : list ascii) (al1 : list (option ascii))
    (k : nat) (fb : list Z) (al : list (option ascii)) : Prop :=
  length fb = 5%nat ∧
  (∀ i, (i < 5)%nat →
        ∃ f, fb !! i = Some f ∧ (f = 2 ↔ gl !! i = al0 !! i) ∧
             (f = 0 ∨ f = 1 ∨ f = 2) ∧ ((k ≤ i)%nat → f ≠ 1)) ∧
  (∀ c, (count_in (Some c) al
         + count_upto k (λ i, gl !! i = Some c ∧ fb !! i = Some 1%Z)
         = count_in (Some c) al1)%nat) ∧
  (∀ c, count_in (Some c) al = 0%nat ∨
        count_upto k (λ i, gl !! i = Some c ∧ fb !! i = Some 1)
        = count_upto k (λ i, gl !! i = Some c ∧ gl !! i ≠ al0 !! i)).

(** The Shannon entropy, in bits, of a partition of [n] answers into
    buckets of the given sizes, in exact arithmetic: the sum of
    [(c/n) * log2(n/c)] over the buckets. *)
Definition shannon_entropy (counts : list Z) (n : Z) : R :=
  foldr (λ c acc, (IZR c / IZR n * R_log2 (IZR n / IZR c) + acc)%R) 0%R counts.

(** ** The window: construction and the events of a session ([solver.py]) *)

Section Window.
Context {F : Type} `{PyFloat F}.

(** [WordleGUI.__init__]: the candidate list is a copy of [possible_words],
    auto-play is off, the first suggestion is computed, the five tiles
    start Absent and the entry is empty. An exception of
    [best_entropy_guess] ends the construction. *)
Definition WordleGUI_init (possible_words allowed_words : list string)
    (entropy_cache : cache F) : result (@Gui.gui F) * cache F :=
  match best_entropy_guess allowed_words possible_words entropy_cache with
  | (Ok best, cache') =>
      (Ok {| Gui.words := possible_words; Gui.auto := false;
             Gui.tiles := [0; 0; 0; 0; 0]; Gui.entry := "";
             Gui.suggestion := best |},
       cache')
  | (Raise x, cache') => (Raise x, cache')
  end.

(** A click on tile [i]: [<Button-1>] is bound to [Tile.cycle]. The window
    has the tiles of [Gui.tiles] and no other. *)
Definition tile_click (i : nat) (g : @Gui.gui F) : @Gui.gui F :=
  match Gui.tiles g !! i with
  | Some state =>
      {| Gui.words := Gui.words g; Gui.auto := Gui.auto g;
         Gui.tiles := <[i := Gui.cycle state]> (Gui.tiles g);
         Gui.entry := Gui.entry g; Gui.suggestion := Gui.suggestion g |}
  | None => g
  end.

(** The user edits the entry, which then reads [text]. *)
Definition entry_edit (text : string) (g : @Gui.gui F) : @Gui.gui F :=
  {| Gui.words := Gui.words g; Gui.auto := Gui.auto g;
     Gui.tiles := Gui.tiles g; Gui.entry := text;
     Gui.suggestion := Gui.suggestion g |}.

(** What the user does in a session: click a tile, edit the entry, press
    Submit, press Reset. *)
Inductive gui_event : Type :=
| TileClick (i : nat)
| EntryEdit (text : string)
| SubmitClick
| ResetClick.

(** The window and the cache after the handler of an event has run. An
    exception that escapes a handler is reported by Tk's main loop, which
    then goes on with the state the handler left. *)
Definition handle (possible_words allowed_words : list string)
    (s : @Gui.gui F * cache F) (ev : gui_event) : @Gui.gui F * cache F :=
  match ev with
  | TileClick i => (tile_click i s.1, s.2)
  | EntryEdit text => (entry_edit text s.1, s.2)
  | SubmitClick =>
      ((Gui.submit allowed_words s.1 s.2).1.1.2,
       (Gui.submit allowed_words s.1 s.2).1.2)
  | ResetClick =>
      ((Gui.reset possible_words allowed_words s.1 s.2).1.2,
       (Gui.reset possible_words allowed_words s.1 s.2).2)
  end.

Definition run_events (possible_words allowed_words : list string)
    (evs : list gui_event) (s : @Gui.gui F * cache F)
  : @Gui.gui F * cache F :=
  foldl (handle possible_words allowed_words) s evs.

(** The clue with which a Submit click reaches [filter_words] in the state
    [g]: the lowered entry text and the tile states, when the text is an
    allowed word of five characters and the tiles are not all Correct. *)
Definition submitted_clue (allowed_words : list string) (g : @Gui.gui F)
  : option (string * list Z) :=
  let guess := Gui.str_lower (Gui.entry g) in
  if negb (bool_decide (String.length guess = 5%nat))
     || negb (py_in guess allowed_words)
  then None
  else if decide (Gui.tiles g = all_correct) then None
       else Some (guess, Gui.tiles g).

(** The clues submitted since the last Reset, in the course of [evs]. *)
Fixpoint clues_applied (possible_words allowed_words : list string)
    (evs : list gui_event) (s : @Gui.gui F * cache F)
    (log : list (string * list Z)) : list (string * list Z) :=
  match evs with
  | [] => log
  | ev :: evs' =>
      clues_applied possible_words allowed_words evs'
        (handle possible_words allowed_words s ev)
        match ev with
        | SubmitClick =>
            match submitted_clue allowed_words s.1 with
            | Some clue => log ++ [clue]
            | None => log
            end
        | ResetClick => []
        | _ => log
        end
  end.

End Window.

(** ** The simulation run and its report ([simulate_wordle.py]) *)

(** [EMOJIS]: gray, yellow, green. *)
Definition EMOJIS : list string := ["⬛"; "🟨"; "🟩"].

(** [MAX_DISPLAY_GAMES = 3]. *)
Definition MAX_DISPLAY_GAMES : Z := 3.

(** [l[i]] on a list for an int [i]: a negative index counts from the
    end. *)
Definition list_getitem_int {A} (l : list A) (i : Z) : result A :=
  if decide (0 ≤ i) then list_getitem l (Z.to_nat i)
  else if decide (- Z.of_nat (length l) ≤ i)
       then list_getitem l (Z.to_nat (Z.of_nat (length l) + i))
       else Raise IndexError.

(** ["".join(parts)]. *)
Definition str_join (parts : list string) : string :=
  foldr String.append "" parts.

(** [format_game]: one line per round up to [MAX_GUESSES], the rounds
    not played shown as five gray tiles and five blanks. *)
Definition format_game (feedbacks : list (list Z)) (words : list string)
  : result (list string) :=
  for_range (Z.to_nat MAX_GUESSES)
    (λ i lines,
       let fb := match feedbacks !! i with
                 | Some fb => fb
                 | None => [0; 0; 0; 0; 0]
                 end in
       let w := match words !! i with
                | Some w => w
                | None => "     "
                end in
       tiles ← mapM (list_getitem_int EMOJIS) fb;
       Ok (lines ++ [String.append (str_join tiles) (String.append "  " w)]))
    [].

(** [l[-n:]] for a positive [n]: the last [n] elements, all of them when
    there are fewer. *)
Definition last_n {A} (n : nat) (l : list A) : list A :=
  drop (length l - n) l.

(** Lines 114-118: the grids of the last [MAX_DISPLAY_GAMES] games, each
    followed by an empty line. The words of a game are looked up at the
    first position of [all_game_feedbacks] that holds a feedback record
    equal to the game's. *)
Definition display_games (all_game_feedbacks : list (list (list Z)))
    (all_game_words : list (list string)) : result (list string) :=
  for_each (last_n (Z.to_nat MAX_DISPLAY_GAMES) all_game_feedbacks)
    (λ last_games display_lines,
       idx ← list_index all_game_feedbacks last_games;
       words ← list_getitem all_game_words idx;
       lines ← format_game last_games words;
       Ok (display_lines ++ lines ++ [""]))
    [].

(** [Counter(results)]: the counts, kept in the order in which the values
    first occur. *)
Fixpoint counter_incr (k : Z) (dist : list (Z * Z)) : list (Z * Z) :=
  match dist with
  | [] => [(k, 0 + 1)]
  | (k', c) :: dist' =>
      if decide (k' = k) then (k', c + 1) :: dist'
      else (k', c) :: counter_incr k dist'
  end.

Definition Counter (xs : list Z) : list (Z * Z) :=
  foldl (λ dist k, counter_incr k dist) [] xs.

(** [dist[k]] on a [Counter]: [0] for a value never counted. *)
Fixpoint counter_getitem (dist : list (Z * Z)) (k : Z) : Z :=
  match dist with
  | [] => 0
  | (k', c) :: dist' => if decide (k' = k) then c else counter_getitem dist' k
  end.

(** Lines 139-144: the pairs [(k, dist[k])] printed for [k] in
    [sorted(dist)]. *)
Definition distribution (results : list Z) : list (Z * Z) :=
  let dist := Counter results in
  (λ k, (k, counter_getitem dist k)) <$> merge_sort Z.le dist.*1.

(** [max(xs)]: [ValueError] on an empty list. *)
Definition py_max (xs : list Z) : result Z :=
  match xs with
  | [] => Raise ValueError
  | x :: xs' => Ok (foldl Z.max x xs')
  end.

Module Simulation.

(** The module-level variables of the simulation that outlive a game;
    [display_lines] is kept without its last line, the progress bar, which
    is computed from the clock. *)
Record run : Type := Run {
  results : list Z;
  all_game_feedbacks : list (list (list Z));
  all_game_words : list (list string);
  display_lines : list string;
}.

(** Lines 76-81. *)
Definition run_init : run :=
  {| results := []; all_game_feedbacks := []; all_game_words := [];
     display_lines := [] |}.

Section Simulation.
Context {F : Type} `{PyFloat F}.

(** One iteration of the outer [for]: the game for answer [ai], the three
    [append]s, and the grids of the live display. *)
Definition play (fuel : nat) (possible_words : list string)
    (table : list (list Z)) (fixed_first_guess_idx ai : nat) (s : run)
  : option (result run) :=
  match Sim.game_loop fuel possible_words table fixed_first_guess_idx ai
          (Sim.game_init possible_words) with
  | None => None
  | Some (Raise x) => Some (Raise x)
  | Some (Ok st) =>
      let s' := {| results := results s ++ [Sim.guesses st];
                   all_game_feedbacks :=
                     all_game_feedbacks s ++ [Sim.game_feedbacks st];
                   all_game_words := all_game_words s ++ [Sim.game_words st];
                   display_lines := display_lines s |} in
      Some (grid ← display_games (all_game_feedbacks s') (all_game_words s');
            Ok {| results := results s';
                  all_game_feedbacks := all_game_feedbacks s';
                  all_game_words := all_game_words s';
                  display_lines := grid |})
  end.

(** [for ai, answer in enumerate(possible_words)], over the indices
    [ais]. *)
Fixpoint games (fuel : nat) (possible_words : list string)
    (table : list (list Z)) (fixed_first_guess_idx : nat) (ais : list nat)
    (s : run) : option (result run) :=
  match ais with
  | [] => Some (Ok s)
  | ai :: ais' =>
      match play fuel possible_words table fixed_first_guess_idx ai s with
      | None => None
      | Some (Raise x) => Some (Raise x)
      | Some (Ok s') =>
          games fuel possible_words table fixed_first_guess_idx ais' s'
      end
  end.

(** The script up to the end of the simulation loop. *)
Definition simulation (fuel : nat) (possible_words : list string)
  : option (result run) :=
  match build_feedback_table possible_words with
  | Raise x => Some (Raise x)
  | Ok table =>
      match list_index possible_words "raise" with
      | Raise x => Some (Raise x)
      | Ok fixed_first_guess_idx =>
          games fuel possible_words table fixed_first_guess_idx
            (seq 0 (length possible_words)) run_init
      end
  end.

(** What the three lists hold after the games for the answers
    [0 .. k-1]: entry [j] of each is taken from the final state of the
    game for answer [j]. *)
Definition recorded (fuel : nat) (possible_words : list string)
    (table : list (list Z)) (fixed_first_guess_idx k : nat)
    (results : list Z) (all_game_feedbacks : list (list (list Z)))
    (all_game_words : list (list string)) : Prop :=
  length results = k ∧ length all_game_feedbacks = k ∧
  length all_game_words = k ∧
  ∀ j, (j < k)%nat →
    ∃ st, Sim.game_loop fuel possible_words table fixed_first_guess_idx j
            (Sim.game_init possible_words) = Some (Ok st)
          ∧ results !! j = Some (Sim.guesses st)
          ∧ all_game_feedbacks !! j = Some (Sim.game_feedbacks st)
          ∧ all_game_words !! j = Some (Sim.game_words st).

End Simulation.
End Simulation.

(** Every guess of the record is consistent with what the record shows
    before it: scored as the answer against an earlier guess, it gives the
    feedback recorded for that guess. *)
Definition record_consistent (words : list string) (feedbacks : list (list Z))
  : Prop :=
  ∀ j k wj fbj wk,
    (j < k)%nat → words !! j = Some wj → feedbacks !! j = Some fbj →
    words !! k = Some wk → get_feedback wj wk = Ok fbj.

(** * Properties *)

(** ** Sample evaluations of [get_feedback] *)

Example get_feedback_shifted :
  get_feedback "abcde" "eabcd" = Ok [1; 1; 1; 1; 1].
Proof. reflexivity. Qed.

Example get_feedback_repeated :
  get_feedback "aabbb" "ababa" = Ok [2; 1; 1; 2; 0].
Proof. reflexivity. Qed.

Example get_feedback_short :
  get_feedback "abcd" "abcde" = Raise IndexError.
Proof. reflexivity. Qed.

Example feedback_to_int_all_correct : feedback_to_int all_correct = 242.
Proof. reflexivity. Qed.

Example fb_list_242 : fb_list 242 = all_correct.
Proof. reflexivity. Qed.

Example filter_words_sample :
  filter_words ["abcde"; "edcba"; "eabcd"] "abcde" [1; 1; 1; 1; 1]
  = Ok ["eabcd"].
Proof. reflexivity. Qed.

Example build_table_sample :
  build_feedback_table ["abcde"; "edcba"] = Ok [[242; 130]; [130; 242]].
Proof. reflexivity. Qed.

(** The game for the answer ["raise"] ends with the opening guess. *)
Example opening_guess_solves :
  Sim.play_game (F := R) 6 ["raise"; "abcde"] 0
  = Some (Ok {| Sim.remaining := [0; 1]%nat; Sim.guesses := 1;
                Sim.game_feedbacks := [[2; 2; 2; 2; 2]];
                Sim.game_words := ["raise"] |}).
Proof. reflexivity. Qed.

(** A list without the opening guess stops the script before any game. *)
Example no_opening_guess :
  Sim.play_game (F := R) 6 ["abcde"; "edcba"] 0 = Some (Raise ValueError).
Proof. reflexivity. Qed.

(** A guess that is not an allowed word is refused. *)
Example submit_invalid_guess :
  (Gui.submit (F := R) ["abcde"]
     {| Gui.words := ["abcde"]; Gui.auto := false;
        Gui.tiles := [0; 0; 0; 0; 0]; Gui.entry := "abc";
        Gui.suggestion := (None, 0%R) |} ∅).2
  = [Gui.ShowError "Error" "Invalid guess"].
Proof. reflexivity. Qed.

(** ** Loops and sequence primitives *)

Lemma for_each_cons {I St} (x : I) (xs : list I) (body : I → St → result St) s :
  for_each (x :: xs) body s = s' ← body x s; for_each xs body s'.
Proof. reflexivity. Qed.

Lemma for_each_app {I St} (xs ys : list I) (body : I → St → result St) s :
  for_each (xs ++ ys) body s = s' ← for_each xs body s; for_each ys body s'.
Proof.
  revert s. induction xs as [|i xs IH]; intros s; simpl; [done|].
  destruct (body i s) as [s'|e]; simpl; [apply IH | done].
Qed.

(** The invariant rule for [for i in range(start, start + len)]. *)
Lemma for_each_seq_inv {St} (P : nat → St → Prop) (body : nat → St → result St) :
  ∀ len start s,
    P start s →
    (∀ i s, (start ≤ i < start + len)%nat → P i s →
            ∃ s', body i s = Ok s' ∧ P (S i) s') →
    ∃ s', for_each (seq start len) body s = Ok s' ∧ P (start + len)%nat s'.
Proof.
  induction len as [|len IH]; intros start s Hs Hstep; simpl.
  - exists s. rewrite Nat.add_0_r. done.
  - destruct (Hstep start s) as (s1 & -> & Hs1); [lia | done |]. simpl.
    destruct (IH (S start) s1) as (s2 & Hrun & Hs2);
      [done | intros i t Hi; apply Hstep; lia |].
    exists s2. split; [done|].
    by replace (start + S len)%nat with (S start + len)%nat by lia.
Qed.

Lemma for_range_inv {St} (P : nat → St → Prop) (body : nat → St → result St) n s :
  P 0%nat s →
  (∀ i s, (i < n)%nat → P i s → ∃ s', body i s = Ok s' ∧ P (S i) s') →
  ∃ s', for_range n body s = Ok s' ∧ P n s'.
Proof.
  intros Hs Hstep.
  destruct (for_each_seq_inv P body n 0%nat s Hs) as (s' & Hrun & Hs');
    [intros i t Hi; apply Hstep; lia | by exists s'].
Qed.

Lemma string_get_lookup (s : string) (i : nat) :
  String.get i s = list_ascii_of_string s !! i.
Proof.
  revert i. induction s as [|c s IH]; intros [|i]; simpl; auto.
Qed.

Lemma string_length_list (s : string) :
  String.length s = length (list_ascii_of_string s).
Proof. induction s; simpl; auto. Qed.

Lemma str_getitem_ok s i c :
  str_getitem s i = Ok c ↔ list_ascii_of_string s !! i = Some c.
Proof.
  unfold str_getitem. rewrite string_get_lookup.
  destruct (_ !! i); split; congruence.
Qed.

Lemma str_getitem_raise s i :
  (String.length s ≤ i)%nat → str_getitem s i = Raise IndexError.
Proof.
  intros Hi. unfold str_getitem. rewrite string_get_lookup.
  rewrite lookup_ge_None_2; [done | by rewrite <- string_length_list].
Qed.

Lemma str_getitem_lt s i :
  (i < String.length s)%nat → ∃ c, str_getitem s i = Ok c.
Proof.
  intros Hi. rewrite string_length_list in Hi.
  destruct (lookup_lt_is_Some_2 _ _ Hi) as [c Hc].
  exists c. by apply str_getitem_ok.
Qed.

Lemma list_setitem_ok {A} (l : list A) i x :
  (i < length l)%nat → list_setitem l i x = Ok (<[i:=x]> l).
Proof. intros Hi. unfold list_setitem. by rewrite decide_True. Qed.

Lemma list_index_spec {A} `{EqDecision A} (l : list A) (x : A) :
  x ∈ l →
  ∃ j, list_index l x = Ok j ∧ l !! j = Some x ∧ (j < length l)%nat.
Proof.
  induction l as [|y l IH]; intros Hin; [by apply elem_of_nil in Hin|].
  simpl. destruct (decide (y = x)) as [->|Hne].
  - exists 0%nat. simpl. split_and!; [done | done | lia].
  - apply elem_of_cons in Hin as [->|Hin]; [done|].
    destruct (IH Hin) as (j & -> & Hj & Hlt). exists (S j).
    simpl. split_and!; [done | done | lia].
Qed.

(** ** Counting lemmas *)

Lemma count_upto_S k (P : nat → Prop) `{!∀ i, Decision (P i)} :
  count_upto (S k) P
  = (count_upto k P + (if decide (P k) then 1 else 0))%nat.
Proof.
  unfold count_upto. rewrite seq_S, filter_app, length_app. simpl.
  f_equal. rewrite filter_cons, filter_nil. by destruct (decide (P k)).
Qed.

Lemma count_upto_ext k (P Q : nat → Prop)
    `{!∀ i, Decision (P i)} `{!∀ i, Decision (Q i)} :
  (∀ i, (i < k)%nat → P i ↔ Q i) → count_upto k P = count_upto k Q.
Proof.
  induction k as [|k IH]; intros HPQ; [done|].
  rewrite !count_upto_S, IH by (intros i Hi; apply HPQ; lia).
  f_equal. destruct (decide (P k)) as [HP|HP], (decide (Q k)) as [HQ|HQ];
    try done; exfalso; apply (HPQ k) in HP || apply (HPQ k) in HQ; auto.
Qed.

Lemma count_upto_le k (P Q : nat → Prop)
    `{!∀ i, Decision (P i)} `{!∀ i, Decision (Q i)} :
  (∀ i, (i < k)%nat → P i → Q i) → (count_upto k P ≤ count_upto k Q)%nat.
Proof.
  induction k as [|k IH]; intros HPQ; [done|].
  rewrite !count_upto_S.
  assert (count_upto k P ≤ count_upto k Q)%nat by (apply IH; intros; apply HPQ; auto with lia).
  destruct (decide (P k)) as [HP|HP], (decide (Q k)) as [HQ|HQ]; try lia.
  exfalso. apply HQ, HPQ; auto.
Qed.

(** Overwriting position [j], which held [x], with [y]. *)
Lemma count_in_insert {A} `{EqDecision A} (z : A) (l : list A) j x y :
  l !! j = Some x →
  (count_in z (<[j:=y]> l) + (if decide (x = z) then 1 else 0)
   = count_in z l + (if decide (y = z) then 1 else 0))%nat.
Proof.
  unfold count_in. revert j. induction l as [|a l IH]; intros [|j] Hj;
    simplify_eq/=.
  - rewrite !filter_cons.
    destruct (decide (x = z)), (decide (y = z)); simpl; lia.
  - rewrite !filter_cons. specialize (IH j Hj).
    destruct (decide (a = z)); simpl; lia.
Qed.

Lemma count_in_zero {A} `{EqDecision A} (z : A) (l : list A) :
  z ∉ l → count_in z l = 0%nat.
Proof.
  unfold count_in. induction l as [|a l IH]; intros Hz; [done|].
  rewrite filter_cons. apply not_elem_of_cons in Hz as [Hne Hz].
  rewrite decide_False by done. auto.
Qed.

Lemma count_in_pos {A} `{EqDecision A} (z : A) (l : list A) :
  z ∈ l → (0 < count_in z l)%nat.
Proof.
  unfold count_in. induction l as [|a l IH]; intros Hz;
    [by apply elem_of_nil in Hz|].
  rewrite filter_cons. destruct (decide (a = z)); simpl; [lia|].
  apply elem_of_cons in Hz as [->|Hz]; [done | auto].
Qed.

Lemma count_in_fmap_Some {A} `{EqDecision A} (z : A) (l : list A) :
  count_in (Some z) (Some <$> l) = count_in z l.
Proof.
  unfold count_in. induction l as [|a l IH]; [done|].
  rewrite fmap_cons, !filter_cons.
  destruct (decide (a = z)) as [->|Hne].
  - rewrite decide_True by done. simpl. by rewrite IH.
  - rewrite decide_False by congruence. done.
Qed.

Lemma count_upto_skip k (P : nat → Prop) `{!∀ i, Decision (P i)} :
  ¬ P k → count_upto (S k) P = count_upto k P.
Proof. intros HP. rewrite count_upto_S, decide_False by done. lia. Qed.

Lemma count_upto_hit k (P : nat → Prop) `{!∀ i, Decision (P i)} :
  P k → count_upto (S k) P = S (count_upto k P).
Proof. intros HP. rewrite count_upto_S, decide_True by done. lia. Qed.

(** ** The two loops of [get_feedback] *)

Section FeedbackLoops.
Variables guess answer : string.
Hypothesis Hguess : (5 ≤ String.length guess)%nat.
Hypothesis Hanswer : (5 ≤ String.length answer)%nat.

Let gl := list_ascii_of_string guess.
Let al0 := list_ascii_of_string answer.

Lemma pass1_step i fb al :
  (i < 5)%nat → pass1_inv gl al0 i fb al →
  ∃ st', pass1_body guess answer i (fb, al) = Ok st'
         ∧ pass1_inv gl al0 (S i) st'.1 st'.2.
Proof.
  intros Hi (Hfb & Hal & Hmark & Hrest & Hcount).
  destruct (str_getitem_lt guess i) as [g Hg]; [lia|].
  destruct (str_getitem_lt answer i) as [a Ha]; [lia|].
  unfold pass1_body. rewrite Hg, Ha. simpl.
  apply str_getitem_ok in Hg, Ha. fold gl in Hg. fold al0 in Ha.
  assert (Hali : al !! i = Some (Some a)) by (rewrite Hrest, Ha by lia; done).
  destruct (decide (g = a)) as [->|Hne].
  - rewrite !list_setitem_ok by (rewrite ?Hfb, ?Hal; try lia;
      apply lookup_lt_Some in Ha; lia).
    simpl. eexists; split; [done|]. simpl.
    split_and!.
    + by rewrite length_insert.
    + by rewrite length_insert.
    + intros i' Hi'. destruct (decide (i' = i)) as [->|Hii].
      * rewrite list_lookup_insert_eq by lia.
        rewrite decide_True; [done | split; [lia | congruence]].
      * rewrite list_lookup_insert_ne by done. rewrite Hmark by done.
        destruct (decide (_ ∧ _)) as [[? ?]|Hn].
        -- rewrite decide_True; [done | split; [lia | done]].
        -- rewrite decide_False; [done|]. intros [? ?]. apply Hn. split; [lia|done].
    + intros j Hj. rewrite list_lookup_insert_ne by lia. apply Hrest. lia.
    + intros c. rewrite count_upto_S. specialize (Hcount c).
      pose proof (count_in_insert (Some c) al i (Some a) None Hali) as Hins.
      rewrite (decide_False (P := None = Some c)) in Hins by done.
      destruct (decide (Some a = Some c)) as [[= ->]|Hac].
      * rewrite decide_True by (split; congruence). lia.
      * rewrite decide_False by (intros [? ?]; congruence). lia.
  - eexists; split; [done|]. simpl. split_and!; try done.
    + intros i' Hi'. rewrite Hmark by done.
      destruct (decide (_ ∧ _)) as [[? ?]|Hn].
      * rewrite decide_True; [done | split; [lia | done]].
      * rewrite decide_False; [done|]. intros [Hlt Heq]. apply Hn.
        split; [|done]. destruct (decide (i' = i)) as [->|]; [|lia].
        congruence.
    + intros j Hj. apply Hrest. lia.
    + intros c. rewrite count_upto_S, <- (Hcount c).
      rewrite decide_False by (intros [? ?]; congruence). lia.
Qed.

Lemma pass1_init : pass1_inv gl al0 0 [0; 0; 0; 0; 0] (letters_of answer).
Proof.
  unfold letters_of. fold al0. split_and!.
  - done.
  - by rewrite length_fmap.
  - intros i Hi. rewrite decide_False by lia.
    do 5 (destruct i as [|i]; [done|]). lia.
  - intros j _. by rewrite list_lookup_fmap.
  - intros c. rewrite count_in_fmap_Some. unfold count_upto. simpl. lia.
Qed.

Lemma pass1_run :
  ∃ fb al,
    for_range 5 (pass1_body guess answer) ([0; 0; 0; 0; 0], letters_of answer)
    = Ok (fb, al)
    ∧ pass1_inv gl al0 5 fb al.
Proof.
  destruct (for_range_inv (λ k st, pass1_inv gl al0 k st.1 st.2)
              (pass1_body guess answer) 5
              ([0; 0; 0; 0; 0], letters_of answer))
    as ([fb al] & Hrun & Hinv).
  - apply pass1_init.
  - intros i [fb al] Hi Hinv. by apply pass1_step.
  - by exists fb, al.
Qed.

Lemma pass2_step al1 i fb al :
  (i < 5)%nat → pass2_inv gl al0 al1 i fb al →
  ∃ st', pass2_body guess i (fb, al) = Ok st'
         ∧ pass2_inv gl al0 al1 (S i) st'.1 st'.2.
Proof.
  intros Hi (Hfb & Hidx & Hcount & Hmin).
  destruct (Hidx i Hi) as (f & Hf & Hiff & Hrange & Hne1).
  specialize (Hne1 (Nat.le_refl i)).
  destruct (str_getitem_lt guess i) as [g Hg]; [lia|].
  unfold pass2_body, list_getitem. rewrite Hf. simpl.
  pose proof Hg as Hgl. apply str_getitem_ok in Hgl. fold gl in Hgl.
  destruct (decide (f = 0)) as [->|Hf0].
  - assert (Hunm : gl !! i ≠ al0 !! i) by (intros Heq; apply Hiff in Heq; lia).
    rewrite Hg. simpl. unfold py_in. case_bool_decide as Hin.
    + destruct (list_index_spec al (Some g) Hin) as (j & Hidxj & Hj & Hjlt).
      rewrite list_setitem_ok by lia. simpl. rewrite Hidxj. simpl.
      rewrite list_setitem_ok by done. simpl.
      eexists; split; [done|]. simpl.
      assert (Hext : ∀ c, count_upto i
                 (λ i0, gl !! i0 = Some c ∧ <[i:=1]> fb !! i0 = Some 1)
               = count_upto i (λ i0, gl !! i0 = Some c ∧ fb !! i0 = Some 1)).
      { intros c. apply count_upto_ext. intros i' Hi'.
        by rewrite list_lookup_insert_ne by lia. }
      split_and!.
      * by rewrite length_insert.
      * intros i' Hi'. destruct (decide (i' = i)) as [->|Hii].
        -- exists 1. rewrite list_lookup_insert_eq by lia.
           split_and!; [done | split; [lia | done] | auto | lia].
        -- rewrite list_lookup_insert_ne by done.
           destruct (Hidx i' Hi') as (f' & Hf' & ? & ? & Hk).
           exists f'. split_and!; try done. intros ?. apply Hk. lia.
      * intros c. specialize (Hcount c).
        pose proof (count_in_insert (Some c) al j (Some g) None Hj) as Hins.
        rewrite (decide_False (P := None = Some c)) in Hins by done.
        destruct (decide (Some g = Some c)) as [[= ->]|Hgc].
        -- rewrite count_upto_hit, Hext; [lia|].
           split; [done | by rewrite list_lookup_insert_eq by lia].
        -- rewrite count_upto_skip, Hext; [lia|]. intros [? _]. congruence.
      * intros c. specialize (Hmin c).
        pose proof (count_in_insert (Some c) al j (Some g) None Hj) as Hins.
        rewrite (decide_False (P := None = Some c)) in Hins by done.
        destruct (decide (Some g = Some c)) as [[= ->]|Hgc].
        -- right. pose proof (count_in_pos _ _ Hin).
           destruct Hmin as [Hz|Heq]; [lia|].
           rewrite !count_upto_hit, Hext; [by rewrite Heq | done |].
           split; [done | by rewrite list_lookup_insert_eq by lia].
        -- destruct Hmin as [Hz|Heq]; [left; lia | right].
           rewrite !count_upto_skip, Hext; [done | |];
             intros [? _]; congruence.
    + eexists; split; [done|]. simpl. split_and!.
      * done.
      * intros i' Hi'. destruct (Hidx i' Hi') as (f' & Hf' & ? & ? & Hk).
        exists f'. split_and!; try done. intros ?. apply Hk. lia.
      * intros c. rewrite count_upto_skip; [apply Hcount|].
        intros [_ ?]. congruence.
      * intros c. destruct (decide (g = c)) as [->|Hgc].
        -- left. by apply count_in_zero.
        -- destruct (Hmin c) as [Hz|Heq]; [by left | right].
           rewrite !count_upto_skip; [done | |]; intros [? _]; congruence.
  - assert (f = 2) as -> by lia.
    eexists; split; [done|]. simpl. split_and!.
    + done.
    + intros i' Hi'. destruct (Hidx i' Hi') as (f' & Hf' & ? & ? & Hk).
      exists f'. split_and!; try done. intros ?. apply Hk. lia.
    + intros c. rewrite count_upto_skip; [apply Hcount|].
      intros [_ ?]. congruence.
    + intros c. destruct (Hmin c) as [Hz|Heq]; [by left | right].
      rewrite !count_upto_skip; [done | |].
      * intros [_ Hn]. apply Hn. by apply Hiff.
      * intros [_ ?]. congruence.
Qed.

Lemma pass2_init fb al :
  pass1_inv gl al0 5 fb al → pass2_inv gl al0 al 0 fb al.
Proof.
  intros (Hfb & Hal & Hmark & _ & _). split_and!.
  - done.
  - intros i Hi. rewrite (Hmark i Hi).
    destruct (decide (_ ∧ _)) as [[_ Heq]|Hn].
    + exists 2. split_and!; [done | done | auto | lia].
    + exists 0. split_and!; [done | | auto | lia].
      split; [lia|]. intros Heq. destruct Hn. done.
  - intros c. unfold count_upto. simpl. lia.
  - intros c. right. done.
Qed.

Lemma pass2_run fb al :
  pass1_inv gl al0 5 fb al →
  ∃ fb' al',
    for_range 5 (pass2_body guess) (fb, al) = Ok (fb', al')
    ∧ pass2_inv gl al0 al 5 fb' al'.
Proof.
  intros Hinv1.
  destruct (for_range_inv (λ k st, pass2_inv gl al0 al k st.1 st.2)
              (pass2_body guess) 5 (fb, al))
    as ([fb' al'] & Hrun & Hinv).
  - by apply pass2_init.
  - intros i [fb2 al2] Hi Hinv. by apply pass2_step.
  - by exists fb', al'.
Qed.

End FeedbackLoops.

(** ** What [get_feedback] returns *)

(** On words of at least five letters [get_feedback] returns five marks:
    [2] exactly at the positional matches, and for every letter as many
    [1]s as the smaller of the unmatched occurrences in the guess and the
    occurrences in the answer that no [2] has used. *)
Lemma get_feedback_spec guess answer :
  (5 ≤ String.length guess)%nat → (5 ≤ String.length answer)%nat →
  ∃ fb, get_feedback guess answer = Ok fb ∧ length fb = 5%nat ∧
    (∀ i, (i < 5)%nat →
          ∃ f, fb !! i = Some f ∧ (f = 0 ∨ f = 1 ∨ f = 2) ∧
               (f = 2 ↔ String.get i guess = String.get i answer)) ∧
    (∀ c, (count_marked 2 c guess fb + count_marked 1 c guess fb
           ≤ count_letter c answer)%nat ∧
          count_marked 1 c guess fb
          = (count_unmatched c guess answer
             `min` (count_letter c answer - count_marked 2 c guess fb))%nat).
Proof.
  intros Hg Ha.
  destruct (pass1_run guess answer Hg Ha) as (fb1 & al1 & Hrun1 & Hinv1).
  destruct (pass2_run guess answer Hg Ha fb1 al1 Hinv1)
    as (fb & al & Hrun2 & Hfb & Hidx & Hcount & Hmin).
  destruct Hinv1 as (_ & _ & _ & _ & Hcount1).
  exists fb. unfold get_feedback. rewrite Hrun1. simpl. rewrite Hrun2. simpl.
  split_and!; [done | done | |].
  - intros i Hi. destruct (Hidx i Hi) as (f & Hf & Hiff & Hrange & _).
    exists f. rewrite !string_get_lookup. done.
  - intros c.
    assert (Hcorrect : count_marked 2 c guess fb
              = count_upto 5 (λ i, list_ascii_of_string guess !! i = Some c
                                   ∧ list_ascii_of_string answer !! i = Some c)).
    { apply count_upto_ext. intros i Hi. rewrite string_get_lookup.
      destruct (Hidx i Hi) as (f & -> & Hiff & _).
      split; intros [Hc Hf]; (split; [done|]).
      - rewrite <- Hc. symmetry. apply Hiff. congruence.
      - f_equal. apply Hiff. congruence. }
    assert (Hpresent : count_marked 1 c guess fb
              = count_upto 5 (λ i, list_ascii_of_string guess !! i = Some c
                                   ∧ fb !! i = Some 1)).
    { apply count_upto_ext. intros i Hi. by rewrite string_get_lookup. }
    assert (Hunm : count_unmatched c guess answer
              = count_upto 5 (λ i, list_ascii_of_string guess !! i = Some c
                  ∧ list_ascii_of_string guess !! i
                    ≠ list_ascii_of_string answer !! i)).
    { apply count_upto_ext. intros i Hi. by rewrite !string_get_lookup. }
    assert (Hle : (count_marked 1 c guess fb
                   ≤ count_unmatched c guess answer)%nat).
    { rewrite Hpresent, Hunm. apply count_upto_le. intros i Hi [Hc Hf].
      split; [done|]. destruct (Hidx i Hi) as (f & Hf' & Hiff & _).
      intros Heq. apply Hiff in Heq. congruence. }
    specialize (Hcount c). specialize (Hcount1 c). specialize (Hmin c).
    unfold count_letter. rewrite <- Hpresent in Hcount, Hmin.
    rewrite <- Hcorrect in Hcount1. rewrite <- Hunm in Hmin.
    split; [lia|]. destruct Hmin as [Hz|Heq]; lia.
Qed.

(** A word shorter than five letters makes the first loop index out of
    range. *)
Lemma get_feedback_short_raises guess answer :
  (String.length guess < 5)%nat ∨ (String.length answer < 5)%nat →
  get_feedback guess answer = Raise IndexError.
Proof.
  intros Hshort. unfold get_feedback, for_range. cbv zeta.
  set (k := (String.length guess `min` String.length answer)%nat).
  assert (Hk : (k < 5)%nat) by lia.
  assert (Hseq : seq 0 5 = (seq 0 k ++ k :: seq (S k) (4 - k))).
  { replace 5%nat with (k + S (4 - k))%nat by lia. by rewrite seq_app. }
  rewrite Hseq, for_each_app.
  destruct (for_each_seq_inv
              (λ _ (st : fb_state), length st.1 = 5%nat
                       ∧ length st.2 = String.length answer)
              (pass1_body guess answer) k 0%nat
              ([0; 0; 0; 0; 0], letters_of answer))
    as ([fb al] & -> & _).
  - simpl. split; [done|]. unfold letters_of.
    by rewrite length_fmap, string_length_list.
  - intros i [fb al] Hi [Hfb Hal]. simpl in *.
    destruct (str_getitem_lt guess i) as [g Hg]; [lia|].
    destruct (str_getitem_lt answer i) as [a Ha]; [lia|].
    rewrite Hg, Ha. simpl. destruct (decide (g = a)).
    + rewrite !list_setitem_ok by lia. simpl. eexists; split; [done|].
      simpl. by rewrite !length_insert.
    + eexists; split; done.
  - simpl. destruct (decide (String.length guess ≤ k)%nat) as [Hgk|Hgk].
    + rewrite (str_getitem_raise guess k Hgk). reflexivity.
    + destruct (str_getitem_lt guess k) as [g ->]; [lia|]. simpl.
      rewrite (str_getitem_raise answer k) by lia. reflexivity.
Qed.

Lemma list5_eq {A} (l : list A) (x : A) :
  length l = 5%nat → (∀ i, (i < 5)%nat → l !! i = Some x) →
  l = [x; x; x; x; x].
Proof.
  intros Hlen Hl.
  do 5 (destruct l as [|? l]; [done|]). destruct l; [|done].
  pose proof (Hl 0%nat). pose proof (Hl 1%nat). pose proof (Hl 2%nat).
  pose proof (Hl 3%nat). pose proof (Hl 4%nat).
  simpl in *. repeat f_equal; apply (inj Some); auto with lia.
Qed.

Lemma string_eq_5 (s t : string) :
  String.length s = 5%nat → String.length t = 5%nat →
  (∀ i, (i < 5)%nat → String.get i s = String.get i t) → s = t.
Proof.
  intros Hs Ht Hget.
  rewrite <- (string_of_list_ascii_of_string s),
          <- (string_of_list_ascii_of_string t).
  f_equal. apply list_eq. intros i. rewrite <- !string_get_lookup.
  destruct (decide (i < 5)%nat); [auto|].
  rewrite !string_get_lookup, !lookup_ge_None_2;
    rewrite <- ?string_length_list; [done | lia | lia].
Qed.

(** ** The feedback code *)

Lemma feedback_to_int_5 (a b c d e : Z) :
  feedback_to_int [a; b; c; d; e] = a * 81 + b * 27 + c * 9 + d * 3 + e.
Proof. unfold feedback_to_int. simpl. lia. Qed.

Lemma fb_list_digits (c : Z) :
  fb_list c = [(c / 81) mod 3; (c / 27) mod 3; (c / 9) mod 3;
               (c / 3) mod 3; (c / 1) mod 3].
Proof. reflexivity. Qed.

Lemma encode_decode (c : Z) :
  0 ≤ c < 3 ^ 5 → feedback_to_int (fb_list c) = c.
Proof.
  intros Hc. rewrite fb_list_digits, feedback_to_int_5.
  change (3 ^ 5) with 243 in Hc. Z.div_mod_to_equations. lia.
Qed.

Lemma decode_encode (p : list Z) :
  length p = 5%nat → Forall (λ f : Z, 0 ≤ f ≤ 2) p →
  fb_list (feedback_to_int p) = p.
Proof.
  intros Hlen Hp.
  do 5 (destruct p as [|? p]; [done|]). destruct p; [|done].
  repeat (apply Forall_cons in Hp as [? Hp]).
  rewrite feedback_to_int_5, fb_list_digits.
  repeat f_equal; Z.div_mod_to_equations; lia.
Qed.

Lemma feedback_to_int_range (p : list Z) :
  length p = 5%nat → Forall (λ f : Z, 0 ≤ f ≤ 2) p →
  0 ≤ feedback_to_int p < 3 ^ 5.
Proof.
  intros Hlen Hp.
  do 5 (destruct p as [|? p]; [done|]). destruct p; [|done].
  repeat (apply Forall_cons in Hp as [? Hp]).
  rewrite feedback_to_int_5. change (3 ^ 5) with 243. lia.
Qed.

Lemma to_uint8_code (p : list Z) :
  length p = 5%nat → Forall (λ f : Z, 0 ≤ f ≤ 2) p →
  to_uint8 (feedback_to_int p) = feedback_to_int p.
Proof.
  intros Hlen Hp. pose proof (feedback_to_int_range p Hlen Hp) as Hr.
  change (3 ^ 5) with 243 in Hr. unfold to_uint8. apply Z.mod_small. lia.
Qed.

(** The marks [get_feedback] returns form a valid pattern. *)
Lemma get_feedback_valid guess answer fb :
  get_feedback guess answer = Ok fb →
  length fb = 5%nat ∧ Forall (λ f : Z, 0 ≤ f ≤ 2) fb.
Proof.
  intros Hfb.
  destruct (decide (String.length guess < 5 ∨ String.length answer < 5)%nat)
    as [Hshort|Hlong].
  { rewrite get_feedback_short_raises in Hfb by done. done. }
  destruct (get_feedback_spec guess answer) as (fb' & Hfb' & Hlen & Hidx & _);
    [lia | lia |].
  rewrite Hfb in Hfb'. injection Hfb' as <-. split; [done|].
  apply Forall_lookup. intros i f Hf.
  assert (Hi : (i < 5)%nat) by (apply lookup_lt_Some in Hf; lia).
  destruct (Hidx i Hi) as (f' & Hf' & Hrange & _).
  rewrite Hf in Hf'. injection Hf' as <-. lia.
Qed.

(** ** Filtering *)

Lemma filter_words_ok words guess feedback :
  (5 ≤ String.length guess)%nat →
  Forall (λ w, (5 ≤ String.length w)%nat) words →
  filter_words words guess feedback
  = Ok (filter (λ w, get_feedback guess w = Ok feedback) words).
Proof.
  intros Hg. induction 1 as [|w words Hw Hwords IH]; [done|].
  simpl. destruct (get_feedback_spec guess w Hg Hw) as (fb & Hfb & _).
  rewrite Hfb, IH. simpl. rewrite filter_cons, Hfb.
  destruct (decide (fb = feedback)) as [->|Hne].
  - by rewrite decide_True.
  - by rewrite decide_False by congruence.
Qed.

(** ** The feedback table *)

Lemma mapM_ok {A B} (f : A → result B) (g : A → B) (l : list A) :
  (∀ x, x ∈ l → f x = Ok (g x)) → mapM f l = Ok (g <$> l).
Proof.
  induction l as [|x l IH]; intros Hf; [done|].
  simpl. rewrite Hf by (apply elem_of_cons; auto). simpl.
  rewrite IH by (intros y Hy; apply Hf, elem_of_cons; auto).
  done.
Qed.

Lemma build_feedback_table_ok possible_words :
  Forall (λ w, (5 ≤ String.length w)%nat) possible_words →
  build_feedback_table possible_words
  = Ok ((λ g, cell g <$> possible_words) <$> possible_words).
Proof.
  intros Hwords. rewrite Forall_forall in Hwords.
  unfold build_feedback_table. apply mapM_ok. intros g Hg.
  unfold table_row. apply mapM_ok. intros a Ha. unfold cell.
  destruct (get_feedback_spec g a) as (fb & -> & _); auto.
Qed.

Lemma table_get_cell possible_words gi ai g a :
  possible_words !! gi = Some g → possible_words !! ai = Some a →
  table_get ((λ g, cell g <$> possible_words) <$> possible_words) gi ai
  = Ok (cell g a).
Proof.
  intros Hg Ha. unfold table_get, list_getitem.
  rewrite list_lookup_fmap, Hg. simpl.
  by rewrite list_lookup_fmap, Ha.
Qed.

Lemma cell_code g a :
  (5 ≤ String.length g)%nat → (5 ≤ String.length a)%nat →
  ∃ fb, get_feedback g a = Ok fb ∧ valid_pattern fb
        ∧ cell g a = feedback_to_int fb ∧ fb_list (cell g a) = fb.
Proof.
  intros Hg Ha. destruct (get_feedback_spec g a Hg Ha) as (fb & Hfb & _).
  destruct (get_feedback_valid g a fb Hfb) as [Hlen Hrange].
  exists fb. unfold cell. rewrite Hfb, to_uint8_code by done.
  split_and!; [done | done | done | by apply decode_encode].
Qed.

Lemma table_filter_ok possible_words gi g fb remaining :
  possible_words !! gi = Some g →
  Forall (λ r, (r < length possible_words)%nat) remaining →
  table_filter ((λ g, cell g <$> possible_words) <$> possible_words)
    gi fb remaining
  = Ok (filter (λ r, (cell g <$> possible_words) !! r = Some fb) remaining).
Proof.
  intros Hg Hrem. unfold table_filter, table_take, list_getitem.
  rewrite list_lookup_fmap, Hg. simpl.
  set (row := cell g <$> possible_words).
  assert (Hrow : ∀ r, r ∈ remaining → ∃ c, row !! r = Some c).
  { intros r Hr. rewrite Forall_forall in Hrem.
    apply lookup_lt_is_Some_2. unfold row. rewrite length_fmap. auto. }
  rewrite (mapM_ok _ (λ r, default 0 (row !! r))).
  - simpl. f_equal. clear Hrem.
    induction remaining as [|r remaining IH]; [done|].
    destruct (Hrow r) as [c Hc]; [apply elem_of_cons; auto|].
    rewrite fmap_cons. simpl. rewrite !filter_cons. simpl. rewrite Hc. simpl.
    rewrite <- IH by (intros r' Hr'; apply Hrow, elem_of_cons; auto).
    destruct (decide (c = fb)) as [->|Hne].
    + by rewrite decide_True.
    + by rewrite decide_False by congruence.
  - intros r Hr. destruct (Hrow r Hr) as [c Hc]. by rewrite Hc.
Qed.

(** ** Feedback: the multiset rule, self-match, failure *)

(** C1. For 5-letter words the feedback is a valid pattern whose Correct
    marks ([2]) sit exactly at the positional matches; for every letter
    [c] the positions of the guess holding [c] that are marked Correct or
    Present are at most the occurrences of [c] in the answer, and the
    Present marks ([1]) of [c] number exactly the smaller of the unmatched
    occurrences of [c] in the guess and the occurrences in the answer left
    once the Correct marks have taken theirs. *)
Theorem get_feedback_multiset_rule (guess answer : string) :
  is_word guess → is_word answer →
  ∃ fb, get_feedback guess answer = Ok fb ∧ valid_pattern fb ∧
    (∀ i, (i < 5)%nat →
          fb !! i = Some 2 ↔ String.get i guess = String.get i answer) ∧
    (∀ c, (count_marked 2 c guess fb + count_marked 1 c guess fb
           ≤ count_letter c answer)%nat ∧
          count_marked 1 c guess fb
          = (count_unmatched c guess answer
             `min` (count_letter c answer - count_marked 2 c guess fb))%nat).
Proof.
  unfold is_word. intros Hg Ha.
  destruct (get_feedback_spec guess answer) as (fb & Hfb & Hlen & Hidx & Hc);
    [lia | lia |].
  exists fb. split_and!; [done | by eapply get_feedback_valid | | done].
  intros i Hi. destruct (Hidx i Hi) as (f & -> & _ & Hiff).
  rewrite <- Hiff. split; congruence.
Qed.

Lemma get_feedback_multiset_rule_witness :
  is_word "aabbb" ∧ is_word "ababa" ∧
  ∃ fb, get_feedback "aabbb" "ababa" = Ok fb ∧ valid_pattern fb ∧
    (∀ i, (i < 5)%nat →
          fb !! i = Some 2 ↔ String.get i "aabbb" = String.get i "ababa") ∧
    (∀ c, (count_marked 2 c "aabbb" fb + count_marked 1 c "aabbb" fb
           ≤ count_letter c "ababa")%nat ∧
          count_marked 1 c "aabbb" fb
          = (count_unmatched c "aabbb" "ababa"
             `min` (count_letter c "ababa" - count_marked 2 c "aabbb" fb))%nat).
Proof.
  split; [reflexivity|]. split; [reflexivity|].
  apply (get_feedback_multiset_rule "aabbb" "ababa"); reflexivity.
Defined.

Lemma all_correct_iff (g a : string) :
  is_word g → is_word a → get_feedback g a = Ok all_correct ↔ g = a.
Proof.
  unfold is_word. intros Hg Ha.
  destruct (get_feedback_spec g a) as (fb & Hfb & Hlen & Hidx & _);
    [lia | lia |].
  rewrite Hfb. split.
  - intros [= ->]. apply string_eq_5; [done | done |].
    intros i Hi. destruct (Hidx i Hi) as (f & Hf & _ & Hiff).
    apply Hiff. do 5 (destruct i as [|i]; [by injection Hf|]). lia.
  - intros <-. f_equal. apply list5_eq; [done|].
    intros i Hi. destruct (Hidx i Hi) as (f & -> & _ & Hiff).
    f_equal. by apply Hiff.
Qed.

Lemma solved_test_iff possible_words gi ai g a :
  NoDup possible_words → Forall is_word possible_words →
  possible_words !! gi = Some g → possible_words !! ai = Some a →
  fb_list (cell g a) = all_correct ↔ gi = ai.
Proof.
  intros Hnd Hwords Hg Ha. rewrite Forall_forall in Hwords.
  assert (Hwg : is_word g) by (eapply Hwords, list_elem_of_lookup_2; done).
  assert (Hwa : is_word a) by (eapply Hwords, list_elem_of_lookup_2; done).
  unfold is_word in Hwg, Hwa.
  destruct (cell_code g a) as (fb & Hfb & _ & _ & ->); [lia | lia |].
  split.
  - intros ->. apply all_correct_iff in Hfb; [subst a | done | done].
    by eapply NoDup_lookup.
  - intros ->. assert (g = a) as -> by congruence.
    assert (Hself : get_feedback a a = Ok all_correct)
      by by apply all_correct_iff.
    congruence.
Qed.

(** C7. A 5-letter word scores all-Correct against itself, and an
    all-Correct feedback between two 5-letter words means they are the
    same word; hence in the feedback table of a duplicate-free list of
    5-letter words the decoded cell is all-Correct exactly when the guess
    index equals the answer index. *)
Theorem all_correct_same_word :
  (∀ w, is_word w → get_feedback w w = Ok all_correct) ∧
  (∀ g a, is_word g → is_word a → get_feedback g a = Ok all_correct → g = a) ∧
  (∀ possible_words, NoDup possible_words → Forall is_word possible_words →
     ∃ table, build_feedback_table possible_words = Ok table ∧
       ∀ gi ai, (gi < length possible_words)%nat →
                (ai < length possible_words)%nat →
                ∃ fb, table_get table gi ai = Ok fb
                      ∧ (fb_list fb = all_correct ↔ gi = ai)).
Proof.
  split_and!.
  - intros w Hw. by apply all_correct_iff.
  - intros g a Hg Ha Hfb. by apply (all_correct_iff g a).
  - intros possible_words Hnd Hwords. eexists. split.
    + apply build_feedback_table_ok. eapply Forall_impl; [done|].
      unfold is_word. intros; simpl in *; lia.
    + intros gi ai Hgi Hai.
      destruct (lookup_lt_is_Some_2 _ _ Hgi) as [g Hg].
      destruct (lookup_lt_is_Some_2 _ _ Hai) as [a Ha].
      exists (cell g a). split; [by apply table_get_cell|].
      by eapply solved_test_iff.
Qed.

Lemma all_correct_same_word_witness :
  get_feedback "raise" "raise" = Ok all_correct ∧
  (get_feedback "raise" "raise" = Ok all_correct → "raise" = "raise") ∧
  ∃ table, build_feedback_table ["abcde"; "edcba"] = Ok table ∧
    ∀ gi ai, (gi < 2)%nat → (ai < 2)%nat →
      ∃ fb, table_get table gi ai = Ok fb
            ∧ (fb_list fb = all_correct ↔ gi = ai).
Proof.
  destruct all_correct_same_word as (Hself & Hconv & Htable).
  split_and!.
  - apply Hself. reflexivity.
  - apply Hconv; reflexivity.
  - apply (Htable ["abcde"; "edcba"]).
    + apply (bool_decide_unpack (NoDup ["abcde"; "edcba"])). exact I.
    + repeat constructor.
Defined.

(** C9, as the code has it. [get_feedback] validates nothing: it raises
    (an [IndexError]) exactly when the guess or the answer has fewer than
    five characters, and returns five marks whenever both have at least
    five, whatever their lengths and characters. *)
Theorem get_feedback_raises_iff (guess answer : string) :
  (get_feedback guess answer = Raise IndexError
   ↔ (String.length guess < 5 ∨ String.length answer < 5)%nat) ∧
  ((∃ fb, get_feedback guess answer = Ok fb ∧ valid_pattern fb)
   ↔ (5 ≤ String.length guess ∧ 5 ≤ String.length answer)%nat).
Proof.
  destruct (decide (String.length guess < 5 ∨ String.length answer < 5)%nat)
    as [Hshort|Hlong].
  - pose proof (get_feedback_short_raises guess answer Hshort) as Hr.
    rewrite Hr. split; split.
    + done.
    + done.
    + intros (fb & Hfb & _). discriminate Hfb.
    + lia.
  - destruct (get_feedback_spec guess answer) as (fb & Hfb & _);
      [lia | lia |].
    rewrite Hfb. split; split.
    + discriminate.
    + intros Hshort. by destruct Hlong.
    + lia.
    + intros _. exists fb. split; [done|]. by eapply get_feedback_valid.
Qed.

(** C9 fails as stated: words of different lengths, and words with
    characters outside a-z, are scored without any error. *)
Lemma get_feedback_unvalidated :
  get_feedback "abcdef" "abcde" = Ok [2; 2; 2; 2; 2] ∧
  get_feedback "AB-de" "abcde" = Ok [0; 0; 0; 2; 2].
Proof. split; reflexivity. Qed.

(** ** Codec round trip and candidate filtering *)

Lemma fb_list_valid (c : Z) : valid_pattern (fb_list c).
Proof.
  split; [done|]. rewrite fb_list_digits.
  repeat constructor; Z.div_mod_to_equations; lia.
Qed.

(** C5. The code of a pattern is its base-3 numeral with position 0 as the
    most significant digit; [feedback_to_int] and [fb_list] are mutual
    inverses between the valid 5-position patterns and the codes in
    [[0, 3^5)], and a code survives storage in a [uint8] cell. *)
Theorem feedback_code_roundtrip :
  (∀ a b c d e,
     feedback_to_int [a; b; c; d; e]
     = a * 3 ^ 4 + b * 3 ^ 3 + c * 3 ^ 2 + d * 3 ^ 1 + e * 3 ^ 0) ∧
  (∀ c, 0 ≤ c < 3 ^ 5 →
        valid_pattern (fb_list c) ∧ feedback_to_int (fb_list c) = c) ∧
  (∀ p, valid_pattern p →
        0 ≤ feedback_to_int p < 3 ^ 5 ∧ fb_list (feedback_to_int p) = p
        ∧ to_uint8 (feedback_to_int p) = feedback_to_int p).
Proof.
  split_and!.
  - intros a b c d e. rewrite feedback_to_int_5. lia.
  - intros c Hc. split; [apply fb_list_valid | by apply encode_decode].
  - intros p [Hlen Hp]. split; [|split].
    + by apply feedback_to_int_range.
    + by apply decode_encode.
    + by apply to_uint8_code.
Qed.

Lemma feedback_code_roundtrip_witness :
  feedback_to_int (fb_list 130) = 130 ∧
  fb_list (feedback_to_int [1; 1; 2; 1; 1]) = [1; 1; 2; 1; 1].
Proof.
  destruct feedback_code_roundtrip as (_ & Henc & Hdec). split.
  - apply Henc. lia.
  - apply Hdec. split; [reflexivity|]. repeat constructor; lia.
Defined.

Lemma is_word_long (words : list string) :
  Forall is_word words → Forall (λ w, (5 ≤ String.length w)%nat) words.
Proof.
  intros Hwords. eapply Forall_impl; [exact Hwords|].
  unfold is_word. intros w Hw. simpl in *. lia.
Qed.

(** C3. Filtering keeps exactly the candidates whose feedback against the
    guess equals the observed pattern, in their original order, as a new
    list ([filter_words] only reads its argument); the simulator's filter
    on answer indices keeps exactly the indices whose word has the
    observed feedback. *)
Theorem candidate_filter_exact :
  (∀ words guess observed,
     is_word guess → Forall is_word words →
     ∃ kept, filter_words words guess observed = Ok kept ∧
       kept = filter (λ w, get_feedback guess w = Ok observed) words ∧
       (∀ w, w ∈ kept ↔ w ∈ words ∧ get_feedback guess w = Ok observed) ∧
       sublist kept words) ∧
  (∀ possible_words gi g fb remaining,
     Forall is_word possible_words →
     possible_words !! gi = Some g →
     Forall (λ r, (r < length possible_words)%nat) remaining →
     0 ≤ fb < 3 ^ 5 →
     ∃ table kept,
       build_feedback_table possible_words = Ok table ∧
       table_filter table gi fb remaining = Ok kept ∧
       sublist kept remaining ∧
       ∀ r, r ∈ kept ↔
            r ∈ remaining ∧
            ∃ a, possible_words !! r = Some a
                 ∧ get_feedback g a = Ok (fb_list fb)).
Proof.
  split.
  - intros words guess observed Hg Hwords.
    eexists. split; [|split_and!; [reflexivity | |]].
    + apply filter_words_ok; [unfold is_word in Hg; lia|].
      by apply is_word_long.
    + intros w. rewrite list_elem_of_filter. tauto.
    + apply sublist_filter.
  - intros possible_words gi g fb remaining Hwords Hg Hrem Hfb.
    do 2 eexists. split_and!.
    + by apply build_feedback_table_ok, is_word_long.
    + by apply table_filter_ok.
    + apply sublist_filter.
    + intros r. rewrite list_elem_of_filter, list_lookup_fmap.
      rewrite Forall_forall in Hwords.
      assert (Hwg : is_word g)
        by (eapply Hwords, list_elem_of_lookup_2; done).
      split.
      * intros [Hcell Hr]. split; [done|].
        destruct (possible_words !! r) as [a|] eqn:Ha; [|done].
        exists a. split; [done|]. injection Hcell as <-.
        assert (Hwa : is_word a)
          by (eapply Hwords, list_elem_of_lookup_2; done).
        unfold is_word in Hwg, Hwa.
        destruct (cell_code g a) as (fb' & Hfb' & _ & _ & ->); [lia|lia|done].
      * intros [Hr (a & Ha & Hga)]. split; [|done]. rewrite Ha. simpl.
        f_equal. unfold cell. rewrite Hga.
        rewrite to_uint8_code; [by apply encode_decode | |];
          apply (fb_list_valid fb).
Qed.

Lemma candidate_filter_exact_witness :
  ∃ kept, filter_words ["abcde"; "edcba"; "eabcd"] "abcde" [1; 1; 1; 1; 1]
          = Ok kept ∧
    kept = filter (λ w, get_feedback "abcde" w = Ok [1; 1; 1; 1; 1])
             ["abcde"; "edcba"; "eabcd"] ∧
    (∀ w, w ∈ kept ↔ w ∈ ["abcde"; "edcba"; "eabcd"]
                      ∧ get_feedback "abcde" w = Ok [1; 1; 1; 1; 1]) ∧
    sublist kept ["abcde"; "edcba"; "eabcd"].
Proof.
  apply (proj1 candidate_filter_exact).
  - reflexivity.
  - repeat constructor.
Defined.

(** ** The entropy cache *)

Section CacheProperties.
Context {F : Type} `{PyFloat F}.

Lemma cache_ok_empty : cache_ok (∅ : cache F).
Proof. intros g pa e He. by rewrite lookup_empty in He. Qed.

Lemma entropy_for_guess_ok (guess : string) (possible_answers : list string)
    (c : cache F) :
  cache_ok c →
  (entropy_for_guess guess possible_answers c).1
  = bucket_entropy guess possible_answers
  ∧ cache_ok (entropy_for_guess guess possible_answers c).2.
Proof.
  intros Hc. unfold entropy_for_guess.
  destruct (c !! (guess, possible_answers)) as [e|] eqn:Hlook; simpl.
  - split; [symmetry; by apply Hc | done].
  - destruct (bucket_entropy guess possible_answers) as [e|x] eqn:He; simpl.
    + split; [done|]. intros g pa e' Hlook'.
      destruct (decide ((guess, possible_answers) = (g, pa))) as [[= <- <-]|Hne].
      * rewrite lookup_insert_eq in Hlook'. congruence.
      * rewrite lookup_insert_ne in Hlook' by done. by apply Hc.
    + done.
Qed.

Lemma best_entropy_loop_cache_ok (allowed_words possible_answers : list string)
    (best : option string * F) (c : cache F) :
  cache_ok c →
  cache_ok (best_entropy_loop allowed_words possible_answers best c).2.
Proof.
  revert best c. induction allowed_words as [|guess allowed IH];
    intros best c Hc; simpl; [done|].
  destruct (entropy_for_guess_ok guess possible_answers c Hc) as [_ Hc'].
  destruct (entropy_for_guess guess possible_answers c) as [[e|x] c'];
    simpl in *; [by apply IH | done].
Qed.

Lemma refresh_cache_ok (allowed_words : list string) (g : @Gui.gui F)
    (c : cache F) :
  cache_ok c → cache_ok (Gui.refresh allowed_words g c).2.
Proof.
  intros Hc. unfold Gui.refresh.
  pose proof (best_entropy_loop_cache_ok allowed_words (Gui.words g)
                (None, f_of_int (-1)) c Hc) as Hc'.
  unfold best_entropy_guess.
  destruct (best_entropy_loop _ _ _ c) as [[best|x] c']; done.
Qed.

Lemma submit_cache_ok (allowed_words : list string) (g : @Gui.gui F)
    (c : cache F) :
  cache_ok c → cache_ok (Gui.submit allowed_words g c).1.2.
Proof.
  intros Hc. unfold Gui.submit.
  destruct (_ || _); [done|].
  destruct (decide _); [done|].
  destruct (filter_words _ _ _) as [[|w words']|x]; [done | | done].
  match goal with
  | |- context [Gui.refresh ?a ?g1 c] =>
      pose proof (refresh_cache_ok a g1 c Hc) as Hc';
      destruct (Gui.refresh a g1 c) as [[[u|x] g2] c']
  end; done.
Qed.

Lemma run_op_cache_ok (c : cache F) (o : op) :
  cache_ok c → cache_ok (run_op c o).
Proof.
  intros Hc. destruct o; simpl.
  - by apply entropy_for_guess_ok.
  - by apply best_entropy_loop_cache_ok.
  - by apply refresh_cache_ok.
  - by apply submit_cache_ok.
  - apply refresh_cache_ok, cache_ok_empty.
  - apply cache_ok_empty.
Qed.

Lemma run_session_cache_ok (ops : list op) : cache_ok (run_session ops).
Proof.
  unfold run_session. induction ops as [|o ops IH] using rev_ind.
  - apply cache_ok_empty.
  - rewrite foldl_app. simpl. by apply run_op_cache_ok.
Qed.

(** C10. Whatever calls came earlier in the session, [entropy_for_guess]
    returns exactly what the bucket computation of lines 46-54 returns for
    the same guess and candidate list (a value or the same exception), so
    the cache never changes a result; this holds for every arithmetic on
    floats. *)
Theorem entropy_cache_transparent (ops : list op) (guess : string)
    (possible_answers : list string) :
  (entropy_for_guess guess possible_answers (run_session ops)).1
  = bucket_entropy guess possible_answers.
Proof.
  pose proof (run_session_cache_ok ops) as Hinv.
  unfold entropy_for_guess.
  destruct (run_session ops !! (guess, possible_answers)) as [e|] eqn:Hhit;
    simpl.
  - (* a hit: the stored value is the computed one *)
    symmetry. by apply Hinv.
  - (* a miss: the value is computed, and stored only if there is one *)
    by destruct (bucket_entropy guess possible_answers).
Qed.

End CacheProperties.

(** ** The selection loop of [solver.py] *)

Section SelectionProperties.
Context {F : Type} `{PyFloatOrder F}.

Lemma gtb_asym (x y : F) : f_gtb x y = true → f_gtb y x = false.
Proof.
  intros Hxy. destruct (f_gtb y x) eqn:Hyx; [|done].
  pose proof (gtb_trans x y x Hxy Hyx) as Hxx.
  by rewrite gtb_irrefl in Hxx.
Qed.

(** With a consistent cache the loop is the fold over the scores. *)
Lemma best_entropy_loop_fold (allowed_words possible_answers : list string)
    (best : option string * F) (c : cache F) :
  cache_ok c →
  (∀ g, g ∈ allowed_words → ∃ e, bucket_entropy g possible_answers = Ok e) →
  ∃ c', best_entropy_loop allowed_words possible_answers best c
        = (Ok (best_fold possible_answers allowed_words best), c')
        ∧ cache_ok c'.
Proof.
  revert best c. induction allowed_words as [|guess allowed IH];
    intros best c Hc Hscore; simpl.
  - by exists c.
  - destruct (entropy_for_guess_ok guess possible_answers c Hc) as [Hval Hc'].
    destruct (Hscore guess) as [e He]; [apply elem_of_cons; auto|].
    destruct (entropy_for_guess guess possible_answers c) as [r c'].
    assert (Hs : score guess possible_answers = e)
      by (unfold score; by rewrite He).
    simpl in *. subst r. rewrite He.
    destruct (IH (best_update possible_answers guess e best) c' Hc')
      as (c'' & -> & Hc''); [intros g Hg; apply Hscore, elem_of_cons; auto|].
    exists c''. split; [|done]. unfold best_fold. simpl. by rewrite Hs.
Qed.

Lemma best_fold_snoc (possible_answers l : list string) (g : string)
    (best : option string * F) :
  best_fold possible_answers (l ++ [g]) best
  = best_update possible_answers g (score g possible_answers)
      (best_fold possible_answers l best).
Proof. unfold best_fold. by rewrite foldl_app. Qed.

(** The invariant of the loop, by induction on the words handled. *)
Lemma best_fold_selected (possible_answers l : list string) :
  (∀ g, g ∈ l →
        f_gtb (score g possible_answers) (f_of_int (-1)) = true) →
  match l with
  | [] => best_fold possible_answers l (None, f_of_int (-1))
          = (None, f_of_int (-1))
  | _ :: _ =>
      ∃ l1 w l2, l = l1 ++ w :: l2 ∧
        best_fold possible_answers l (None, f_of_int (-1))
        = (Some w, score w possible_answers) ∧
        selected possible_answers l1 w l2
  end.
Proof.
  induction l as [|g l IH] using rev_ind; intros Hpos; [done|].
  assert (Hl : ∀ g', g' ∈ l →
             f_gtb (score g' possible_answers) (f_of_int (-1)) = true)
    by (intros g' Hg'; apply Hpos, elem_of_app; auto).
  specialize (IH Hl).
  assert (Hg : f_gtb (score g possible_answers) (f_of_int (-1)) = true)
    by (apply Hpos, elem_of_app; right; apply elem_of_cons; auto).
  assert (Hgoal : ∃ l1 w l2, l ++ [g] = l1 ++ w :: l2 ∧
            best_fold possible_answers (l ++ [g]) (None, f_of_int (-1))
            = (Some w, score w possible_answers) ∧
            selected possible_answers l1 w l2);
    [|by destruct l].
  rewrite best_fold_snoc. destruct l as [|g0 l0].
  - rewrite IH. unfold best_update. simpl. rewrite Hg. simpl.
    exists [], g, []. split_and!; [done | done |].
    split_and!.
    + intros g' Hg'. apply elem_of_cons in Hg' as [->|Hg'];
        [apply gtb_irrefl | by apply elem_of_nil in Hg'].
    + intros g' Hg'. by apply elem_of_nil in Hg'.
    + right. intros g' Hg'. by apply elem_of_nil in Hg'.
  - destruct IH as (l1 & w & l2 & Hsplit & -> & Hmax & Hlater & Hfirst).
    rewrite Hsplit in *. unfold best_update. simpl.
    set (eg := score g possible_answers). set (ew := score w possible_answers).
    destruct (f_gtb eg ew) eqn:Hgt; simpl.
    + (* a strictly higher score replaces the incumbent *)
      exists (l1 ++ w :: l2), g, []. split_and!; [done | done |].
      split_and!.
      * intros g' Hg'. apply elem_of_app in Hg' as [Hg'|Hg'].
        -- eapply gtb_neg_trans; [by apply Hmax | by apply gtb_asym].
        -- apply elem_of_cons in Hg' as [->|Hg'];
             [apply gtb_irrefl | by apply elem_of_nil in Hg'].
      * intros g' Hg'. by apply elem_of_nil in Hg'.
      * right. intros g' Hg'.
        destruct (f_gtb (score g possible_answers)
                    (score g' possible_answers)) eqn:Hgg'; [done|].
        pose proof (gtb_neg_trans _ _ _ Hgg' (Hmax g' Hg')) as Hcontra.
        fold eg ew in Hcontra. congruence.
    + destruct (f_eqb eg ew && py_in g possible_answers) eqn:Htie.
      * (* a tied candidate replaces the incumbent *)
        apply andb_true_iff in Htie as [Heq Hin].
        apply eqb_tie in Heq as [_ Hwg].
        apply bool_decide_eq_true in Hin.
        exists (l1 ++ w :: l2), g, []. split_and!; [done | done |].
        split_and!.
        -- intros g' Hg'. apply elem_of_app in Hg' as [Hg'|Hg'].
           ++ eapply gtb_neg_trans; [by apply Hmax | done].
           ++ apply elem_of_cons in Hg' as [->|Hg'];
                [apply gtb_irrefl | by apply elem_of_nil in Hg'].
        -- intros g' Hg'. by apply elem_of_nil in Hg'.
        -- by left.
      * (* the incumbent stays *)
        exists l1, w, (l2 ++ [g]).
        split_and!; [by rewrite <- app_assoc | done |].
        split_and!.
        -- intros g' Hg'. rewrite app_comm_cons, app_assoc in Hg'.
           apply elem_of_app in Hg' as [Hg'|Hg']; [by apply Hmax|].
           apply elem_of_cons in Hg' as [->|Hg'];
             [done | by apply elem_of_nil in Hg'].
        -- intros g' Hg' Heq. apply elem_of_app in Hg' as [Hg'|Hg'];
             [by apply Hlater|].
           apply elem_of_cons in Hg' as [->|Hg'];
             [|by apply elem_of_nil in Hg'].
           fold eg ew in Heq. rewrite Heq in Htie. simpl in Htie.
           by apply bool_decide_eq_false in Htie.
        -- done.
Qed.

End SelectionProperties.

(** ** Exact arithmetic: the comparison laws and the sign of the entropy *)

Lemma R_gtb_true (x y : R) : R_gtb x y = true ↔ (x > y)%R.
Proof. unfold R_gtb. destruct (Rgt_dec x y); split; (done || lra). Qed.

Lemma R_gtb_false (x y : R) : R_gtb x y = false ↔ (x <= y)%R.
Proof. unfold R_gtb. destruct (Rgt_dec x y); split; (done || lra). Qed.

Lemma R_eqb_true (x y : R) : R_eqb x y = true ↔ x = y.
Proof. unfold R_eqb. destruct (Req_dec_T x y); split; (done || lra). Qed.

Lemma R_eqb_false (x y : R) : R_eqb x y = false ↔ x ≠ y.
Proof. unfold R_eqb. destruct (Req_dec_T x y); split; done. Qed.

#[global] Instance R_float_order : PyFloatOrder R.
Proof.
  split; simpl.
  - intros x. apply R_gtb_false. lra.
  - intros x y z. rewrite !R_gtb_true. lra.
  - intros x y z. rewrite !R_gtb_false. lra.
  - intros x y. rewrite R_eqb_true, !R_gtb_false. split; [lra|].
    intros [? ?]. lra.
Qed.

Lemma R_log2_nonneg (x : R) : (1 <= x)%R → (0 <= R_log2 x)%R.
Proof.
  intros Hx. unfold R_log2.
  assert (0 < ln 2)%R by (pose proof ln_lt_2; lra).
  assert (0 <= ln x)%R.
  { destruct (Req_dec_T x 1) as [->|Hne]; [rewrite ln_1; lra|].
    pose proof (ln_increasing 1 x) as Hinc. rewrite ln_1 in Hinc. lra. }
  apply Rmult_le_pos; [done|]. left. by apply Rinv_0_lt_compat.
Qed.

(** One term of the sum, on a bucket of [count] among [total] answers. *)
Lemma entropy_term_R (total count : Z) (entropy : R) :
  1 ≤ count ≤ total →
  entropy_term total count entropy
  = Ok (entropy + IZR count / IZR total
                  * R_log2 (1 / (IZR count / IZR total)))%R
  ∧ (0 <= IZR count / IZR total
          * R_log2 (1 / (IZR count / IZR total)))%R.
Proof.
  intros [Hlo Hhi].
  assert (Hc : (1 <= IZR count)%R) by by apply IZR_le.
  assert (Ht : (IZR count <= IZR total)%R) by by apply IZR_le.
  assert (Hp : (0 < IZR count / IZR total <= 1)%R).
  { split.
    - apply Rdiv_lt_0_compat; lra.
    - apply (Rmult_le_reg_r (IZR total)); [lra|].
      unfold Rdiv. rewrite Rmult_assoc, Rinv_l by lra. lra. }
  assert (Hq : (1 <= 1 / (IZR count / IZR total))%R).
  { rewrite Rdiv_1_l, <- Rinv_1 at 1. apply Rinv_le_contravar; lra. }
  split.
  - unfold entropy_term, int_truediv, float_truediv, math_log2.
    rewrite decide_False by lia. simpl.
    replace (R_eqb _ _) with false by (symmetry; apply R_eqb_false; lra).
    simpl.
    replace (R_gtb _ _) with true by (symmetry; apply R_gtb_true; lra).
    done.
  - apply Rmult_le_pos; [lra | by apply R_log2_nonneg].
Qed.

Lemma entropy_sum_R (total : Z) (counts : list Z) (entropy : R) :
  Forall (λ c, 1 ≤ c ≤ total) counts →
  ∃ e, for_each counts (entropy_term total) entropy = Ok e
       ∧ (entropy <= e)%R.
Proof.
  intros Hcounts. revert entropy.
  induction Hcounts as [|c counts Hc Hcounts IH]; intros entropy; simpl.
  - exists entropy. split; [done | lra].
  - destruct (entropy_term_R total c entropy Hc) as [-> Hterm]. simpl.
    destruct (IH (entropy + IZR c / IZR total
                  * R_log2 (1 / (IZR c / IZR total)))%R) as (e & -> & He).
    exists e. split; [done | lra].
Qed.

(** The buckets of [fill_buckets]: every count is at least 1 and the
    counts add up to the number of answers. *)
Lemma bucket_incr_counts (k : list Z) (b : list (list Z * Z)) :
  Forall (λ kc, 1 ≤ kc.2) b →
  Forall (λ kc, 1 ≤ kc.2) (bucket_incr k b)
  ∧ foldr (λ kc acc, kc.2 + acc) 0 (bucket_incr k b)
    = foldr (λ kc acc, kc.2 + acc) 0 b + 1.
Proof.
  induction 1 as [|[k' c] b Hc Hb [IH1 IH2]]; simpl.
  - split; [repeat constructor; simpl; lia | lia].
  - destruct (decide (k' = k)); simpl in *.
    + split; [constructor; [simpl; lia | done] | lia].
    + split; [by constructor | lia].
Qed.

Lemma fill_buckets_total (guess : string) (possible_answers : list string) :
  (5 ≤ String.length guess)%nat →
  Forall (λ w, (5 ≤ String.length w)%nat) possible_answers →
  ∃ b, fill_buckets guess possible_answers = Ok b
       ∧ Forall (λ kc : list Z * Z, 1 ≤ kc.2) b
       ∧ foldr (λ kc acc, kc.2 + acc) 0 b
         = Z.of_nat (length possible_answers).
Proof.
  intros Hg Hpa. unfold fill_buckets.
  assert (Hloop : ∀ b0, Forall (λ kc : list Z * Z, 1 ≤ kc.2) b0 →
    ∃ b, for_each possible_answers
           (λ answer buckets,
              fb ← get_feedback guess answer; Ok (bucket_incr fb buckets)) b0
         = Ok b
         ∧ Forall (λ kc : list Z * Z, 1 ≤ kc.2) b
         ∧ foldr (λ kc acc, kc.2 + acc) 0 b
           = foldr (λ kc acc, kc.2 + acc) 0 b0
             + Z.of_nat (length possible_answers)).
  { induction Hpa as [|a pa Ha Hpa IH]; intros b0 Hb0; simpl.
    - exists b0. split_and!; [done | done | lia].
    - destruct (get_feedback_spec guess a Hg Ha) as (fb & -> & _). simpl.
      destruct (bucket_incr_counts fb b0 Hb0) as [Hb1 Hsum1].
      destruct (IH (bucket_incr fb b0) Hb1) as (b & -> & Hb & Hsum).
      exists b. split_and!; [done | done | lia]. }
  destruct (Hloop [] (Forall_nil_2 _)) as (b & -> & Hb & Hsum).
  exists b. split_and!; [done | done |]. simpl in Hsum. lia.
Qed.

Lemma counts_le_sum (b : list (list Z * Z)) :
  Forall (λ kc : list Z * Z, 1 ≤ kc.2) b →
  Forall (λ c, 1 ≤ c ≤ foldr (λ kc acc, kc.2 + acc) 0 b) (snd <$> b).
Proof.
  induction 1 as [|[k c] b Hc Hb IH]; simpl; [constructor|].
  assert (0 ≤ foldr (λ kc acc, kc.2 + acc) 0 b).
  { clear IH. induction Hb as [|[k' c'] b' Hc' Hb' IH']; simpl in *; lia. }
  constructor; [simpl in *; lia|].
  eapply Forall_impl; [exact IH|]. intros c' Hc'. simpl in *. lia.
Qed.

Lemma fill_buckets_counts (guess : string) (possible_answers : list string) :
  (5 ≤ String.length guess)%nat →
  Forall (λ w, (5 ≤ String.length w)%nat) possible_answers →
  ∃ b, fill_buckets guess possible_answers = Ok b
       ∧ Forall (λ c, 1 ≤ c ≤ Z.of_nat (length possible_answers)) (snd <$> b).
Proof.
  intros Hg Hpa.
  destruct (fill_buckets_total guess possible_answers Hg Hpa)
    as (b & Hb & Hcounts & Hsum).
  exists b. split; [done|]. rewrite <- Hsum. by apply counts_le_sum.
Qed.

(** In exact arithmetic the bucket entropy of well-formed words is
    defined and non-negative. *)
Lemma bucket_entropy_R_nonneg (guess : string) (possible_answers : list string) :
  (5 ≤ String.length guess)%nat →
  Forall (λ w, (5 ≤ String.length w)%nat) possible_answers →
  ∃ e : R, bucket_entropy guess possible_answers = Ok e ∧ (0 <= e)%R.
Proof.
  intros Hg Hpa. unfold bucket_entropy.
  destruct (fill_buckets_counts guess possible_answers Hg Hpa)
    as (b & -> & Hcounts).
  simpl. by apply entropy_sum_R.
Qed.

(** ** The entropy in exact arithmetic *)

Lemma R_log2_le (x y : R) : (0 < x)%R → (x <= y)%R → (R_log2 x <= R_log2 y)%R.
Proof.
  intros Hx Hxy. unfold R_log2.
  assert (0 < ln 2)%R by (pose proof ln_lt_2; lra).
  assert (ln x <= ln y)%R.
  { destruct (Req_dec_T x y) as [->|Hne]; [lra|].
    pose proof (ln_increasing x y). lra. }
  apply Rmult_le_compat_r; [|done]. left. by apply Rinv_0_lt_compat.
Qed.

Lemma R_log2_1 : R_log2 1 = 0%R.
Proof. unfold R_log2. rewrite ln_1. lra. Qed.

(** The loop of lines 52-54 adds up the Shannon terms, and their sum is
    at most [(sum of the counts / total) * log2 total]. *)
Lemma entropy_sum_R_shannon (total : Z) (counts : list Z) (entropy : R) :
  Forall (λ c, 1 ≤ c ≤ total) counts →
  for_each counts (entropy_term total) entropy
  = Ok (entropy + shannon_entropy counts total)%R
  ∧ (0 <= shannon_entropy counts total
     <= IZR (foldr Z.add 0%Z counts) / IZR total * R_log2 (IZR total))%R.
Proof.
  intros Hcounts. revert entropy.
  induction Hcounts as [|c counts Hc Hcounts IH]; intros entropy; simpl.
  - split; [f_equal; lra|]. unfold Rdiv. lra.
  - destruct (entropy_term_R total c entropy Hc) as [-> Hterm]. simpl.
    destruct (IH (entropy + IZR c / IZR total
                  * R_log2 (1 / (IZR c / IZR total)))%R) as [-> Hbound].
    assert (Hc1 : (1 <= IZR c)%R) by (apply IZR_le; lia).
    assert (Hct : (IZR c <= IZR total)%R) by (apply IZR_le; lia).
    assert (Hinv : (1 / (IZR c / IZR total) = IZR total / IZR c)%R)
      by (rewrite Rdiv_1_l; apply Rinv_div).
    rewrite Hinv in *.
    assert (Hlog : (R_log2 (IZR total / IZR c) <= R_log2 (IZR total))%R).
    { apply R_log2_le; [apply Rdiv_lt_0_compat; lra|].
      apply (Rmult_le_reg_r (IZR c)); [lra|].
      unfold Rdiv. rewrite Rmult_assoc, Rinv_l by lra.
      rewrite Rmult_1_r. rewrite <- (Rmult_1_r (IZR total)) at 1.
      apply Rmult_le_compat_l; lra. }
    assert (Hp : (0 < IZR c / IZR total)%R)
      by (apply Rdiv_lt_0_compat; lra).
    split; [f_equal; lra|].
    rewrite plus_IZR, Rdiv_plus_distr, Rmult_plus_distr_r.
    split; [lra|].
    apply Rplus_le_compat; [|lra].
    apply Rmult_le_compat_l; lra.
Qed.

(** In exact arithmetic the value the code computes is the Shannon entropy
    of the bucket partition, lies between [0] and [log2 n], and is [0]
    when there is at most one candidate. *)
Lemma bucket_entropy_R_bounds (guess : string) (possible_answers : list string) :
  (5 ≤ String.length guess)%nat →
  Forall (λ w, (5 ≤ String.length w)%nat) possible_answers →
  ∃ (b : list (list Z * Z)) (e : R),
    fill_buckets guess possible_answers = Ok b ∧
    bucket_entropy guess possible_answers = Ok e ∧
    e = shannon_entropy (snd <$> b) (Z.of_nat (length possible_answers)) ∧
    (0 <= e)%R ∧
    (possible_answers ≠ [] →
     (e <= R_log2 (IZR (Z.of_nat (length possible_answers))))%R) ∧
    ((length possible_answers ≤ 1)%nat → e = 0%R).
Proof.
  intros Hg Hpa.
  destruct (fill_buckets_total guess possible_answers Hg Hpa)
    as (b & Hb & Hcounts & Hsum).
  set (n := Z.of_nat (length possible_answers)) in *.
  assert (Hrange : Forall (λ c, 1 ≤ c ≤ n) (snd <$> b))
    by (rewrite <- Hsum; by apply counts_le_sum).
  assert (Hsum' : foldr Z.add 0 (snd <$> b) = n).
  { rewrite <- Hsum. clear. induction b as [|[k c] b IH]; simpl; [done|].
    by f_equal. }
  destruct (entropy_sum_R_shannon n (snd <$> b) 0%R Hrange) as [Hrun [Hlo Hhi]].
  rewrite Hsum' in Hhi.
  exists b, (0 + shannon_entropy (snd <$> b) n)%R.
  assert (Hupper : possible_answers ≠ [] →
            (0 + shannon_entropy (snd <$> b) n <= R_log2 (IZR n))%R).
  { intros Hne.
    assert (Hn : (1 <= IZR n)%R).
    { apply IZR_le. unfold n. destruct possible_answers; [done|].
      simpl length. lia. }
    unfold Rdiv in Hhi. rewrite Rinv_r in Hhi by lra. lra. }
  split_and!.
  - done.
  - unfold bucket_entropy. rewrite Hb. simpl. exact Hrun.
  - lra.
  - lra.
  - done.
  - intros Hle. destruct possible_answers as [|a [|a' pa]].
    + simpl in Hsum. destruct b as [|[k c] b]; [simpl; lra|].
      apply Forall_cons in Hrange as [Hc _]. simpl in Hc. unfold n in Hc.
      simpl in Hc. lia.
    + assert (Hup := Hupper ltac:(done)). subst n.
      change (Z.of_nat (length [a])) with 1 in *.
      rewrite R_log2_1 in Hup. lra.
    + simpl in Hle. lia.
Qed.

(** ** The tie-break policy of [best_entropy_guess] *)

Section Policy.
Context {F : Type} `{PyFloatOrder F}.

Lemma selected_policy (possible_answers l1 : list string) (w : string)
    (l2 : list string) :
  selected possible_answers l1 w l2 →
  selection_policy (l1 ++ w :: l2) possible_answers l1 w l2.
Proof.
  intros (Hmax & Hlater & Hfirst). split_and!; [done | done | | |].
  - intros g Hg Htie Hgin.
    destruct (decide (w ∈ possible_answers)) as [|Hw]; [done|].
    destruct Hfirst as [|Hfirst]; [done|]. exfalso.
    apply elem_of_app in Hg as [Hg|Hg].
    + apply eqb_tie in Htie as [_ Hwg]. rewrite (Hfirst g Hg) in Hwg. done.
    + apply elem_of_cons in Hg as [->|Hg]; [done|].
      by apply (Hlater g Hg Htie).
  - intros _. done.
  - intros Hw. by destruct Hfirst.
Qed.

(** After any session, on a non-empty allowed list whose scores are all
    defined and above the initial [-1], [best_entropy_guess] of
    [solver.py] returns a word of the list, with its score, that obeys
    [selection_policy]. *)
Lemma solver_selection_policy (ops : list op)
    (allowed_words possible_answers : list string) :
  allowed_words ≠ [] →
  (∀ g, g ∈ allowed_words →
        ∃ e, bucket_entropy g possible_answers = Ok e
             ∧ f_gtb e (f_of_int (-1)) = true) →
  ∃ l1 w l2 c',
    best_entropy_guess allowed_words possible_answers (run_session ops)
    = (Ok (Some w, score w possible_answers), c')
    ∧ selection_policy allowed_words possible_answers l1 w l2.
Proof.
  intros Hne Hscore. unfold best_entropy_guess.
  destruct (best_entropy_loop_fold allowed_words possible_answers
              (None, f_of_int (-1)) (run_session ops))
    as (c' & -> & _).
  { apply run_session_cache_ok. }
  { intros g Hg. destruct (Hscore g Hg) as (e & He & _). by exists e. }
  pose proof (best_fold_selected possible_answers allowed_words) as Hsel.
  destruct allowed_words as [|g0 allowed]; [done|].
  destruct Hsel as (l1 & w & l2 & Hsplit & -> & Hselected).
  { intros g Hg. destruct (Hscore g Hg) as (e & He & Hgt).
    unfold score. by rewrite He. }
  exists l1, w, l2, c'. split; [done|].
  rewrite Hsplit. by apply selected_policy.
Qed.

End Policy.

Lemma R_score_above_init (allowed_words possible_answers : list string) :
  Forall (λ w, (5 ≤ String.length w)%nat) allowed_words →
  Forall (λ w, (5 ≤ String.length w)%nat) possible_answers →
  ∀ g, g ∈ allowed_words →
       ∃ e : R, bucket_entropy g possible_answers = Ok e
                ∧ f_gtb e (f_of_int (-1)) = true.
Proof.
  intros Hallowed Hpa g Hg. rewrite Forall_forall in Hallowed.
  destruct (bucket_entropy_R_nonneg g possible_answers (Hallowed g Hg) Hpa)
    as (e & He & Hpos).
  exists e. split; [done|]. simpl. apply R_gtb_true. lra.
Qed.

Lemma R_log2_2 : R_log2 2 = 1%R.
Proof.
  unfold R_log2. assert (0 < ln 2)%R by (pose proof ln_lt_2; lra).
  by apply Rdiv_diag, Rgt_not_eq.
Qed.

(** Two candidates in two buckets of one: one bit in exact arithmetic
    (the scenario of the specification), for either of the two words. *)
Lemma two_singleton_buckets :
  for_each [1; 1] (entropy_term (F := R) 2) 0%R = Ok 1%R.
Proof.
  simpl. rewrite (proj1 (entropy_term_R 2 1 _ ltac:(lia))). simpl.
  rewrite (proj1 (entropy_term_R 2 1 _ ltac:(lia))). simpl. f_equal.
  replace (1 / (1 / 2))%R with 2%R by field. rewrite R_log2_2. lra.
Qed.

Example entropy_one_bit :
  bucket_entropy "abcde" ["abcde"; "edcba"] = Ok 1%R ∧
  bucket_entropy "edcba" ["abcde"; "edcba"] = Ok 1%R.
Proof.
  split; unfold bucket_entropy.
  - change (fill_buckets "abcde" ["abcde"; "edcba"])
      with (Ok [([2; 2; 2; 2; 2], 1); ([1; 1; 2; 1; 1], 1)]).
    apply two_singleton_buckets.
  - change (fill_buckets "edcba" ["abcde"; "edcba"])
      with (Ok [([1; 1; 2; 1; 1], 1); ([2; 2; 2; 2; 2], 1)]).
    apply two_singleton_buckets.
Qed.

(** C2 fails as stated. Both allowed words are candidates and both score
    one bit, ["abcde"] comes first in the allowed order, and
    [best_entropy_guess] returns ["edcba"]. *)
Lemma first_tied_candidate_not_chosen :
  bucket_entropy "abcde" ["abcde"; "edcba"] = Ok 1%R ∧
  bucket_entropy "edcba" ["abcde"; "edcba"] = Ok 1%R ∧
  ∃ c' : cache R,
    best_entropy_guess ["abcde"; "edcba"] ["abcde"; "edcba"] ∅
    = (Ok (Some "edcba", 1%R), c').
Proof.
  destruct entropy_one_bit as [H1 H2]. split_and!; [done | done |].
  set (pa := ["abcde"; "edcba"]) in *.
  destruct (best_entropy_loop_fold (F := R) pa pa (None, IZR (-1)) ∅)
    as (c' & Hrun & _).
  { apply cache_ok_empty. }
  { intros g Hg. apply elem_of_cons in Hg as [->|Hg]; [by exists 1%R|].
    apply elem_of_cons in Hg as [->|Hg]; [by exists 1%R|].
    by apply elem_of_nil in Hg. }
  exists c'. unfold best_entropy_guess. simpl f_of_int. rewrite Hrun. f_equal.
  unfold best_fold. simpl foldl. unfold score. rewrite H1, H2.
  unfold best_update at 2. simpl snd.
  replace (f_gtb 1%R (IZR (-1))) with true
    by (symmetry; apply R_gtb_true; lra).
  simpl orb. cbv iota. unfold best_update. simpl snd.
  replace (f_gtb 1%R 1%R) with false by (symmetry; apply R_gtb_false; lra).
  replace (f_eqb 1%R 1%R) with true by (symmetry; by apply R_eqb_true).
  reflexivity.
Qed.

(** ** The simulator *)

Section SimProperties.
Context {F : Type} `{PyFloat F}.
Variable possible_words : list string.
Hypothesis Hwords : Forall is_word possible_words.
Hypothesis Hpos : Sim.scores_above_init.

Let table : list (list Z) :=
  (λ g, cell g <$> possible_words) <$> possible_words.

Lemma table_take_ok gi g (remaining : list nat) :
  possible_words !! gi = Some g →
  Forall (λ r, (r < length possible_words)%nat) remaining →
  ∃ codes, table_take table gi remaining = Ok codes
           ∧ length codes = length remaining.
Proof.
  intros Hg Hrem. unfold table_take, list_getitem, table.
  rewrite list_lookup_fmap, Hg. simpl.
  set (row := cell g <$> possible_words).
  exists ((λ r, default 0 (row !! r)) <$> remaining).
  split; [|by rewrite length_fmap].
  apply mapM_ok. intros r Hr. rewrite Forall_forall in Hrem.
  destruct (lookup_lt_is_Some_2 row r) as [c Hc];
    [unfold row; rewrite length_fmap; auto|].
  by rewrite Hc.
Qed.

Lemma sim_best_loop (remaining xs : list nat) (best : option nat * F) :
  remaining ≠ [] →
  Forall (λ r, (r < length possible_words)%nat) remaining →
  Forall (λ r, r ∈ remaining) xs →
  match best.1 with
  | Some g => g ∈ remaining
  | None => best.2 = f_of_int (-1)
  end →
  ∃ best', for_each xs (Sim.best_body table remaining) best = Ok best'
           ∧ match best'.1 with
             | Some g => g ∈ remaining
             | None => xs = []
             end.
Proof.
  intros Hne Hrange Hxs. revert best.
  induction Hxs as [|x xs Hx Hxs IH]; intros best Hbest.
  - exists best. split; [done|]. by destruct best.1.
  - rewrite for_each_cons.
    assert (Hxr : (x < length possible_words)%nat)
      by (rewrite Forall_forall in Hrange; auto).
    destruct (lookup_lt_is_Some_2 _ _ Hxr) as [g Hg].
    destruct (table_take_ok x g remaining Hg Hrange) as (codes & Hcodes & Hlen).
    assert (Hcne : codes ≠ []) by (intros ->; by destruct remaining).
    pose proof (Hpos codes Hcne) as He.
    set (e := Sim.row_entropy codes (Z.of_nat (length codes))) in *.
    assert (Hbody : Sim.best_body table remaining x best
                    = Ok (if f_gtb e best.2 then (Some x, e) else best)).
    { unfold Sim.best_body. rewrite Hcodes. simpl. by rewrite <- Hlen. }
    rewrite Hbody. simpl.
    destruct (IH (if f_gtb e best.2 then (Some x, e) else best))
      as (best' & Hrun & Hbest').
    { destruct best as [[g0|] e0]; simpl in *.
      - destruct (f_gtb e e0); simpl; done.
      - subst e0. rewrite He. simpl. done. }
    exists best'. split; [done|].
    destruct best' as [[g'|] e']; simpl in *; [done|]. subst xs.
    simpl in Hrun. exfalso.
    destruct best as [[g0|] e0]; simpl in *.
    + destruct (f_gtb e e0); discriminate Hrun.
    + subst e0. rewrite He in Hrun. discriminate Hrun.
Qed.

Lemma sim_best_some (remaining : list nat) :
  remaining ≠ [] →
  Forall (λ r, (r < length possible_words)%nat) remaining →
  ∃ gi, Sim.best_entropy_guess table remaining = Ok (Some gi)
        ∧ gi ∈ remaining.
Proof.
  intros Hne Hrange. unfold Sim.best_entropy_guess.
  destruct (sim_best_loop remaining remaining (None, f_of_int (-1)))
    as (best' & -> & Hbest'); [done | done | | done |].
  - by apply Forall_forall.
  - simpl. destruct best' as [[gi|] e].
    + by exists gi.
    + simpl in Hbest'. done.
Qed.

Variables (fixed_first_guess_idx ai : nat) (first a : string).
Hypothesis Hfirst : possible_words !! fixed_first_guess_idx = Some first.
Hypothesis Hanswer : possible_words !! ai = Some a.

Lemma game_round_spec (st : Sim.game) :
  Sim.game_inv possible_words ai a st →
  ∃ st' b,
    Sim.game_round possible_words table fixed_first_guess_idx ai st
    = Ok (st', b)
    ∧ if b then Sim.game_done possible_words ai a st'
      else Sim.game_inv possible_words ai a st'
           ∧ Sim.guesses st' = Sim.guesses st + 1.
Proof.
  destruct st as [rem k fbs ws].
  intros (Hk & Hlw & Hlf & Hai & Hrange & gis & [Hgis Hrec] & Hne).
  simpl in *. unfold MAX_GUESSES in *.
  assert (Hgi : ∃ gi g,
    (if decide (k + 1 = 1) then Ok fixed_first_guess_idx
     else sel ← Sim.best_entropy_guess table rem;
          match sel with
          | Some gi => Ok gi
          | None => Raise TypeError
          end) = Ok gi
    ∧ possible_words !! gi = Some g).
  { destruct (decide (k + 1 = 1)).
    - by exists fixed_first_guess_idx, first.
    - destruct (sim_best_some rem) as (gi & -> & Hgi);
        [by intros ->; apply elem_of_nil in Hai | done |].
      rewrite Forall_forall in Hrange.
      destruct (lookup_lt_is_Some_2 _ _ (Hrange gi Hgi)) as [g Hg].
      by exists gi, g. }
  destruct Hgi as (gi & g & Hsel & Hg).
  unfold Sim.game_round. simpl. rewrite Hsel. simpl.
  assert (Hget : table_get table gi ai = Ok (cell g a))
    by by apply table_get_cell.
  rewrite Hget. simpl. unfold list_getitem at 1. rewrite Hg. simpl.
  unfold MAX_GUESSES.
  rewrite Forall_forall in Hwords.
  assert (Hwg : is_word g) by (eapply Hwords, list_elem_of_lookup_2; done).
  assert (Hwa : is_word a) by (eapply Hwords, list_elem_of_lookup_2; done).
  rewrite <- Forall_forall in Hwords.
  destruct (cell_code g a) as (fb & Hfb & _ & _ & Hdec);
    [unfold is_word in Hwg; lia | unfold is_word in Hwa; lia |].
  rewrite Hdec.
  assert (Hplayed : Sim.rounds_played possible_words a (gis ++ [gi])
                      (ws ++ [g]) (fbs ++ [fb])).
  { split; (apply Forall2_app; [done|]); by repeat constructor. }
  destruct (bool_decide (gi = ai) || bool_decide (k + 1 >= 6)) eqn:Hbreak.
  - do 2 eexists. split; [done|]. unfold Sim.game_done, MAX_GUESSES. simpl.
    split_and!; [lia | lia | | |].
    + rewrite length_app, Hlw. simpl. lia.
    + rewrite length_app, Hlf. simpl. lia.
    + exists gis, gi. split_and!; [done | done |].
      apply orb_true_iff in Hbreak as [Hb|Hb];
        apply bool_decide_eq_true in Hb; [by left | right; lia].
  - apply orb_false_iff in Hbreak as [Hgiai Hlt].
    apply bool_decide_eq_false in Hgiai, Hlt.
    assert (Hfilter : table_filter table gi (cell g a) rem
              = Ok (filter (λ r, (cell g <$> possible_words) !! r
                                 = Some (cell g a)) rem))
      by by apply table_filter_ok.
    rewrite Hfilter. simpl. do 2 eexists. split; [done|].
    unfold Sim.game_inv, MAX_GUESSES. simpl.
    split; [|done]. split_and!; [lia | lia | | | | |].
    + rewrite length_app, Hlw. simpl. lia.
    + rewrite length_app, Hlf. simpl. lia.
    + apply list_elem_of_filter. split; [|done].
      by rewrite list_lookup_fmap, Hanswer.
    + apply Forall_forall. intros r Hr.
      apply list_elem_of_filter in Hr as [_ Hr].
      rewrite Forall_forall in Hrange. auto.
    + exists (gis ++ [gi]). split; [done|].
      apply Forall_app. split; [done | by repeat constructor].
Qed.

Lemma game_loop_spec (fuel : nat) (st : Sim.game) :
  Sim.game_inv possible_words ai a st →
  MAX_GUESSES - Sim.guesses st ≤ Z.of_nat fuel →
  ∃ st', Sim.game_loop fuel possible_words table fixed_first_guess_idx ai st
         = Some (Ok st')
         ∧ Sim.game_done possible_words ai a st'.
Proof.
  revert st. induction fuel as [|fuel IH]; intros st Hinv Hfuel.
  - destruct Hinv as (Hk & _). lia.
  - destruct (game_round_spec st Hinv) as (st' & b & Hround & Hpost).
    simpl. rewrite Hround. destruct b.
    + by exists st'.
    + destruct Hpost as [Hinv' Hk']. apply IH; [done | lia].
Qed.

Lemma reachable_inv (st : Sim.game) :
  (ai < length possible_words)%nat →
  Sim.reachable possible_words table fixed_first_guess_idx ai st →
  Sim.game_inv possible_words ai a st.
Proof.
  intros Hai. induction 1 as [|st st' Hreach IH Hround].
  - unfold Sim.game_inv, Sim.game_init, MAX_GUESSES. simpl.
    split_and!; [lia | lia | done | done | | |].
    + apply elem_of_seq. lia.
    + apply Forall_forall. intros r Hr. apply elem_of_seq in Hr. lia.
    + exists []. split; [split; constructor | constructor].
  - destruct (game_round_spec st IH) as (st2 & b & Hround2 & Hpost).
    rewrite Hround in Hround2. injection Hround2 as <- <-. by destruct Hpost.
Qed.


End SimProperties.

Lemma np_sum_R_nonneg (xs : list R) :
  Forall (λ x, (0 <= x)%R) xs → (0 <= Sim.np_sum xs)%R.
Proof.
  unfold Sim.np_sum. simpl.
  assert (Hacc : ∀ acc, Forall (λ x, (0 <= x)%R) xs →
                        (acc <= foldl Rplus acc xs)%R).
  { induction xs as [|x xs IH]; intros acc Hxs; simpl; [lra|].
    apply Forall_cons in Hxs as [Hx Hxs].
    specialize (IH (acc + x)%R Hxs). lra. }
  apply Hacc.
Qed.

Lemma bincount_le (codes : list Z) (minlength : Z) :
  Forall (λ c, c ≤ Z.of_nat (length codes)) (bincount codes minlength).
Proof.
  unfold bincount. apply Forall_fmap, Forall_forall. intros v _. simpl.
  apply inj_le, length_filter.
Qed.

(** In exact arithmetic every entropy of the simulator is non-negative,
    hence above the initial [-1]. *)
Lemma sim_scores_R : Sim.scores_above_init (F := R).
Proof.
  intros codes Hne. simpl. apply R_gtb_true.
  assert (0 <= Sim.row_entropy (F := R) codes (Z.of_nat (length codes)))%R;
    [|lra].
  unfold Sim.row_entropy. apply np_sum_R_nonneg.
  rewrite <- list_fmap_compose. apply Forall_fmap, Forall_forall.
  intros c Hc. simpl. apply list_elem_of_filter in Hc as [Hpos Hc].
  pose proof (bincount_le codes N_feedback) as Hle.
  rewrite Forall_forall in Hle. specialize (Hle c Hc).
  apply (entropy_term_R (Z.of_nat (length codes)) c 0). lia.
Qed.

(** ** The game loop *)



(** ** An empty candidate list *)

(** C6. In the interactive solver [submit] shows one of four things or
    nothing, none of them a round-limit outcome; and a valid guess whose
    feedback is not all-Correct and leaves no candidate makes it show the
    error "No words left" (and stop auto-play). In the simulator the
    situation cannot arise: at the top of every round the candidate
    indices contain the answer's index, so a game that ends at the round
    limit never does so with an empty candidate set. *)
Theorem empty_candidates_surfaced {F : Type} `{PyFloat F} :
  (∀ (allowed_words : list string) (g : @Gui.gui F) (c : cache F),
     (Gui.submit allowed_words g c).2
     ∈ [[Gui.ShowError "Error" "Invalid guess"];
        [Gui.ShowInfo "Solved" "🎉 Solved!"];
        [Gui.ShowError "Error" "No words left"];
        [Gui.AfterAutoplay 300];
        []]) ∧
  (∀ (allowed_words : list string) (g : @Gui.gui F) (c : cache F),
     String.length (Gui.str_lower (Gui.entry g)) = 5%nat →
     Gui.str_lower (Gui.entry g) ∈ allowed_words →
     Gui.tiles g ≠ all_correct →
     filter_words (Gui.words g) (Gui.str_lower (Gui.entry g)) (Gui.tiles g)
     = Ok [] →
     Gui.submit allowed_words g c
     = (Ok (),
        {| Gui.words := []; Gui.auto := false; Gui.tiles := Gui.tiles g;
           Gui.entry := Gui.entry g; Gui.suggestion := Gui.suggestion g |},
        c, [Gui.ShowError "Error" "No words left"])) ∧
  (∀ (possible_words : list string) (table : list (list Z))
     (fixed_first_guess_idx ai : nat) (first : string) (st : Sim.game),
     Forall is_word possible_words →
     Sim.scores_above_init →
     build_feedback_table possible_words = Ok table →
     possible_words !! fixed_first_guess_idx = Some first →
     (ai < length possible_words)%nat →
     Sim.reachable possible_words table fixed_first_guess_idx ai st →
     ai ∈ Sim.remaining st ∧ Sim.remaining st ≠ []).
Proof.
  split_and!.
  - intros allowed_words g c. unfold Gui.submit. cbv zeta.
    destruct (_ || _); [set_solver|].
    destruct (decide _); [set_solver|].
    destruct (filter_words _ _ _) as [[|w words']|x];
      [set_solver | | set_solver].
    destruct (Gui.refresh _ _ _) as [[[u|x] g2] c'];
      [destruct (Gui.auto g2) | ]; set_solver.
  - intros allowed_words g c Hlen Hallowed Htiles Hfilter.
    unfold Gui.submit. cbv zeta. rewrite Hfilter.
    rewrite bool_decide_eq_true_2 by done.
    unfold py_in. rewrite bool_decide_eq_true_2 by done. simpl.
    by rewrite decide_False by done.
  - intros possible_words table first_idx ai first st Hwords Hpos
      Htable Hfirst Hai Hreach.
    rewrite build_feedback_table_ok in Htable by by apply is_word_long.
    injection Htable as <-.
    destruct (lookup_lt_is_Some_2 _ _ Hai) as [a Ha].
    destruct (reachable_inv possible_words Hwords Hpos first_idx ai first a
                Hfirst Ha st Hai Hreach)
      as (_ & _ & _ & Hin & _).
    split; [done|]. intros Hempty. rewrite Hempty in Hin.
    by apply elem_of_nil in Hin.
Qed.

Lemma empty_candidates_surfaced_witness :
  Gui.submit (F := R) ["abcde"; "edcba"]
    {| Gui.words := ["edcba"]; Gui.auto := true;
       Gui.tiles := [2; 2; 2; 2; 0]; Gui.entry := "ABCDE";
       Gui.suggestion := (None, 0%R) |} ∅
  = (Ok (),
     {| Gui.words := []; Gui.auto := false; Gui.tiles := [2; 2; 2; 2; 0];
        Gui.entry := "ABCDE"; Gui.suggestion := (None, 0%R) |},
     ∅, [Gui.ShowError "Error" "No words left"]) ∧
  (1%nat ∈ Sim.remaining (Sim.game_init ["raise"; "abcde"])
   ∧ Sim.remaining (Sim.game_init ["raise"; "abcde"]) ≠ []).
Proof.
  destruct (empty_candidates_surfaced (F := R)) as (_ & Hgui & Hsim). split.
  - apply (Hgui ["abcde"; "edcba"]
             {| Gui.words := ["edcba"]; Gui.auto := true;
                Gui.tiles := [2; 2; 2; 2; 0]; Gui.entry := "ABCDE";
                Gui.suggestion := (None, 0%R) |}).
    + reflexivity.
    + apply (bool_decide_unpack ("abcde" ∈ ["abcde"; "edcba"])). exact I.
    + discriminate.
    + reflexivity.
  - eapply (Hsim ["raise"; "abcde"] _ 0%nat 1%nat "raise").
    + repeat constructor.
    + apply sim_scores_R.
    + reflexivity.
    + reflexivity.
    + simpl. lia.
    + constructor.
Defined.

(** ** The selector of the simulator *)

Section SimSelection.
Context {F : Type} `{PyFloatOrder F}.
Variables (table : list (list Z)) (remaining : list nat).

Let step (b : option nat * F) (gi : nat) : option nat * F :=
  if f_gtb (Sim.guess_score table remaining gi) b.2
  then (Some gi, Sim.guess_score table remaining gi) else b.

(** Where every row can be read, the loop is a fold over the scores. *)
Lemma sim_best_fold (xs : list nat) (best : option nat * F) :
  (∀ g, g ∈ xs → ∃ codes, table_take table g remaining = Ok codes) →
  for_each xs (Sim.best_body table remaining) best = Ok (foldl step best xs).
Proof.
  revert best. induction xs as [|x xs IH]; intros best Hrows; [done|].
  rewrite for_each_cons.
  destruct (Hrows x) as [codes Hcodes]; [apply elem_of_cons; auto|].
  assert (Hbody : Sim.best_body table remaining x best = Ok (step best x)).
  { unfold Sim.best_body, step, Sim.guess_score. by rewrite Hcodes. }
  rewrite Hbody. simpl.
  apply IH. intros g Hg. apply Hrows, elem_of_cons. auto.
Qed.

(** A strictly higher score replaces the incumbent and nothing else does:
    the fold ends on the first index of maximal score. *)
Lemma sim_fold_first_maximum (l : list nat) :
  (∀ g, g ∈ l →
        f_gtb (Sim.guess_score table remaining g) (f_of_int (-1)) = true) →
  match l with
  | [] => foldl step (None, f_of_int (-1)) l = (None, f_of_int (-1))
  | _ :: _ =>
      ∃ l1 w l2, l = l1 ++ w :: l2 ∧
        foldl step (None, f_of_int (-1)) l
        = (Some w, Sim.guess_score table remaining w) ∧
        (∀ g, g ∈ l →
              f_gtb (Sim.guess_score table remaining g)
                    (Sim.guess_score table remaining w) = false) ∧
        (∀ g, g ∈ l1 →
              f_gtb (Sim.guess_score table remaining w)
                    (Sim.guess_score table remaining g) = true)
  end.
Proof.
  induction l as [|g l IH] using rev_ind; intros Hpos; [done|].
  assert (Hl : ∀ g', g' ∈ l →
             f_gtb (Sim.guess_score table remaining g') (f_of_int (-1)) = true)
    by (intros g' Hg'; apply Hpos, elem_of_app; auto).
  specialize (IH Hl).
  assert (Hg : f_gtb (Sim.guess_score table remaining g) (f_of_int (-1)) = true)
    by (apply Hpos, elem_of_app; right; apply elem_of_cons; auto).
  assert (Hgoal : ∃ l1 w l2, l ++ [g] = l1 ++ w :: l2 ∧
            foldl step (None, f_of_int (-1)) (l ++ [g])
            = (Some w, Sim.guess_score table remaining w) ∧
            (∀ g', g' ∈ l ++ [g] →
                   f_gtb (Sim.guess_score table remaining g')
                         (Sim.guess_score table remaining w) = false) ∧
            (∀ g', g' ∈ l1 →
                   f_gtb (Sim.guess_score table remaining w)
                         (Sim.guess_score table remaining g') = true));
    [|by destruct l].
  rewrite foldl_app. simpl. destruct l as [|g0 l0].
  - simpl. unfold step. simpl. rewrite Hg.
    exists [], g, []. split_and!; [done | done | |].
    + intros g' Hg'. apply elem_of_cons in Hg' as [->|Hg'];
        [apply gtb_irrefl | by apply elem_of_nil in Hg'].
    + intros g' Hg'. by apply elem_of_nil in Hg'.
  - destruct IH as (l1 & w & l2 & Hsplit & -> & Hmax & Hbefore).
    rewrite Hsplit in *. unfold step. simpl.
    destruct (f_gtb (Sim.guess_score table remaining g)
                (Sim.guess_score table remaining w)) eqn:Hgt.
    + exists (l1 ++ w :: l2), g, []. split_and!; [done | done | |].
      * intros g' Hg'. apply elem_of_app in Hg' as [Hg'|Hg'].
        -- eapply gtb_neg_trans; [by apply Hmax | by apply gtb_asym].
        -- apply elem_of_cons in Hg' as [->|Hg'];
             [apply gtb_irrefl | by apply elem_of_nil in Hg'].
      * intros g' Hg'.
        destruct (f_gtb (Sim.guess_score table remaining g)
                    (Sim.guess_score table remaining g')) eqn:Hgg'; [done|].
        pose proof (gtb_neg_trans _ _ _ Hgg' (Hmax g' Hg')) as Hcontra.
        congruence.
    + exists l1, w, (l2 ++ [g]).
      split_and!; [by rewrite <- app_assoc | done | | done].
      intros g' Hg'.
      apply elem_of_app in Hg' as [Hg'|Hg']; [by apply Hmax|].
      apply elem_of_cons in Hg' as [->|Hg'];
        [done | by apply elem_of_nil in Hg'].
Qed.

Lemma sim_selection_policy :
  remaining ≠ [] →
  (∀ g, g ∈ remaining →
        ∃ codes, table_take table g remaining = Ok codes
                 ∧ length codes = length remaining) →
  Sim.scores_above_init →
  ∃ l1 gi l2,
    Sim.best_entropy_guess table remaining = Ok (Some gi)
    ∧ Sim.first_maximum table remaining l1 gi l2.
Proof.
  intros Hne Hrows Hpos. unfold Sim.best_entropy_guess.
  rewrite sim_best_fold
    by (intros g Hg; destruct (Hrows g Hg) as (codes & ? & _); by exists codes).
  pose proof (sim_fold_first_maximum remaining) as Hfold.
  destruct remaining as [|r0 rem] eqn:Hrem; [done|]. rewrite <- Hrem in *.
  destruct Hfold as (l1 & gi & l2 & Hsplit & Hfold & Hmax & Hbefore).
  { intros g Hg. destruct (Hrows g Hg) as (codes & Hcodes & Hlen).
    unfold Sim.guess_score. rewrite Hcodes, <- Hlen. apply Hpos.
    intros ->. simpl in Hlen. by rewrite Hrem in Hlen. }
  exists l1, gi, l2. rewrite Hfold. done.
Qed.

End SimSelection.

(** C2, as the code has it. In [solver.py], after any session and on a
    non-empty allowed list whose scores are defined and above the initial
    [-1], [best_entropy_guess] returns a word of the list with its score
    such that: (1) no allowed word scores strictly higher; (2) if a
    candidate ties with the maximum, the word returned is a candidate;
    (3) among the tied candidates the one latest in the allowed order is
    returned, and when no candidate ties the earliest word of maximal score
    is. In [simulate_wordle.py], where the guesses are the candidates
    themselves, the earliest index of maximal score is returned. *)
Theorem best_entropy_guess_policy {F : Type} `{PyFloatOrder F} :
  (∀ (ops : list op) (allowed_words possible_answers : list string),
     allowed_words ≠ [] →
     (∀ g, g ∈ allowed_words →
           ∃ e, bucket_entropy g possible_answers = Ok e
                ∧ f_gtb e (f_of_int (-1)) = true) →
     ∃ l1 w l2 c',
       best_entropy_guess allowed_words possible_answers (run_session ops)
       = (Ok (Some w, score w possible_answers), c')
       ∧ selection_policy allowed_words possible_answers l1 w l2) ∧
  (∀ (possible_words : list string) (table : list (list Z))
     (remaining : list nat),
     Forall is_word possible_words →
     build_feedback_table possible_words = Ok table →
     remaining ≠ [] →
     Forall (λ r, (r < length possible_words)%nat) remaining →
     Sim.scores_above_init →
     ∃ l1 gi l2,
       Sim.best_entropy_guess table remaining = Ok (Some gi)
       ∧ Sim.first_maximum table remaining l1 gi l2).
Proof.
  split.
  - intros ops allowed_words possible_answers.
    apply solver_selection_policy.
  - intros possible_words table remaining Hwords Htable Hne Hrange Hpos.
    rewrite build_feedback_table_ok in Htable by by apply is_word_long.
    injection Htable as <-.
    apply sim_selection_policy; [done | | done].
    intros g Hg. rewrite Forall_forall in Hrange.
    destruct (lookup_lt_is_Some_2 _ _ (Hrange g Hg)) as [w Hw].
    rewrite <- Forall_forall in Hrange.
    by apply (table_take_ok possible_words g w remaining).
Qed.

Lemma best_entropy_guess_policy_witness :
  (∃ l1 w l2 (c' : cache R),
     best_entropy_guess ["abcde"; "edcba"; "aaaaa"] ["abcde"; "edcba"]
       (run_session [])
     = (Ok (Some w, score w ["abcde"; "edcba"]), c')
     ∧ selection_policy ["abcde"; "edcba"; "aaaaa"] ["abcde"; "edcba"]
         l1 w l2) ∧
  (∃ table l1 gi l2,
     build_feedback_table ["abcde"; "edcba"] = Ok table ∧
     Sim.best_entropy_guess (F := R) table [0; 1]%nat = Ok (Some gi)
     ∧ Sim.first_maximum table [0; 1]%nat l1 gi l2).
Proof.
  destruct (best_entropy_guess_policy (F := R)) as [Hsolver Hsim]. split.
  - apply (Hsolver [] ["abcde"; "edcba"; "aaaaa"] ["abcde"; "edcba"]).
    + discriminate.
    + apply R_score_above_init; repeat constructor.
  - exists [[242; 130]; [130; 242]].
    destruct (Hsim ["abcde"; "edcba"] [[242; 130]; [130; 242]] [0; 1]%nat)
      as (l1 & gi & l2 & Hsel);
      [repeat constructor | reflexivity | discriminate
      | repeat constructor | apply sim_scores_R |].
    exists l1, gi, l2. split; [reflexivity | exact Hsel].
Defined.

(** ** A list with a duplicate answer *)



(** * Further properties of the code *)

(** ** More on counting *)

Lemma count_upto_pos k (P : nat → Prop) `{!∀ i, Decision (P i)} :
  (0 < count_upto k P)%nat ↔ ∃ i, (i < k)%nat ∧ P i.
Proof.
  induction k as [|k IH].
  - split; [unfold count_upto; simpl; lia | intros (i & Hi & _); lia].
  - rewrite count_upto_S. destruct (decide (P k)) as [HP|HP].
    + split; [intros _; exists k; split; [lia | done] | lia].
    + split.
      * intros Hpos. destruct (proj1 IH) as (i & Hi & HPi); [lia|].
        exists i. split; [lia | done].
      * intros (i & Hi & HPi). destruct (decide (i = k)) as [->|]; [done|].
        assert (0 < count_upto k P)%nat; [|lia].
        apply IH. exists i. split; [lia | done].
Qed.

Lemma count_upto_split k (P Q : nat → Prop)
    `{!∀ i, Decision (P i)} `{!∀ i, Decision (Q i)} :
  count_upto k P
  = (count_upto k (λ i, P i ∧ Q i) + count_upto k (λ i, P i ∧ ¬ Q i))%nat.
Proof.
  induction k as [|k IH]; [done|].
  rewrite !count_upto_S, IH.
  destruct (decide (P k)) as [HP|HP], (decide (Q k)) as [HQ|HQ].
  - rewrite decide_True, decide_False by tauto. lia.
  - rewrite decide_False, decide_True by tauto. lia.
  - rewrite !decide_False by tauto. lia.
  - rewrite !decide_False by tauto. lia.
Qed.

Lemma count_in_lookup {A} `{EqDecision A} (z : A) (l : list A) :
  count_in z l = count_upto (length l) (λ i, l !! i = Some z).
Proof.
  induction l as [|a l IH] using rev_ind; [done|].
  rewrite length_app, Nat.add_1_r, count_upto_S. simpl.
  unfold count_in in *. rewrite filter_app, length_app, IH.
  f_equal.
  - apply count_upto_ext. intros i Hi. by rewrite lookup_app_l.
  - rewrite filter_cons, filter_nil.
    rewrite lookup_app_r, Nat.sub_diag by lia. simpl.
    destruct (decide (a = z)) as [->|Hne].
    + by rewrite decide_True.
    + by rewrite decide_False by congruence.
Qed.

Lemma count_letter_upto (c : ascii) (w : string) :
  is_word w → count_letter c w = count_upto 5 (λ i, String.get i w = Some c).
Proof.
  unfold is_word, count_letter. intros Hw. rewrite count_in_lookup.
  rewrite <- string_length_list, Hw. apply count_upto_ext.
  intros i _. by rewrite string_get_lookup.
Qed.

Lemma count_letter_pos (c : ascii) (w : string) :
  (0 < count_letter c w)%nat ↔ c ∈ list_ascii_of_string w.
Proof.
  unfold count_letter. split; [|apply count_in_pos].
  intros Hpos. destruct (decide (c ∈ list_ascii_of_string w)); [done|].
  rewrite count_in_zero in Hpos by done. lia.
Qed.

(** ** Feedback: symmetry and the all-Absent pattern *)

(** For 5-letter words the occurrences of a letter in the answer that no
    Correct mark uses are its unmatched occurrences in the answer. *)
Lemma unused_is_unmatched (c : ascii) (guess answer : string) (fb : list Z) :
  is_word answer →
  (∀ i, (i < 5)%nat →
        fb !! i = Some 2 ↔ String.get i guess = String.get i answer) →
  (count_letter c answer - count_marked 2 c guess fb)%nat
  = count_unmatched c answer guess.
Proof.
  intros Ha Hidx. rewrite (count_letter_upto c answer Ha).
  rewrite (count_upto_split 5 _
             (λ i, String.get i answer = String.get i guess)).
  assert (count_marked 2 c guess fb
          = count_upto 5 (λ i, String.get i answer = Some c
                               ∧ String.get i answer = String.get i guess))
    as ->.
  { apply count_upto_ext. intros i Hi. rewrite (Hidx i Hi).
    split; intros [H1 H2]; split; congruence. }
  unfold count_unmatched. lia.
Qed.

Lemma get_feedback_marks (guess answer : string) :
  is_word guess → is_word answer →
  ∃ fb, get_feedback guess answer = Ok fb ∧ valid_pattern fb ∧
    (∀ i, (i < 5)%nat →
          fb !! i = Some 2 ↔ String.get i guess = String.get i answer) ∧
    ∀ c, count_marked 2 c guess fb
         = count_upto 5 (λ i, String.get i guess = Some c
                              ∧ String.get i answer = Some c)
         ∧ count_marked 1 c guess fb
           = (count_unmatched c guess answer
              `min` count_unmatched c answer guess)%nat.
Proof.
  intros Hg Ha.
  destruct (get_feedback_spec guess answer) as (fb & Hfb & Hlen & Hidx0 & Hc);
    [unfold is_word in Hg; lia | unfold is_word in Ha; lia |].
  assert (Hidx : ∀ i, (i < 5)%nat →
            fb !! i = Some 2 ↔ String.get i guess = String.get i answer).
  { intros i Hi. destruct (Hidx0 i Hi) as (f & -> & _ & Hiff).
    rewrite <- Hiff. split; congruence. }
  exists fb. split_and!; [done | by eapply get_feedback_valid | done |].
  intros c. split.
  - apply count_upto_ext. intros i Hi. rewrite (Hidx i Hi).
    split; intros [H1 H2]; split; congruence.
  - rewrite (proj2 (Hc c)). by rewrite unused_is_unmatched.
Qed.

(** X1. Swapping the roles of two 5-letter words keeps the Correct marks
    at the same positions and, for every letter, the number of positions
    marked Present that hold it. *)
Theorem feedback_marks_symmetric (g a : string) :
  is_word g → is_word a →
  ∃ fb fb', get_feedback g a = Ok fb ∧ get_feedback a g = Ok fb' ∧
    (∀ i, (i < 5)%nat → fb !! i = Some 2 ↔ fb' !! i = Some 2) ∧
    ∀ c, count_marked 2 c g fb = count_marked 2 c a fb'
         ∧ count_marked 1 c g fb = count_marked 1 c a fb'.
Proof.
  intros Hg Ha.
  destruct (get_feedback_marks g a Hg Ha) as (fb & Hfb & _ & Hidx & Hc).
  destruct (get_feedback_marks a g Ha Hg) as (fb' & Hfb' & _ & Hidx' & Hc').
  exists fb, fb'. split_and!; [done | done | |].
  - intros i Hi. rewrite (Hidx i Hi), (Hidx' i Hi). split; congruence.
  - intros c. destruct (Hc c) as [-> ->]. destruct (Hc' c) as [-> ->].
    split; [|lia]. apply count_upto_ext. intros i _. tauto.
Qed.

Lemma feedback_marks_symmetric_witness :
  ∃ fb fb', get_feedback "aabbb" "ababa" = Ok fb
            ∧ get_feedback "ababa" "aabbb" = Ok fb' ∧
    (∀ i, (i < 5)%nat → fb !! i = Some 2 ↔ fb' !! i = Some 2) ∧
    ∀ c, count_marked 2 c "aabbb" fb = count_marked 2 c "ababa" fb'
         ∧ count_marked 1 c "aabbb" fb = count_marked 1 c "ababa" fb'.
Proof. apply (feedback_marks_symmetric "aabbb" "ababa"); reflexivity. Defined.

(** X2. Between two 5-letter words the feedback is all Absent exactly
    when the words share no letter. *)
Theorem all_absent_iff_disjoint (g a : string) :
  is_word g → is_word a →
  get_feedback g a = Ok [0; 0; 0; 0; 0]
  ↔ ∀ c, c ∈ list_ascii_of_string g → c ∉ list_ascii_of_string a.
Proof.
  intros Hg Ha.
  destruct (get_feedback_marks g a Hg Ha) as (fb & Hfb & Hvalid & Hidx & Hc).
  rewrite Hfb. split.
  - intros [= ->] c Hcg Hca.
    apply list_elem_of_lookup in Hcg as [i Hi].
    assert (Hi5 : (i < 5)%nat).
    { apply lookup_lt_Some in Hi. rewrite <- string_length_list in Hi.
      unfold is_word in Hg. lia. }
    rewrite <- string_get_lookup in Hi.
    destruct (Hc c) as [_ Hpresent].
    assert (Hzero : count_marked 1 c g [0; 0; 0; 0; 0] = 0%nat).
    { destruct (decide (0 < count_marked 1 c g [0%Z; 0%Z; 0%Z; 0%Z; 0%Z])%nat)
        as [Hpos|]; [|lia].
      apply count_upto_pos in Hpos as (j & Hj & _ & Hone).
      do 5 (destruct j as [|j]; [done|]). lia. }
    assert (Hung : (0 < count_unmatched c g a)%nat).
    { apply count_upto_pos. exists i. split_and!; [done | done |].
      intros Heq. apply (Hidx i Hi5) in Heq.
      do 5 (destruct i as [|i]; [done|]). lia. }
    assert (Huna : (0 < count_unmatched c a g)%nat).
    { apply count_letter_pos in Hca. rewrite (count_letter_upto c a Ha) in Hca.
      apply count_upto_pos in Hca as (j & Hj & Hcj).
      apply count_upto_pos. exists j. split_and!; [done | done |].
      intros Heq. symmetry in Heq. apply (Hidx j Hj) in Heq.
      do 5 (destruct j as [|j]; [done|]). lia. }
    lia.
  - intros Hdisj. f_equal. destruct Hvalid as [Hlen Hrange].
    apply list5_eq; [done|]. intros i Hi.
    destruct (lookup_lt_is_Some_2 fb i) as [f Hf]; [lia|]. rewrite Hf.
    f_equal.
    assert (Hgi : ∃ c, String.get i g = Some c).
    { rewrite string_get_lookup. apply lookup_lt_is_Some_2.
      rewrite <- string_length_list. unfold is_word in Hg. lia. }
    destruct Hgi as [c Hgc].
    assert (Hcg : c ∈ list_ascii_of_string g).
    { rewrite string_get_lookup in Hgc. by eapply list_elem_of_lookup_2. }
    assert (Hca : (count_letter c a = 0)%nat).
    { destruct (decide (0 < count_letter c a)%nat) as [Hpos|]; [|lia].
      apply count_letter_pos in Hpos. by destruct (Hdisj c). }
    rewrite Forall_forall in Hrange.
    assert (0 ≤ f ≤ 2) by (apply Hrange; by eapply list_elem_of_lookup_2).
    destruct (decide (f = 2)) as [->|Hf2].
    { apply (Hidx i Hi) in Hf. exfalso. apply (Hdisj c Hcg).
      rewrite Hgc in Hf. rewrite string_get_lookup in Hf.
      by eapply list_elem_of_lookup_2. }
    destruct (decide (f = 1)) as [->|Hf1]; [|lia]. exfalso.
    assert (Hpos : (0 < count_marked 1 c g fb)%nat)
      by (apply count_upto_pos; exists i; done).
    destruct (Hc c) as [_ Hpresent]. rewrite Hpresent in Hpos.
    assert (count_unmatched c a g ≤ count_letter c a)%nat; [|lia].
    rewrite (count_letter_upto c a Ha). apply count_upto_le. tauto.
Qed.

Lemma all_absent_iff_disjoint_witness :
  get_feedback "abcde" "fghij" = Ok [0; 0; 0; 0; 0]
  ↔ ∀ c, c ∈ list_ascii_of_string "abcde" → c ∉ list_ascii_of_string "fghij".
Proof. apply (all_absent_iff_disjoint "abcde" "fghij"); reflexivity. Defined.

(** ** Filtering: failure, order of the clues, repetition *)

(** [filter_words] scores the guess against every word of the list, so it
    returns the filtered list when all of them can be scored and raises at
    the first that cannot. *)
Lemma filter_words_cases (words : list string) (guess : string)
    (feedback : list Z) :
  (Forall (λ w, (5 ≤ String.length guess ∧ 5 ≤ String.length w)%nat) words
   ∧ filter_words words guess feedback
     = Ok (filter (λ w, get_feedback guess w = Ok feedback) words))
  ∨ (Exists (λ w, (String.length guess < 5 ∨ String.length w < 5)%nat) words
     ∧ filter_words words guess feedback = Raise IndexError).
Proof.
  induction words as [|w words IH]; [left; split; [constructor | done]|].
  simpl.
  destruct (decide (String.length guess < 5 ∨ String.length w < 5)%nat)
    as [Hshort|Hlong].
  - right. split; [by left|].
    by rewrite (get_feedback_short_raises guess w Hshort).
  - destruct (get_feedback_spec guess w) as (fb & Hfb & _); [lia | lia |].
    rewrite Hfb. simpl. destruct IH as [[Hall ->]|[Hex ->]].
    + left. split; [constructor; [lia | done]|]. simpl.
      rewrite filter_cons, Hfb.
      destruct (decide (fb = feedback)) as [->|Hne].
      * by rewrite decide_True.
      * by rewrite decide_False by congruence.
    + right. split; [by right | done].
Qed.

(** X3. [filter_words] raises exactly when the list holds a word and the
    guess or some word of the list has fewer than five characters, and the
    exception is an [IndexError]; on the empty list nothing is scored, so
    not even a malformed guess is noticed. *)
Theorem filter_words_raises_iff (words : list string) (guess : string)
    (feedback : list Z) :
  (∀ x, filter_words words guess feedback = Raise x → x = IndexError) ∧
  (filter_words words guess feedback = Raise IndexError
   ↔ ∃ w, w ∈ words ∧ (String.length guess < 5 ∨ String.length w < 5)%nat) ∧
  filter_words [] guess feedback = Ok [].
Proof.
  split_and!; [| |done].
  - intros x Hx.
    destruct (filter_words_cases words guess feedback) as [[_ Hok]|[_ Hr]];
      congruence.
  - destruct (filter_words_cases words guess feedback) as [[Hall Hok]|[Hex Hr]].
    + rewrite Hok. split; [done|]. intros (w & Hw & Hshort).
      rewrite Forall_forall in Hall. specialize (Hall w Hw). lia.
    + rewrite Hr. split; [|done]. intros _. by apply Exists_exists.
Qed.

(** X4. Two clues can be applied in either order: on 5-letter words both
    orders return the same list, which holds exactly the words consistent
    with both clues. *)
Theorem filter_words_order_irrelevant (words : list string)
    (g1 g2 : string) (f1 f2 : list Z) :
  is_word g1 → is_word g2 → Forall is_word words →
  ∃ k1 k2 k,
    filter_words words g1 f1 = Ok k1 ∧ filter_words words g2 f2 = Ok k2 ∧
    filter_words k1 g2 f2 = Ok k ∧ filter_words k2 g1 f1 = Ok k ∧
    ∀ w, w ∈ k ↔ w ∈ words ∧ get_feedback g1 w = Ok f1
                  ∧ get_feedback g2 w = Ok f2.
Proof.
  unfold is_word. intros Hg1 Hg2 Hwords. apply is_word_long in Hwords.
  assert (Hsub : ∀ (P : string → Prop) `{!∀ w, Decision (P w)},
            Forall (λ w, (5 ≤ String.length w)%nat) (filter P words)).
  { intros P ?. rewrite Forall_forall in Hwords. apply Forall_forall.
    intros w Hw. apply list_elem_of_filter in Hw as [_ Hw]. auto. }
  do 3 eexists. split_and!.
  - apply filter_words_ok; [lia | done].
  - apply filter_words_ok; [lia | done].
  - rewrite filter_words_ok; [|lia|apply Hsub]. by rewrite list_filter_filter.
  - rewrite filter_words_ok; [|lia|apply Hsub]. rewrite list_filter_filter.
    f_equal. apply list_filter_iff. tauto.
  - intros w. rewrite list_elem_of_filter. tauto.
Qed.

Lemma filter_words_order_irrelevant_witness :
  ∃ k1 k2 k,
    filter_words ["abcde"; "edcba"; "eabcd"; "abced"] "abcde" [2; 2; 2; 1; 1]
    = Ok k1 ∧
    filter_words ["abcde"; "edcba"; "eabcd"; "abced"] "edcba" [1; 1; 2; 1; 1]
    = Ok k2 ∧
    filter_words k1 "edcba" [1; 1; 2; 1; 1] = Ok k ∧
    filter_words k2 "abcde" [2; 2; 2; 1; 1] = Ok k ∧
    ∀ w, w ∈ k ↔ w ∈ ["abcde"; "edcba"; "eabcd"; "abced"]
                  ∧ get_feedback "abcde" w = Ok [2; 2; 2; 1; 1]
                  ∧ get_feedback "edcba" w = Ok [1; 1; 2; 1; 1].
Proof.
  apply (filter_words_order_irrelevant
           ["abcde"; "edcba"; "eabcd"; "abced"] "abcde" "edcba");
    [reflexivity | reflexivity | repeat constructor].
Defined.

(** X5. Applying the same clue a second time changes nothing: the list
    [filter_words] returns is a fixed point of the same filter. *)
Theorem filter_words_idempotent (words : list string) (guess : string)
    (feedback : list Z) (kept : list string) :
  filter_words words guess feedback = Ok kept →
  filter_words kept guess feedback = Ok kept.
Proof.
  intros Hkept.
  destruct (filter_words_cases words guess feedback) as [[Hall Hok]|[_ Hr]];
    [|congruence].
  rewrite Hok in Hkept. injection Hkept as <-.
  destruct (filter_words_cases
              (filter (λ w, get_feedback guess w = Ok feedback) words)
              guess feedback) as [[_ ->]|[Hex _]].
  - f_equal. rewrite list_filter_filter. apply list_filter_iff. tauto.
  - apply Exists_exists in Hex as (w & Hw & Hshort).
    apply list_elem_of_filter in Hw as [_ Hw].
    rewrite Forall_forall in Hall. specialize (Hall w Hw). lia.
Qed.

Lemma filter_words_idempotent_witness :
  filter_words ["eabcd"] "abcde" [1; 1; 1; 1; 1] = Ok ["eabcd"].
Proof.
  apply (filter_words_idempotent ["abcde"; "edcba"; "eabcd"] "abcde").
  reflexivity.
Defined.

(** ** The feedback table as a whole *)

Lemma mapM_cases {A B} (f : A → result B) (l : list A) (e : exn) :
  (∀ x, x ∈ l → (∃ y, f x = Ok y) ∨ f x = Raise e) →
  (∃ ys, mapM f l = Ok ys ∧ Forall2 (λ x y, f x = Ok y) l ys)
  ∨ (mapM f l = Raise e ∧ ∃ x, x ∈ l ∧ f x = Raise e).
Proof.
  induction l as [|x l IH]; intros Hf.
  - left. exists []. split; [done | constructor].
  - simpl. destruct (Hf x) as [[y Hy]|Hx]; [apply elem_of_cons; auto | |].
    + rewrite Hy. simpl.
      destruct IH as [(ys & -> & Hys)|(-> & x' & Hx' & Hr)].
      * intros x' Hx'. apply Hf, elem_of_cons. auto.
      * left. exists (y :: ys). split; [done | by constructor].
      * right. split; [done|]. exists x'. split; [|done].
        apply elem_of_cons. auto.
    + rewrite Hx. right. split; [done|]. exists x. split; [|done].
      apply elem_of_cons. auto.
Qed.

Lemma table_row_cases (possible_words : list string) (g : string) :
  ((5 ≤ String.length g)%nat ∨ possible_words = []) ∧
  Forall (λ w, (5 ≤ String.length w)%nat) possible_words ∧
  table_row possible_words g = Ok (cell g <$> possible_words)
  ∨ possible_words ≠ [] ∧
    ((String.length g < 5)%nat
     ∨ Exists (λ w, (String.length w < 5)%nat) possible_words) ∧
    table_row possible_words g = Raise IndexError.
Proof.
  unfold table_row.
  destruct (mapM_cases
              (λ a, fb ← get_feedback g a; Ok (to_uint8 (feedback_to_int fb)))
              possible_words IndexError) as [(ys & Hys & Hall)|(Hr & a & Ha & Hga)].
  - intros a _.
    destruct (decide (String.length g < 5 ∨ String.length a < 5)%nat)
      as [Hshort|Hlong].
    + right. by rewrite (get_feedback_short_raises g a Hshort).
    + destruct (get_feedback_spec g a) as (fb & -> & _); [lia | lia |].
      left. by eexists.
  - left.
    assert (Hlong : Forall (λ a, (5 ≤ String.length g ∧ 5 ≤ String.length a)%nat)
                      possible_words).
    { apply Forall_forall. intros a Ha.
      apply list_elem_of_lookup in Ha as [i Hi].
      destruct (Forall2_lookup_l _ _ _ _ _ Hall Hi) as (y & _ & Hy).
      destruct (decide (String.length g < 5 ∨ String.length a < 5)%nat)
        as [Hshort|Hlong]; [|lia].
      by rewrite (get_feedback_short_raises g a Hshort) in Hy. }
    split_and!.
    + destruct possible_words as [|a l]; [by right|].
      apply Forall_cons in Hlong as [[? _] _]. by left.
    + eapply Forall_impl; [exact Hlong|]. intros a [_ ?]. done.
    + apply mapM_ok. intros a Ha. unfold cell.
      rewrite Forall_forall in Hlong. destruct (Hlong a Ha) as [? ?].
      destruct (get_feedback_spec g a) as (fb & -> & _); done.
  - right. split_and!; [by intros ->; apply elem_of_nil in Ha | | done].
    destruct (decide (String.length g < 5)%nat) as [|Hg]; [by left|].
    right. apply Exists_exists. exists a. split; [done|].
    destruct (decide (String.length a < 5)%nat) as [|Hlong]; [done|].
    destruct (get_feedback_spec g a) as (fb & Hfb & _); [lia | lia |].
    by rewrite Hfb in Hga.
Qed.

(** X6. When every word has at least five characters the table is built:
    it is square, one row and one column per word, and the cell of a guess
    and an answer is a code below [3^5] that decodes to the feedback of the
    guess against the answer. *)
Theorem feedback_table_faithful (possible_words : list string) :
  Forall (λ w, (5 ≤ String.length w)%nat) possible_words →
  ∃ table,
    build_feedback_table possible_words = Ok table ∧
    length table = length possible_words ∧
    Forall (λ row, length row = length possible_words) table ∧
    ∀ gi ai g a,
      possible_words !! gi = Some g → possible_words !! ai = Some a →
      ∃ c, table_get table gi ai = Ok c ∧ 0 ≤ c < N_feedback
           ∧ get_feedback g a = Ok (fb_list c).
Proof.
  intros Hwords. eexists. split_and!.
  - by apply build_feedback_table_ok.
  - by rewrite length_fmap.
  - apply Forall_fmap, Forall_forall. intros g _. simpl.
    by rewrite length_fmap.
  - intros gi ai g a Hg Ha. exists (cell g a).
    rewrite Forall_forall in Hwords.
    destruct (cell_code g a) as (fb & Hfb & [Hlen Hrange] & Hcode & Hdec);
      [eapply Hwords, list_elem_of_lookup_2; done
      |eapply Hwords, list_elem_of_lookup_2; done|].
    split_and!; [by apply table_get_cell | | | by rewrite Hdec];
      rewrite Hcode; by apply feedback_to_int_range.
Qed.

Lemma feedback_table_faithful_witness :
  ∃ table,
    build_feedback_table ["raise"; "arise"; "abcdefg"] = Ok table ∧
    length table = 3%nat ∧
    Forall (λ row, length row = 3%nat) table ∧
    ∀ gi ai g a,
      ["raise"; "arise"; "abcdefg"] !! gi = Some g →
      ["raise"; "arise"; "abcdefg"] !! ai = Some a →
      ∃ c, table_get table gi ai = Ok c ∧ 0 ≤ c < N_feedback
           ∧ get_feedback g a = Ok (fb_list c).
Proof.
  apply (feedback_table_faithful ["raise"; "arise"; "abcdefg"]).
  repeat constructor.
Defined.

(** X7. Building the table fails exactly when some word has fewer than
    five characters, and then with an [IndexError]. *)
Theorem build_feedback_table_raises_iff (possible_words : list string) :
  (∀ x, build_feedback_table possible_words = Raise x → x = IndexError) ∧
  (build_feedback_table possible_words = Raise IndexError
   ↔ ∃ w, w ∈ possible_words ∧ (String.length w < 5)%nat).
Proof.
  destruct (decide (Forall (λ w, (5 ≤ String.length w)%nat) possible_words))
    as [Hlong|Hshort].
  - rewrite (build_feedback_table_ok possible_words Hlong).
    split; [done|]. split; [done|]. intros (w & Hw & Hlt).
    rewrite Forall_forall in Hlong. specialize (Hlong w Hw). lia.
  - apply not_Forall_Exists in Hshort; [|apply _].
    assert (Hex : Exists (λ w, (String.length w < 5)%nat) possible_words).
    { eapply Exists_impl; [exact Hshort|]. intros w Hw. simpl in *. lia. }
    assert (Hraise : build_feedback_table possible_words = Raise IndexError).
    { unfold build_feedback_table.
      destruct (mapM_cases (table_row possible_words) possible_words IndexError)
        as [(ys & _ & Hall)|[Hr _]]; [| |done].
      - intros g _.
        destruct (table_row_cases possible_words g) as [(_ & _ & Hok)|(_ & _ & Hr)];
          [left; by eexists | by right].
      - exfalso. apply Exists_exists in Hex as (w & Hw & Hlt).
        destruct possible_words as [|g l]; [by apply elem_of_nil in Hw|].
        apply Forall2_cons_inv_l in Hall as (y & ys' & Hy & _ & _).
        destruct (table_row_cases (g :: l) g) as [(_ & Hlong & _)|(_ & _ & Hr)];
          [|congruence].
        rewrite Forall_forall in Hlong. specialize (Hlong w Hw). lia. }
    rewrite Hraise. split; [congruence|]. split; [|done].
    intros _. by apply Exists_exists.
Qed.

(** ** The buckets of [entropy_for_guess] *)

Lemma bucket_incr_keys (k : list Z) (b : list (list Z * Z)) :
  NoDup (b.*1) →
  NoDup ((bucket_incr k b).*1) ∧
  ∀ k' c', (k', c') ∈ bucket_incr k b ↔
    (k' ≠ k ∧ (k', c') ∈ b)
    ∨ (k' = k ∧ ((∃ c, (k, c) ∈ b ∧ c' = c + 1) ∨ ((k ∉ b.*1) ∧ c' = 1))).
Proof.
  induction b as [|[k0 c0] b IH]; intros Hnd; simpl.
  - split; [apply NoDup_singleton|]. intros k' c'.
    rewrite list_elem_of_singleton. split.
    + intros [= -> ->]. right. split; [done|]. right.
      split; [apply not_elem_of_nil | done].
    + intros [[_ Hin]|[-> [(c & Hin & _)|[_ ->]]]];
        [by apply elem_of_nil in Hin | by apply elem_of_nil in Hin | done].
  - apply NoDup_cons in Hnd as [Hk0 Hnd]. specialize (IH Hnd).
    destruct IH as [IHnd IHin].
    assert (Hfresh : ∀ c, (k0, c) ∉ b).
    { intros c Hin. apply Hk0. apply list_elem_of_fmap. by exists (k0, c). }
    destruct (decide (k0 = k)) as [->|Hne]; simpl.
    + split; [by apply NoDup_cons|]. intros k' c'.
      rewrite !elem_of_cons. 
      assert (Hnot : ¬ (k ∉ (k :: b.*1))) by (intros Hn; apply Hn; by left).
      split.
      * intros [?|?]; simplify_eq.
        -- right. split; [done|]. left. exists c0. split; [by left | done].
        -- left. split; [|by right]. intros ->. by apply (Hfresh c').
      * intros [[? [?|?]]|[? [(c & Hin & ?)|[? ?]]]]; simplify_eq;
          try (by right); try done.
        -- apply elem_of_cons in Hin as [?|?]; simplify_eq;
             [by left | by destruct (Hfresh c)].
        -- match goal with Hn : ¬ (_ ∨ _) |- _ => destruct Hn; by left end.
    + split.
      * apply NoDup_cons. split; [|done].
        intros Hin. apply list_elem_of_fmap in Hin as ([k1 c1] & Heq & Hin).
        simpl in Heq. subst k1. apply IHin in Hin as [[_ Hin]|[Heq _]].
        -- by apply (Hfresh c1).
        -- done.
      * intros k' c'.
        assert (Hk : k ∉ k0 :: b.*1 ↔ k ∉ b.*1).
        { rewrite elem_of_cons. split; [tauto|]. intros ? [?|?]; congruence. }
        rewrite Hk, !elem_of_cons, IHin. split.
        -- intros [?|[[? ?]|[? [(c & ? & ?)|[? ?]]]]]; simplify_eq.
           ++ left. split; [done | by left].
           ++ left. split; [done | by right].
           ++ right. split; [done|]. left. exists c. split; [by right | done].
           ++ right. split; [done|]. by right.
        -- intros [[? [?|?]]|[? [(c & Hin & ?)|[? ?]]]]; simplify_eq.
           ++ by left.
           ++ right. by left.
           ++ apply elem_of_cons in Hin as [?|?]; simplify_eq.
              right. right. split; [done|]. left. by exists c.
           ++ right. right. split; [done|]. by right.
Qed.

(** X8. The buckets built for a guess partition the candidate list by
    feedback: the patterns stored are pairwise distinct, the count stored
    with a pattern is the number of candidates that give it (at least
    one), every candidate's feedback is stored, and the counts add up to
    the number of candidates. *)
Theorem fill_buckets_partition (guess : string)
    (possible_answers : list string) (buckets : list (list Z * Z)) :
  fill_buckets guess possible_answers = Ok buckets →
  NoDup buckets.*1 ∧
  (∀ k c, (k, c) ∈ buckets →
          1 ≤ c ∧ c = Z.of_nat (length (filter
                        (λ a, get_feedback guess a = Ok k) possible_answers))) ∧
  (∀ a, a ∈ possible_answers →
        ∃ k c, get_feedback guess a = Ok k ∧ (k, c) ∈ buckets) ∧
  foldr (λ kc acc, kc.2 + acc) 0 buckets = Z.of_nat (length possible_answers).
Proof.
  unfold fill_buckets.
  set (body := λ (answer : string) (b : list (list Z * Z)),
                 fb ← get_feedback guess answer; Ok (bucket_incr fb b)).
  set (inv := λ (l : list string) (b : list (list Z * Z)),
    NoDup b.*1 ∧
    (∀ k c, (k, c) ∈ b →
            1 ≤ c ∧ c = Z.of_nat (length (filter
                          (λ a, get_feedback guess a = Ok k) l))) ∧
    (∀ a, a ∈ l → ∃ k c, get_feedback guess a = Ok k ∧ (k, c) ∈ b) ∧
    foldr (λ kc acc, kc.2 + acc) 0 b = Z.of_nat (length l)).
  assert (Hloop : ∀ l seen b0 b,
            inv seen b0 → for_each l body b0 = Ok b → inv (seen ++ l) b).
  { induction l as [|a l IH]; intros seen b0 b Hinv Hrun.
    - simpl in Hrun. injection Hrun as <-. by rewrite app_nil_r.
    - rewrite for_each_cons in Hrun. unfold body in Hrun.
      destruct (get_feedback guess a) as [fb|x] eqn:Hfb; [|done].
      simpl in Hrun. rewrite cons_middle, app_assoc.
      refine (IH _ _ _ _ Hrun). clear IH Hrun. unfold inv.
      destruct Hinv as (Hnd & Hcount & Hall & Hsum).
      destruct (bucket_incr_keys fb b0 Hnd) as [Hnd' Hin'].
      assert (Hpos : Forall (λ kc : list Z * Z, 1 ≤ kc.2) b0).
      { apply Forall_forall. intros [k c] Hkc. simpl.
        by destruct (Hcount k c Hkc). }
      destruct (bucket_incr_counts fb b0 Hpos) as [_ Hsum'].
      split_and!.
      + done.
      + intros k c Hkc. rewrite filter_app, length_app, filter_cons, filter_nil.
        apply Hin' in Hkc as [[Hne Hkc]|[-> Hk]].
        * rewrite decide_False by congruence. simpl.
          destruct (Hcount k c Hkc) as [? ->]. lia.
        * rewrite decide_True by done. simpl.
          destruct Hk as [(c0 & Hkc & ->)|[Hnot ->]].
          -- destruct (Hcount fb c0 Hkc) as [? ->]. lia.
          -- split; [lia|].
             assert (Hnone : filter (λ a0, get_feedback guess a0 = Ok fb) seen
                             = []); [|rewrite Hnone; simpl; lia].
             destruct (filter _ seen) as [|a0 l0] eqn:Hfil; [done|]. exfalso.
             assert (Ha0 : a0 ∈ filter (λ a0, get_feedback guess a0 = Ok fb) seen)
               by (rewrite Hfil; by left).
             apply list_elem_of_filter in Ha0 as [Hfb0 Ha0].
             destruct (Hall a0 Ha0) as (k & c & Hk & Hkc).
             assert (k = fb) as -> by congruence.
             apply Hnot, list_elem_of_fmap. by exists (fb, c).
      + intros a0 Ha0. apply elem_of_app in Ha0 as [Ha0|Ha0].
        * destruct (Hall a0 Ha0) as (k & c & Hk & Hkc).
          destruct (decide (k = fb)) as [->|Hne].
          -- exists fb, (c + 1). split; [done|]. apply Hin'. right.
             split; [done|]. left. by exists c.
          -- exists k, c. split; [done|]. apply Hin'. by left.
        * apply list_elem_of_singleton in Ha0 as ->.
          destruct (decide (fb ∈ b0.*1)) as [Hin|Hnot].
          -- apply list_elem_of_fmap in Hin as ([k c] & Heq & Hkc).
             simpl in Heq. subst k.
             exists fb, (c + 1). split; [done|]. apply Hin'. right.
             split; [done|]. left. by exists c.
          -- exists fb, 1. split; [done|]. apply Hin'. right.
             split; [done|]. by right.
      + rewrite Hsum', Hsum, length_app. simpl. lia. }
  intros Hrun. apply (Hloop possible_answers [] [] buckets); [|done].
  unfold inv. simpl. split_and!; [constructor | | | done].
  - intros k c Hkc. by apply elem_of_nil in Hkc.
  - intros a Ha. by apply elem_of_nil in Ha.
Qed.

Lemma fill_buckets_partition_witness :
  NoDup [([2; 2; 2; 2; 2], 1); ([1; 1; 2; 1; 1], 2)].*1 ∧
  (∀ k c, (k, c) ∈ [([2; 2; 2; 2; 2], 1); ([1; 1; 2; 1; 1], 2)] →
          1 ≤ c ∧ c = Z.of_nat (length (filter
                        (λ a, get_feedback "abcde" a = Ok k)
                        ["abcde"; "edcba"; "edcba"]))) ∧
  (∀ a, a ∈ ["abcde"; "edcba"; "edcba"] →
        ∃ k c, get_feedback "abcde" a = Ok k
               ∧ (k, c) ∈ [([2; 2; 2; 2; 2], 1); ([1; 1; 2; 1; 1], 2)]) ∧
  foldr (λ kc acc, kc.2 + acc) 0 [([2; 2; 2; 2; 2], 1); ([1; 1; 2; 1; 1], 2)]
  = Z.of_nat (length ["abcde"; "edcba"; "edcba"]).
Proof.
  apply (fill_buckets_partition "abcde" ["abcde"; "edcba"; "edcba"]).
  reflexivity.
Defined.

(** ** The entropy cache: growth and repeated calls *)

Section CacheGrowth.
Context {F : Type} `{PyFloat F}.

Lemma entropy_for_guess_step (guess : string) (possible_answers : list string)
    (c : cache F) :
  c ⊆ (entropy_for_guess guess possible_answers c).2 ∧
  (∀ k, k ≠ (guess, possible_answers) →
        (entropy_for_guess guess possible_answers c).2 !! k = c !! k) ∧
  (∀ e, (entropy_for_guess guess possible_answers c).1 = Ok e →
        (entropy_for_guess guess possible_answers c).2
          !! (guess, possible_answers) = Some e) ∧
  (∀ x, (entropy_for_guess guess possible_answers c).1 = Raise x →
        (entropy_for_guess guess possible_answers c).2 = c).
Proof.
  unfold entropy_for_guess.
  destruct (c !! (guess, possible_answers)) as [e|] eqn:Hlook; simpl.
  - split_and!; [done | done | congruence | done].
  - destruct (bucket_entropy guess possible_answers) as [e|x]; simpl.
    + split_and!.
      * by apply insert_subseteq.
      * intros k Hk. by rewrite lookup_insert_ne.
      * intros e' [= <-]. by rewrite lookup_insert_eq.
      * done.
    + split_and!; done.
Qed.

Lemma best_entropy_loop_grows (allowed_words possible_answers : list string)
    (best : option string * F) (c : cache F) :
  c ⊆ (best_entropy_loop allowed_words possible_answers best c).2 ∧
  (∀ k, is_Some ((best_entropy_loop allowed_words possible_answers best c).2
                   !! k) →
        is_Some (c !! k)
        ∨ ∃ g, g ∈ allowed_words ∧ k = (g, possible_answers)) ∧
  (∀ b, (best_entropy_loop allowed_words possible_answers best c).1 = Ok b →
        ∀ g, g ∈ allowed_words →
             is_Some ((best_entropy_loop allowed_words possible_answers best c).2
                        !! (g, possible_answers))).
Proof.
  revert best c. induction allowed_words as [|guess allowed IH];
    intros best c; simpl.
  - split_and!; [done | by left |]. intros b _ g Hg.
    by apply elem_of_nil in Hg.
  - destruct (entropy_for_guess_step guess possible_answers c)
      as (Hsub & Hother & Hstored & Hraise).
    destruct (entropy_for_guess guess possible_answers c) as [[e|x] c1];
      simpl in *.
    + destruct (IH (best_update possible_answers guess e best) c1)
        as (Hsub' & Hkeys' & Hall').
      split_and!.
      * by etrans.
      * intros k Hk. destruct (Hkeys' k Hk) as [Hc1|(g & Hg & ->)].
        -- destruct (decide (k = (guess, possible_answers))) as [->|Hne].
           ++ right. exists guess. split; [by left | done].
           ++ left. by rewrite <- Hother.
        -- right. exists g. split; [by right | done].
      * intros b Hb g Hg. apply elem_of_cons in Hg as [->|Hg].
        -- exists e. eapply lookup_weaken; [by apply Hstored | done].
        -- by apply (Hall' b).
    + rewrite (Hraise x eq_refl). split_and!; [done | by left | done].
Qed.

(** A run that succeeded is replayed from any larger cache with the same
    result, and the replay stores nothing. *)
Lemma best_entropy_loop_replay (allowed_words possible_answers : list string)
    (best b : option string * F) (c c' c'' : cache F) :
  best_entropy_loop allowed_words possible_answers best c = (Ok b, c') →
  c' ⊆ c'' →
  best_entropy_loop allowed_words possible_answers best c'' = (Ok b, c'').
Proof.
  revert best c. induction allowed_words as [|guess allowed IH];
    intros best c Hrun Hsub; simpl in *.
  - by injection Hrun as <- _.
  - destruct (entropy_for_guess_step guess possible_answers c)
      as (_ & _ & Hstored & _).
    destruct (entropy_for_guess guess possible_answers c) as [[e|x] c1] eqn:He;
      simpl in *; [|done].
    pose proof (best_entropy_loop_grows allowed possible_answers
                  (best_update possible_answers guess e best) c1) as [Hc1 _].
    rewrite Hrun in Hc1. simpl in Hc1.
    assert (Hhit : c'' !! (guess, possible_answers) = Some e).
    { eapply lookup_weaken; [|exact Hsub].
      eapply lookup_weaken; [by apply Hstored | done]. }
    unfold entropy_for_guess at 1. rewrite Hhit. by eapply IH.
Qed.

End CacheGrowth.

(** X9. [entropy_for_guess] memoises: a call never removes or overwrites
    an entry of the cache and touches no key but its own; a call that
    returns a value leaves that value stored under its key, so that the
    same call made again returns the same value and leaves the cache as it
    is; a call that raises stores nothing. *)
Theorem entropy_for_guess_memo {F : Type} `{PyFloat F} (guess : string)
    (possible_answers : list string) (c c' : cache F) (r : result F) :
  entropy_for_guess guess possible_answers c = (r, c') →
  c ⊆ c' ∧
  (∀ k, k ≠ (guess, possible_answers) → c' !! k = c !! k) ∧
  (∀ e, r = Ok e →
        c' !! (guess, possible_answers) = Some e
        ∧ entropy_for_guess guess possible_answers c' = (Ok e, c')) ∧
  (∀ x, r = Raise x → c' = c).
Proof.
  intros Hcall.
  destruct (entropy_for_guess_step guess possible_answers c)
    as (Hsub & Hother & Hstored & Hraise).
  rewrite Hcall in *. simpl in *.
  split_and!; [done | done | | done].
  intros e He. split; [by apply Hstored|].
  unfold entropy_for_guess. by rewrite (Hstored e He).
Qed.

Lemma entropy_for_guess_memo_witness :
  (∅ : cache R) ⊆ <[("abcde", ["abcde"; "edcba"]) := 1%R]> ∅ ∧
  (∀ k, k ≠ ("abcde", ["abcde"; "edcba"]) →
        (<[("abcde", ["abcde"; "edcba"]) := 1%R]> ∅ : cache R) !! k
        = (∅ : cache R) !! k) ∧
  (∀ e, Ok 1%R = Ok e →
        (<[("abcde", ["abcde"; "edcba"]) := 1%R]> ∅ : cache R)
          !! ("abcde", ["abcde"; "edcba"]) = Some e
        ∧ entropy_for_guess "abcde" ["abcde"; "edcba"]
            (<[("abcde", ["abcde"; "edcba"]) := 1%R]> ∅)
          = (Ok e, <[("abcde", ["abcde"; "edcba"]) := 1%R]> ∅)) ∧
  (∀ x, Ok 1%R = Raise x →
        (<[("abcde", ["abcde"; "edcba"]) := 1%R]> ∅ : cache R) = ∅).
Proof.
  apply (entropy_for_guess_memo (F := R) "abcde" ["abcde"; "edcba"] ∅).
  unfold entropy_for_guess. rewrite lookup_empty.
  by rewrite (proj1 entropy_one_bit).
Defined.

(** One allowed word and two candidates, in exact arithmetic. *)
Lemma R_best_single :
  best_entropy_guess (F := R) ["abcde"] ["abcde"; "edcba"] ∅
  = (Ok (Some "abcde", 1%R), <[("abcde", ["abcde"; "edcba"]) := 1%R]> ∅).
Proof.
  unfold best_entropy_guess. simpl best_entropy_loop.
  unfold entropy_for_guess. rewrite lookup_empty.
  rewrite (proj1 entropy_one_bit). unfold best_update. simpl snd.
  simpl f_of_int.
  replace (f_gtb 1%R (IZR (-1))) with true
    by (symmetry; apply R_gtb_true; lra).
  reflexivity.
Qed.

(** X10. A call of [best_entropy_guess] that returns leaves the score of
    every allowed word cached for the candidate list, stores nothing under
    any other key and overwrites nothing; the same call made again returns
    the same pair and leaves the cache as it is. *)
Theorem best_entropy_guess_repeat {F : Type} `{PyFloat F}
    (allowed_words possible_answers : list string) (c c' : cache F)
    (best : option string * F) :
  best_entropy_guess allowed_words possible_answers c = (Ok best, c') →
  c ⊆ c' ∧
  (∀ g, g ∈ allowed_words → is_Some (c' !! (g, possible_answers))) ∧
  (∀ k, is_Some (c' !! k) →
        is_Some (c !! k) ∨ ∃ g, g ∈ allowed_words ∧ k = (g, possible_answers)) ∧
  best_entropy_guess allowed_words possible_answers c' = (Ok best, c').
Proof.
  unfold best_entropy_guess. intros Hrun.
  destruct (best_entropy_loop_grows allowed_words possible_answers
              (None, f_of_int (-1)) c) as (Hsub & Hkeys & Hall).
  rewrite Hrun in *. simpl in *. split_and!; [done | | done |].
  - by apply (Hall best).
  - by eapply best_entropy_loop_replay.
Qed.

Lemma best_entropy_guess_repeat_witness :
  (∅ : cache R) ⊆ <[("abcde", ["abcde"; "edcba"]) := 1%R]> ∅ ∧
  (∀ g, g ∈ ["abcde"] →
        is_Some ((<[("abcde", ["abcde"; "edcba"]) := 1%R]> ∅ : cache R)
                   !! (g, ["abcde"; "edcba"]))) ∧
  (∀ k, is_Some ((<[("abcde", ["abcde"; "edcba"]) := 1%R]> ∅ : cache R) !! k) →
        is_Some ((∅ : cache R) !! k)
        ∨ ∃ g, g ∈ ["abcde"] ∧ k = (g, ["abcde"; "edcba"])) ∧
  best_entropy_guess ["abcde"] ["abcde"; "edcba"]
    (<[("abcde", ["abcde"; "edcba"]) := 1%R]> ∅)
  = (Ok (Some "abcde", 1%R), <[("abcde", ["abcde"; "edcba"]) := 1%R]> ∅).
Proof.
  apply (best_entropy_guess_repeat (F := R) ["abcde"] ["abcde"; "edcba"] ∅).
  apply R_best_single.
Defined.

(** X11. With no candidate left every allowed word scores [0.0] (no
    bucket, no division), so after any session [best_entropy_guess]
    returns the first allowed word with entropy [0.0]: the later words tie
    with it and none of them is a candidate. *)
Theorem best_entropy_guess_no_candidates {F : Type} `{PyFloat F}
    (ops : list op) (w : string) (ws : list string) :
  f_gtb (f_of_int 0) (f_of_int (-1)) = true →
  f_gtb (f_of_int 0) (f_of_int 0) = false →
  ∃ c', best_entropy_guess (w :: ws) [] (run_session ops)
        = (Ok (Some w, f_of_int 0), c').
Proof.
  intros Hgt Hirr. unfold best_entropy_guess.
  destruct (best_entropy_loop_fold (w :: ws) [] (None, f_of_int (-1))
              (run_session ops)) as (c' & Hrun & _).
  { apply run_session_cache_ok. }
  { intros g _. by exists (f_of_int 0). }
  exists c'. rewrite Hrun. f_equal. f_equal.
  unfold best_fold. simpl foldl.
  assert (Hfirst : best_update [] w (score w []) (None, f_of_int (-1))
                   = (Some w, f_of_int 0)).
  { unfold best_update, score. simpl. by rewrite Hgt. }
  rewrite Hfirst. clear Hrun Hfirst.
  induction ws as [|g ws IH]; [done|]. simpl foldl.
  assert (Hkeep : best_update [] g (score g []) (Some w, f_of_int 0)
                  = (Some w, f_of_int 0)).
  { unfold best_update, score, py_in. simpl. rewrite Hirr.
    by rewrite andb_false_r. }
  by rewrite Hkeep.
Qed.

Lemma best_entropy_guess_no_candidates_witness :
  ∃ c' : cache R,
    best_entropy_guess ["abcde"; "x"; "edcba"] [] (run_session [])
    = (Ok (Some "abcde", 0%R), c').
Proof.
  destruct (best_entropy_guess_no_candidates (F := R) [] "abcde"
              ["x"; "edcba"]) as [c' Hc'].
  - apply R_gtb_true. simpl. lra.
  - apply R_gtb_false. simpl. lra.
  - exists c'. exact Hc'.
Defined.

(** ** The window: what a session keeps true *)

Section WindowProperties.
Context {F : Type} `{PyFloat F}.

Lemma refresh_fields (allowed_words : list string) (g : @Gui.gui F)
    (c : cache F) :
  Gui.words (Gui.refresh allowed_words g c).1.2 = Gui.words g ∧
  Gui.auto (Gui.refresh allowed_words g c).1.2 = Gui.auto g ∧
  (Gui.tiles (Gui.refresh allowed_words g c).1.2 = Gui.tiles g
   ∨ Gui.tiles (Gui.refresh allowed_words g c).1.2
     = (λ _, 0) <$> Gui.tiles g).
Proof.
  unfold Gui.refresh.
  destruct (best_entropy_guess allowed_words (Gui.words g) c) as [[best|x] c'];
    simpl; split_and!; auto.
Qed.

Lemma submit_fields (allowed_words : list string) (g : @Gui.gui F)
    (c : cache F) :
  (Gui.tiles (Gui.submit allowed_words g c).1.1.2 = Gui.tiles g
   ∨ Gui.tiles (Gui.submit allowed_words g c).1.1.2
     = (λ _, 0) <$> Gui.tiles g) ∧
  match submitted_clue allowed_words g with
  | None => Gui.words (Gui.submit allowed_words g c).1.1.2 = Gui.words g
  | Some (guess, feedback) =>
      match filter_words (Gui.words g) guess feedback with
      | Ok kept => Gui.words (Gui.submit allowed_words g c).1.1.2 = kept
      | Raise _ => Gui.words (Gui.submit allowed_words g c).1.1.2 = Gui.words g
      end
  end.
Proof.
  unfold Gui.submit, submitted_clue. cbv zeta.
  destruct (_ || _); [by split; [left|]|].
  destruct (decide _); [by split; [left|]|].
  destruct (filter_words _ _ _) as [[|w words']|x]; simpl;
    [by split; [left|] | | by split; [left|]].
  match goal with
  | |- context [Gui.refresh ?a ?g1 c] =>
      destruct (refresh_fields a g1 c) as (Hw & _ & Ht);
      destruct (Gui.refresh a g1 c) as [[[u|x] g2] c']
  end; simpl in *; done.
Qed.

Lemma zero_tiles_valid (tiles : list Z) :
  length tiles = 5%nat → valid_pattern ((λ _, 0) <$> tiles).
Proof.
  intros Hlen. split; [by rewrite length_fmap|].
  apply Forall_fmap, Forall_forall. intros ? _. simpl. lia.
Qed.

Lemma cycle_range (state : Z) : 0 ≤ Gui.cycle state ≤ 2.
Proof. unfold Gui.cycle. pose proof (Z.mod_pos_bound (state + 1) 3). lia. Qed.

End WindowProperties.

(** [Tile.cycle] steps a tile through Absent, Present, Correct and
    back: whatever the state, the next one is [0], [1] or [2]; from a
    state in that range three clicks lead back to it and one or two
    clicks do not. *)
Lemma tile_cycle_period (state : Z) :
  0 ≤ Gui.cycle state ≤ 2 ∧
  (0 ≤ state ≤ 2 →
   Gui.cycle (Gui.cycle (Gui.cycle state)) = state
   ∧ Gui.cycle state ≠ state ∧ Gui.cycle (Gui.cycle state) ≠ state).
Proof.
  split; [apply cycle_range|]. intros Hs. unfold Gui.cycle.
  assert (state = 0 ∨ state = 1 ∨ state = 2) as [-> | [-> | ->]] by lia;
    done.
Qed.

(** X12. In any session the five tiles hold a valid pattern and the
    candidate list is a sublist of the answer list: the window is built
    so, and every click, edit, Submit and Reset keeps it so. *)
Theorem window_invariant {F : Type} `{PyFloat F}
    (possible_words allowed_words : list string) (c0 c1 : cache F)
    (g0 : @Gui.gui F) (evs : list gui_event) :
  WordleGUI_init possible_words allowed_words c0 = (Ok g0, c1) →
  valid_pattern (Gui.tiles (run_events possible_words allowed_words evs
                              (g0, c1)).1) ∧
  sublist (Gui.words (run_events possible_words allowed_words evs (g0, c1)).1)
    possible_words.
Proof.
  intros Hinit.
  assert (Hstart : valid_pattern (Gui.tiles g0)
                   ∧ sublist (Gui.words g0) possible_words).
  { unfold WordleGUI_init in Hinit.
    destruct (best_entropy_guess _ _ _) as [[best|x] c']; [|done].
    injection Hinit as <- _. simpl. split; [|done].
    split; [done|]. repeat constructor; lia. }
  clear Hinit. unfold run_events.
  change g0 with (g0, c1).1 in Hstart. revert Hstart.
  generalize (g0, c1). clear g0 c0 c1.
  induction evs as [|ev evs IH]; intros s Hs; [done|].
  simpl. apply IH. clear IH. destruct s as [g c].
  destruct Hs as [[Hlen Hrange] Hsub]. simpl in *.
  destruct ev as [i|text| |]; simpl.
  - unfold tile_click. destruct (Gui.tiles g !! i) as [state|] eqn:Hi; simpl;
      [|done].
    split; [|done]. split; [by rewrite length_insert|].
    apply Forall_insert; [done|]. apply cycle_range.
  - done.
  - destruct (submit_fields allowed_words g c) as [Ht Hw]. split.
    + destruct Ht as [-> | ->]; [done | by apply zero_tiles_valid].
    + destruct (submitted_clue allowed_words g) as [[guess fb]|];
        [|by rewrite Hw].
      destruct (filter_words_cases (Gui.words g) guess fb) as [[_ Hok]|[_ Hr]].
      * rewrite Hok in Hw. rewrite Hw. etrans; [apply sublist_filter | done].
      * rewrite Hr in Hw. by rewrite Hw.
  - unfold Gui.reset.
    match goal with
    | |- context [Gui.refresh ?a ?g1 ?c1] =>
        destruct (refresh_fields a g1 c1) as (Hw & _ & Ht)
    end.
    simpl in *. rewrite Hw. split; [|done].
    destruct Ht as [-> | ->]; [done | by apply zero_tiles_valid].
Qed.

Lemma window_invariant_witness :
  valid_pattern
    (Gui.tiles (run_events (F := R) ["abcde"; "edcba"] ["abcde"]
                  [EntryEdit "ABCDE"; TileClick 0; SubmitClick; ResetClick]
                  ({| Gui.words := ["abcde"; "edcba"]; Gui.auto := false;
                      Gui.tiles := [0; 0; 0; 0; 0]; Gui.entry := "";
                      Gui.suggestion := (Some "abcde", 1%R) |},
                   <[("abcde", ["abcde"; "edcba"]) := 1%R]> ∅)).1) ∧
  sublist
    (Gui.words (run_events (F := R) ["abcde"; "edcba"] ["abcde"]
                  [EntryEdit "ABCDE"; TileClick 0; SubmitClick; ResetClick]
                  ({| Gui.words := ["abcde"; "edcba"]; Gui.auto := false;
                      Gui.tiles := [0; 0; 0; 0; 0]; Gui.entry := "";
                      Gui.suggestion := (Some "abcde", 1%R) |},
                   <[("abcde", ["abcde"; "edcba"]) := 1%R]> ∅)).1)
    ["abcde"; "edcba"].
Proof.
  apply (window_invariant (F := R) ["abcde"; "edcba"] ["abcde"] ∅).
  unfold WordleGUI_init. by rewrite R_best_single.
Defined.

Lemma submitted_clue_Some {F : Type} `{PyFloat F} (allowed_words : list string)
    (g : @Gui.gui F) (guess : string) (feedback : list Z) :
  submitted_clue allowed_words g = Some (guess, feedback) →
  is_word guess ∧ guess ∈ allowed_words ∧ feedback = Gui.tiles g
  ∧ feedback ≠ all_correct.
Proof.
  unfold submitted_clue, py_in. cbv zeta.
  destruct (bool_decide (String.length _ = 5%nat)) eqn:Hlen; [|done].
  destruct (bool_decide (_ ∈ allowed_words)) eqn:Hin; [|done]. simpl.
  destruct (decide _) as [|Hne]; [done|]. intros [= <- <-].
  apply bool_decide_eq_true in Hlen, Hin. done.
Qed.

Lemma filter_all {A} (P : A → Prop) `{!∀ x, Decision (P x)} (l : list A) :
  (∀ x, x ∈ l → P x) → filter P l = l.
Proof.
  induction l as [|x l IH]; intros Hall; [done|].
  rewrite filter_cons, decide_True by (apply Hall; by left).
  f_equal. apply IH. intros y Hy. apply Hall. by right.
Qed.

(** X13. In any session on a list of 5-letter answers the candidate list
    is the answer list filtered by every clue submitted since the last
    Reset: it holds exactly the answers that give each submitted feedback
    to its guess, in the order of the answer list. *)
Theorem window_candidates_consistent {F : Type} `{PyFloat F}
    (possible_words allowed_words : list string) (c0 c1 : cache F)
    (g0 : @Gui.gui F) (evs : list gui_event) :
  Forall is_word possible_words →
  WordleGUI_init possible_words allowed_words c0 = (Ok g0, c1) →
  Gui.words (run_events possible_words allowed_words evs (g0, c1)).1
  = filter (λ w, Forall (λ clue, get_feedback clue.1 w = Ok clue.2)
                   (clues_applied possible_words allowed_words evs
                      (g0, c1) []))
      possible_words.
Proof.
  intros Hwords Hinit.
  assert (Hstart : Gui.words (g0, c1).1
            = filter (λ w, Forall (λ clue : string * list Z,
                                     get_feedback clue.1 w = Ok clue.2) [])
                possible_words).
  { unfold WordleGUI_init in Hinit.
    destruct (best_entropy_guess _ _ _) as [[best|x] c']; [|done].
    injection Hinit as <- _. simpl. symmetry. apply filter_all.
    intros w _. constructor. }
  clear Hinit. unfold run_events. revert Hstart.
  generalize (@nil (string * list Z)). generalize (g0, c1). clear g0 c0 c1.
  induction evs as [|ev evs IH]; intros s log Hs; [done|].
  simpl. apply IH. clear IH. destruct s as [g c]. simpl in *.
  destruct ev as [i|text| |]; simpl.
  - unfold tile_click. by destruct (Gui.tiles g !! i).
  - done.
  - destruct (submit_fields allowed_words g c) as [_ Hw].
    destruct (submitted_clue allowed_words g) as [[guess fb]|] eqn:Hclue;
      [|by rewrite Hw].
    apply submitted_clue_Some in Hclue as (Hguess & _ & _ & _).
    rewrite filter_words_ok in Hw.
    + rewrite Hw, Hs, list_filter_filter. apply list_filter_iff. intros w.
      rewrite Forall_app, Forall_singleton. simpl. tauto.
    + unfold is_word in Hguess. lia.
    + apply is_word_long. rewrite Hs. apply Forall_forall. intros w Hw'.
      apply list_elem_of_filter in Hw' as [_ Hw'].
      rewrite Forall_forall in Hwords. auto.
  - unfold Gui.reset.
    match goal with
    | |- context [Gui.refresh ?a ?g1 ?c1] =>
        destruct (refresh_fields a g1 c1) as (Hw & _ & _)
    end.
    simpl in *. rewrite Hw. symmetry. apply filter_all.
    intros w _. constructor.
Qed.

Lemma window_candidates_consistent_witness :
  Gui.words (run_events (F := R) ["abcde"; "edcba"] ["abcde"]
               [EntryEdit "ABCDE"; TileClick 0; SubmitClick]
               ({| Gui.words := ["abcde"; "edcba"]; Gui.auto := false;
                   Gui.tiles := [0; 0; 0; 0; 0]; Gui.entry := "";
                   Gui.suggestion := (Some "abcde", 1%R) |},
                <[("abcde", ["abcde"; "edcba"]) := 1%R]> ∅)).1
  = filter (λ w, Forall (λ clue, get_feedback clue.1 w = Ok clue.2)
                   (clues_applied (F := R) ["abcde"; "edcba"] ["abcde"]
                      [EntryEdit "ABCDE"; TileClick 0; SubmitClick]
                      ({| Gui.words := ["abcde"; "edcba"]; Gui.auto := false;
                          Gui.tiles := [0; 0; 0; 0; 0]; Gui.entry := "";
                          Gui.suggestion := (Some "abcde", 1%R) |},
                       <[("abcde", ["abcde"; "edcba"]) := 1%R]> ∅) []))
      ["abcde"; "edcba"].
Proof.
  apply (window_candidates_consistent (F := R) ["abcde"; "edcba"] ["abcde"] ∅).
  - repeat constructor.
  - unfold WordleGUI_init. by rewrite R_best_single.
Defined.

(** X14. Reset starts over: the candidate list is the answer list again,
    auto-play is off, and of the cache only scores computed since, for
    the full answer list, remain; when the new suggestion could be
    computed the entry is empty, every tile is Absent and the score of
    every allowed word is cached. *)
Theorem reset_starts_over {F : Type} `{PyFloat F}
    (possible_words allowed_words : list string) (g : @Gui.gui F)
    (c : cache F) :
  Gui.words (Gui.reset possible_words allowed_words g c).1.2 = possible_words ∧
  Gui.auto (Gui.reset possible_words allowed_words g c).1.2 = false ∧
  (∀ k, is_Some ((Gui.reset possible_words allowed_words g c).2 !! k) →
        ∃ w, w ∈ allowed_words ∧ k = (w, possible_words)) ∧
  ((Gui.reset possible_words allowed_words g c).1.1 = Ok () →
   Gui.entry (Gui.reset possible_words allowed_words g c).1.2 = "" ∧
   Gui.tiles (Gui.reset possible_words allowed_words g c).1.2
   = (λ _, 0) <$> Gui.tiles g ∧
   ∀ w, w ∈ allowed_words →
        is_Some ((Gui.reset possible_words allowed_words g c).2
                   !! (w, possible_words))).
Proof.
  unfold Gui.reset, Gui.refresh, cache_clear, best_entropy_guess. simpl.
  destruct (best_entropy_loop_grows allowed_words possible_words
              (None, f_of_int (-1)) (∅ : cache F)) as (_ & Hkeys & Hall).
  destruct (best_entropy_loop _ _ _ _) as [[best|x] c'] eqn:Hrun; simpl in *.
  - split_and!; [done | done | | ].
    + intros k Hk. destruct (Hkeys k Hk) as [Hempty|Hw]; [|done].
      rewrite lookup_empty in Hempty. by destruct Hempty.
    + intros _. split_and!; [done | done |]. by apply (Hall best).
  - split_and!; [done | done | | done].
    intros k Hk. destruct (Hkeys k Hk) as [Hempty|Hw]; [|done].
    rewrite lookup_empty in Hempty. by destruct Hempty.
Qed.

(** ** Characters after the fifth *)

Lemma for_each_ext {I St} (xs : list I) (body1 body2 : I → St → result St)
    (s : St) :
  (∀ i s', i ∈ xs → body1 i s' = body2 i s') →
  for_each xs body1 s = for_each xs body2 s.
Proof.
  revert s. induction xs as [|i xs IH]; intros s Hext; [done|].
  rewrite !for_each_cons, Hext by (by left).
  destruct (body2 i s) as [s'|e]; simpl; [|done].
  apply IH. intros j t Hj. apply Hext. by right.
Qed.

(** X15. Only the first five characters of the guess are looked at: a
    longer guess is scored as its first five characters. *)
Theorem get_feedback_guess_prefix (guess answer : string) :
  get_feedback guess answer = get_feedback (substring 0 5 guess) answer.
Proof.
  assert (Hget : ∀ i, (i < 5)%nat →
            str_getitem (substring 0 5 guess) i = str_getitem guess i).
  { intros i Hi. unfold str_getitem.
    by rewrite (substring_correct1 guess 0 5 i Hi), Nat.add_0_r. }
  assert (H1 : ∀ st, for_each (seq 0 5) (pass1_body guess answer) st
                     = for_each (seq 0 5)
                         (pass1_body (substring 0 5 guess) answer) st).
  { intros st. apply for_each_ext. intros i [fb al] Hi.
    apply elem_of_seq in Hi. unfold pass1_body. by rewrite Hget by lia. }
  assert (H2 : ∀ st, for_each (seq 0 5) (pass2_body guess) st
                     = for_each (seq 0 5)
                         (pass2_body (substring 0 5 guess)) st).
  { intros st. apply for_each_ext. intros i [fb al] Hi.
    apply elem_of_seq in Hi. unfold pass2_body. by rewrite Hget by lia. }
  unfold get_feedback, for_range. cbv zeta. rewrite H1.
  destruct (for_each (seq 0 5) (pass1_body (substring 0 5 guess) answer) _)
    as [st1|e]; [|done].
  cbv beta iota delta [mbind result_bind]. by rewrite H2.
Qed.

(** ** The rounds of a simulated game *)

Section GameRounds.
Context {F : Type} `{PyFloat F}.

(** The selector returns a member of the list it iterates over. *)
Lemma sim_best_member (table : list (list Z)) (remaining xs : list nat)
    (best best' : option nat * F) :
  for_each xs (Sim.best_body table remaining) best = Ok best' →
  best'.1 = best.1 ∨ ∃ g, g ∈ xs ∧ best'.1 = Some g.
Proof.
  revert best. induction xs as [|x xs IH]; intros best Hrun.
  - injection Hrun as <-. by left.
  - rewrite for_each_cons in Hrun.
    destruct (Sim.best_body table remaining x best) as [best1|e] eqn:Hbody;
      [|done].
    simpl in Hrun. apply IH in Hrun as [Hsame|(g & Hg & Hbest)].
    + unfold Sim.best_body in Hbody.
      destruct (table_take table x remaining) as [codes|e]; [|done].
      simpl in Hbody. injection Hbody as <-.
      destruct (f_gtb _ _); simpl in Hsame.
      * right. exists x. split; [by left | done].
      * by left.
    + right. exists g. split; [by right | done].
Qed.

Lemma sim_best_in (table : list (list Z)) (remaining : list nat) (gi : nat) :
  Sim.best_entropy_guess table remaining = Ok (Some gi) → gi ∈ remaining.
Proof.
  unfold Sim.best_entropy_guess. intros Hsel.
  destruct (for_each _ _ _) as [best|e] eqn:Hrun; [|done].
  simpl in Hsel. injection Hsel as Hbest.
  apply sim_best_member in Hrun as [Hnone|(g & Hg & Hsome)].
  - simpl in Hnone. congruence.
  - congruence.
Qed.

(** What one pass through the body of [while True] does. *)
Lemma game_round_inv (possible_words : list string) (table : list (list Z))
    (fixed_first_guess_idx ai : nat) (st st' : Sim.game) (b : bool) :
  Sim.game_round possible_words table fixed_first_guess_idx ai st
  = Ok (st', b) →
  ∃ gi g c,
    (Sim.guesses st = 0 ∧ gi = fixed_first_guess_idx
     ∨ Sim.guesses st ≠ 0
       ∧ Sim.best_entropy_guess table (Sim.remaining st) = Ok (Some gi)) ∧
    possible_words !! gi = Some g ∧
    table_get table gi ai = Ok c ∧
    Sim.guesses st' = Sim.guesses st + 1 ∧
    Sim.game_feedbacks st' = Sim.game_feedbacks st ++ [fb_list c] ∧
    Sim.game_words st' = Sim.game_words st ++ [g] ∧
    b = bool_decide (gi = ai)
        || bool_decide (Sim.guesses st + 1 >= MAX_GUESSES) ∧
    if b then Sim.remaining st' = Sim.remaining st
    else table_filter table gi c (Sim.remaining st) = Ok (Sim.remaining st').
Proof.
  unfold Sim.game_round. cbv zeta. intros Hround.
  destruct (if decide (Sim.guesses st + 1 = 1) then Ok fixed_first_guess_idx
            else sel ← Sim.best_entropy_guess table (Sim.remaining st);
                 match sel with
                 | Some gi => Ok gi
                 | None => Raise TypeError
                 end) as [gi|e] eqn:Hsel; [|done].
  simpl in Hround.
  destruct (table_get table gi ai) as [c|e] eqn:Hget; [|done].
  simpl in Hround.
  destruct (list_getitem possible_words gi) as [g|e] eqn:Hg; [|done].
  simpl in Hround. unfold list_getitem in Hg.
  destruct (possible_words !! gi) as [g'|] eqn:Hg'; [|done].
  injection Hg as ->.
  exists gi, g, c.
  assert (Hchoice : Sim.guesses st = 0 ∧ gi = fixed_first_guess_idx
     ∨ Sim.guesses st ≠ 0
       ∧ Sim.best_entropy_guess table (Sim.remaining st) = Ok (Some gi)).
  { destruct (decide (Sim.guesses st + 1 = 1)).
    - left. injection Hsel as <-. split; [lia | done].
    - right. split; [lia|].
      destruct (Sim.best_entropy_guess _ _) as [[gi'|]|e]; simpl in Hsel;
        congruence. }
  destruct (bool_decide (gi = ai)
            || bool_decide (Sim.guesses st + 1 >= MAX_GUESSES)) eqn:Hb.
  - injection Hround as <- <-. simpl. by split_and!.
  - destruct (table_filter table gi c (Sim.remaining st)) as [rem'|e] eqn:Hf;
      [|done].
    simpl in Hround. injection Hround as <- <-. simpl. by split_and!.
Qed.

(** A game that stops has added at least one round to the record. *)
Lemma game_loop_extends (fuel : nat) (possible_words : list string)
    (table : list (list Z)) (fixed_first_guess_idx ai : nat)
    (st st' : Sim.game) :
  Sim.game_loop fuel possible_words table fixed_first_guess_idx ai st
  = Some (Ok st') →
  Sim.guesses st < Sim.guesses st' ∧
  ∃ more, more ≠ []
          ∧ Sim.game_feedbacks st' = Sim.game_feedbacks st ++ more.
Proof.
  revert st. induction fuel as [|fuel IH]; intros st Hrun; [done|].
  simpl in Hrun.
  destruct (Sim.game_round _ _ _ _ st) as [[st1 b]|e] eqn:Hround; [|done].
  apply game_round_inv in Hround
    as (gi & g & c & _ & _ & _ & Hk & Hfb & _ & _ & _).
  destruct b.
  - injection Hrun as <-. split; [lia|]. by exists [fb_list c].
  - apply IH in Hrun as (Hlt & more & _ & Hmore). split; [lia|].
    exists (fb_list c :: more). split; [done|].
    by rewrite Hmore, Hfb, <- app_assoc.
Qed.

End GameRounds.

(** A table that was built is the table of the cells, and every word has
    the five characters the cells need. *)
Lemma build_feedback_table_inv (possible_words : list string)
    (table : list (list Z)) :
  build_feedback_table possible_words = Ok table →
  Forall (λ w, (5 ≤ String.length w)%nat) possible_words ∧
  table = (λ g, cell g <$> possible_words) <$> possible_words.
Proof.
  intros Hbuild.
  assert (Hlong : Forall (λ w, (5 ≤ String.length w)%nat) possible_words).
  { destruct possible_words as [|g l] eqn:Hpw; [constructor|].
    rewrite <- Hpw in *. unfold build_feedback_table in Hbuild.
    rewrite Hpw in Hbuild at 2. simpl in Hbuild.
    destruct (table_row_cases possible_words g) as [(_ & Hlong & _)|(_ & _ & Hr)];
      [done|].
    by rewrite Hr in Hbuild. }
  split; [done|].
  rewrite (build_feedback_table_ok possible_words Hlong) in Hbuild. congruence.
Qed.

(** A cell of the table is the code of its decoding. *)
Lemma table_cell_code (possible_words : list string) (gi ai : nat) (c : Z) :
  Forall (λ w, (5 ≤ String.length w)%nat) possible_words →
  table_get ((λ g, cell g <$> possible_words) <$> possible_words) gi ai = Ok c →
  ∃ g a, possible_words !! gi = Some g ∧ possible_words !! ai = Some a
         ∧ c = cell g a ∧ get_feedback g a = Ok (fb_list c)
         ∧ c = feedback_to_int (fb_list c).
Proof.
  intros Hwords Hget. unfold table_get, list_getitem in Hget.
  rewrite list_lookup_fmap in Hget.
  destruct (possible_words !! gi) as [g|] eqn:Hg; [|done]. simpl in Hget.
  rewrite list_lookup_fmap in Hget.
  destruct (possible_words !! ai) as [a|] eqn:Ha; [|done]. simpl in Hget.
  injection Hget as <-. exists g, a.
  rewrite Forall_forall in Hwords.
  destruct (cell_code g a) as (fb & Hfb & _ & Hcode & Hdec);
    [eapply Hwords, list_elem_of_lookup_2; done
    |eapply Hwords, list_elem_of_lookup_2; done|].
  split_and!; [done | done | done | by rewrite Hdec | by rewrite Hdec].
Qed.

(** ** Every guess fits the feedback seen before it *)

Section GameConsistency.
Context {F : Type} `{PyFloat F}.
Variable possible_words : list string.
Hypothesis Hwords : Forall (λ w, (5 ≤ String.length w)%nat) possible_words.
Variables (fixed_first_guess_idx ai : nat) (a : string).
Hypothesis Hanswer : possible_words !! ai = Some a.

Let table : list (list Z) :=
  (λ g, cell g <$> possible_words) <$> possible_words.

(** At the top of the loop body: the rounds recorded were scored against
    the answer with guesses at other indices, each guess fits the rounds
    before it, and so does every index that is still a candidate. *)
Let played (st : Sim.game) : Prop :=
  Z.of_nat (length (Sim.game_words st)) = Sim.guesses st ∧
  length (Sim.game_feedbacks st) = length (Sim.game_words st) ∧
  Forall (λ r, (r < length possible_words)%nat) (Sim.remaining st) ∧
  record_consistent (Sim.game_words st) (Sim.game_feedbacks st) ∧
  ∀ j wj fbj,
    Sim.game_words st !! j = Some wj → Sim.game_feedbacks st !! j = Some fbj →
    get_feedback wj a = Ok fbj ∧
    (∃ gj, possible_words !! gj = Some wj ∧ gj ≠ ai) ∧
    ∀ r, r ∈ Sim.remaining st →
         ∃ wr, possible_words !! r = Some wr ∧ get_feedback wj wr = Ok fbj.

(** After the [break]. *)
Let finished (st : Sim.game) : Prop :=
  length (Sim.game_feedbacks st) = length (Sim.game_words st) ∧
  record_consistent (Sim.game_words st) (Sim.game_feedbacks st) ∧
  ∀ j wj fbj,
    Sim.game_words st !! j = Some wj → Sim.game_feedbacks st !! j = Some fbj →
    get_feedback wj a = Ok fbj ∧
    ((S j < length (Sim.game_words st))%nat →
     ∃ gj, possible_words !! gj = Some wj ∧ gj ≠ ai).

Lemma played_init : played (Sim.game_init possible_words).
Proof.
  unfold played, Sim.game_init. simpl. split_and!; [done | done | | |].
  - apply Forall_forall. intros r Hr. apply elem_of_seq in Hr. lia.
  - intros j k wj fbj wk _ Hj. by rewrite lookup_nil in Hj.
  - intros j wj fbj Hj. by rewrite lookup_nil in Hj.
Qed.

Lemma played_round (st st' : Sim.game) (b : bool) :
  played st →
  Sim.game_round possible_words table fixed_first_guess_idx ai st
  = Ok (st', b) →
  if b then finished st' else played st'.
Proof.
  intros (Hk & Hlen & Hrange & Hcons & Hrounds) Hround.
  apply game_round_inv in Hround
    as (gi & g & c & Hchoice & Hg & Hget & Hk' & Hfbs' & Hws' & Hb & Hrem').
  destruct (table_cell_code possible_words gi ai c Hwords Hget)
    as (g0 & a0 & Hg0 & Ha0 & Hc & Hfb & _).
  assert (g0 = g) as -> by congruence.
  assert (a0 = a) as -> by congruence.
  (* the new guess fits every round recorded *)
  assert (Hfits : ∀ j wj fbj,
            Sim.game_words st !! j = Some wj →
            Sim.game_feedbacks st !! j = Some fbj →
            get_feedback wj g = Ok fbj).
  { intros j wj fbj Hj Hfj. destruct Hchoice as [[Hzero _]|[_ Hsel]].
    - apply lookup_lt_Some in Hj. lia.
    - apply sim_best_in in Hsel.
      destruct (Hrounds j wj fbj Hj Hfj) as (_ & _ & Hall).
      destruct (Hall gi Hsel) as (wr & Hwr & Hfit). congruence. }
  assert (Hcons' : record_consistent (Sim.game_words st')
                     (Sim.game_feedbacks st')).
  { rewrite Hws', Hfbs'. intros j k wj fbj wk Hjk Hj Hfj Hkk.
    assert (Hklt : (k < length (Sim.game_words st ++ [g]))%nat)
      by by eapply lookup_lt_Some.
    rewrite length_app in Hklt. simpl in Hklt.
    rewrite lookup_app_l in Hj by lia.
    rewrite lookup_app_l in Hfj by lia.
    destruct (decide (k < length (Sim.game_words st))%nat) as [Hlt|Hge].
    - rewrite lookup_app_l in Hkk by lia.
      exact (Hcons j k wj fbj wk Hjk Hj Hfj Hkk).
    - rewrite lookup_app_r in Hkk by lia.
      replace (k - length (Sim.game_words st))%nat with 0%nat in Hkk by lia.
      injection Hkk as <-. by eapply Hfits. }
  assert (Hnew : ∀ j wj fbj,
            (Sim.game_words st ++ [g]) !! j = Some wj →
            (Sim.game_feedbacks st ++ [fb_list c]) !! j = Some fbj →
            (j < length (Sim.game_words st))%nat
            ∧ Sim.game_words st !! j = Some wj
            ∧ Sim.game_feedbacks st !! j = Some fbj
            ∨ j = length (Sim.game_words st) ∧ wj = g ∧ fbj = fb_list c).
  { intros j wj fbj Hj Hfj.
    destruct (decide (j < length (Sim.game_words st))%nat) as [Hlt|Hge].
    - left. rewrite lookup_app_l in Hj by lia.
      rewrite lookup_app_l in Hfj by lia. done.
    - right. apply lookup_lt_Some in Hj as Hjlt.
      rewrite length_app in Hjlt. simpl in Hjlt.
      rewrite lookup_app_r in Hj by lia.
      rewrite lookup_app_r in Hfj by lia.
      replace (j - length (Sim.game_words st))%nat with 0%nat in Hj by lia.
      replace (j - length (Sim.game_feedbacks st))%nat with 0%nat in Hfj by lia.
      injection Hj as <-. injection Hfj as <-. split; [lia | done]. }
  destruct b.
  - unfold finished. rewrite Hws', Hfbs' in *. split_and!.
    + rewrite !length_app. simpl. lia.
    + done.
    + intros j wj fbj Hj Hfj.
      destruct (Hnew j wj fbj Hj Hfj) as [(Hlt & Hj' & Hfj')|(-> & -> & ->)].
      * destruct (Hrounds j wj fbj Hj' Hfj') as (Hscore & Hidx & _). done.
      * split; [done|]. rewrite length_app. simpl. lia.
  - symmetry in Hb. apply orb_false_iff in Hb as [Hgiai _].
    apply bool_decide_eq_false in Hgiai.
    assert (Hfilter : Sim.remaining st'
              = filter (λ r, (cell g <$> possible_words) !! r = Some c)
                  (Sim.remaining st)).
    { unfold table in Hrem'.
      rewrite (table_filter_ok possible_words gi g c) in Hrem' by done.
      congruence. }
    unfold played. rewrite Hws', Hfbs', Hfilter in *. split_and!.
    + rewrite length_app. simpl. lia.
    + rewrite !length_app. simpl. lia.
    + apply Forall_forall. intros r Hr.
      apply list_elem_of_filter in Hr as [_ Hr].
      rewrite Forall_forall in Hrange. auto.
    + done.
    + intros j wj fbj Hj Hfj.
      destruct (Hnew j wj fbj Hj Hfj) as [(Hlt & Hj' & Hfj')|(-> & -> & ->)].
      * destruct (Hrounds j wj fbj Hj' Hfj') as (Hscore & Hidx & Hall).
        split_and!; [done | done |]. intros r Hr.
        apply list_elem_of_filter in Hr as [_ Hr]. auto.
      * split_and!; [done | by exists gi |]. intros r Hr.
        apply list_elem_of_filter in Hr as [Hcell Hr].
        rewrite list_lookup_fmap in Hcell.
        destruct (possible_words !! r) as [wr|] eqn:Hwr; [|done].
        exists wr. split; [done|]. injection Hcell as Hcell.
        rewrite Forall_forall in Hwords.
        destruct (cell_code g wr) as (fb' & Hfb' & _ & _ & Hdec);
          [eapply Hwords, list_elem_of_lookup_2; done
          |eapply Hwords, list_elem_of_lookup_2; done|].
        by rewrite Hfb', <- Hdec, Hcell.
Qed.

Lemma played_loop (fuel : nat) (st st' : Sim.game) :
  played st →
  Sim.game_loop fuel possible_words table fixed_first_guess_idx ai st
  = Some (Ok st') →
  finished st'.
Proof.
  revert st. induction fuel as [|fuel IH]; intros st Hst Hrun; [done|].
  simpl in Hrun.
  destruct (Sim.game_round _ _ _ _ st) as [[st1 b]|e] eqn:Hround; [|done].
  pose proof (played_round st st1 b Hst Hround) as Hpost.
  destruct b; [by injection Hrun as <- | by eapply IH].
Qed.

Lemma game_record_consistent (fuel : nat) (st : Sim.game) :
  Sim.game_loop fuel possible_words table fixed_first_guess_idx ai
    (Sim.game_init possible_words) = Some (Ok st) →
  length (Sim.game_feedbacks st) = length (Sim.game_words st) ∧
  record_consistent (Sim.game_words st) (Sim.game_feedbacks st) ∧
  ∀ j wj fbj,
    Sim.game_words st !! j = Some wj → Sim.game_feedbacks st !! j = Some fbj →
    get_feedback wj a = Ok fbj ∧
    ((S j < length (Sim.game_words st))%nat →
     ∃ gj, possible_words !! gj = Some wj ∧ gj ≠ ai).
Proof. apply played_loop, played_init. Qed.

End GameConsistency.

(** X16. In a simulated game every guess is consistent with all the
    feedback recorded before it: taken as the answer, it would have given
    each earlier guess the feedback that guess received. Hence, when the
    word list has no duplicates, no word is guessed twice in a game. *)
Theorem sim_guesses_consistent {F : Type} `{PyFloat F}
    (possible_words : list string) (ai fuel : nat) (st : Sim.game) :
  Forall is_word possible_words →
  Sim.play_game fuel possible_words ai = Some (Ok st) →
  record_consistent (Sim.game_words st) (Sim.game_feedbacks st) ∧
  (NoDup possible_words → NoDup (Sim.game_words st)).
Proof.
  intros Hwords Hplay. unfold Sim.play_game in Hplay.
  pose proof (is_word_long possible_words Hwords) as Hlong.
  rewrite (build_feedback_table_ok possible_words Hlong) in Hplay.
  destruct (list_index possible_words "raise") as [first|e]; [|done].
  assert (Hanswer : ∃ a, possible_words !! ai = Some a).
  { destruct fuel as [|fuel]; [done|]. simpl in Hplay.
    destruct (Sim.game_round _ _ _ _ _) as [[st1 b]|e] eqn:Hround; [|done].
    apply game_round_inv in Hround as (gi & g & c & _ & _ & Hget & _).
    destruct (table_cell_code possible_words gi ai c Hlong Hget)
      as (_ & a & _ & Ha & _).
    by exists a. }
  destruct Hanswer as [a Ha].
  destruct (game_record_consistent possible_words Hlong first ai a Ha fuel st
              Hplay) as (Hlen & Hcons & Hrounds).
  split; [done|]. intros Hnodup. apply NoDup_alt.
  assert (Hlt : ∀ i j x, (i < j)%nat →
            Sim.game_words st !! i = Some x →
            Sim.game_words st !! j = Some x → False).
  { intros i j x Hij Hi Hj.
    destruct (lookup_lt_is_Some_2 (Sim.game_feedbacks st) i) as [fbi Hfbi].
    { apply lookup_lt_Some in Hi. lia. }
    pose proof (Hcons i j x fbi x Hij Hi Hfbi Hj) as Hself.
    destruct (Hrounds i x fbi Hi Hfbi) as [Hscore Hidx].
    destruct Hidx as (gi & Hgi & Hne).
    { apply lookup_lt_Some in Hj. lia. }
    rewrite Forall_forall in Hwords.
    assert (Hx : is_word x) by (eapply Hwords, list_elem_of_lookup_2; done).
    assert (Hwa : is_word a) by (eapply Hwords, list_elem_of_lookup_2; done).
    assert (Hall : get_feedback x x = Ok all_correct)
      by by apply all_correct_iff.
    assert (fbi = all_correct) as -> by congruence.
    apply all_correct_iff in Hscore; [|done|done]. subst x.
    apply Hne. by eapply NoDup_lookup. }
  intros i j x Hi Hj.
  destruct (Nat.lt_trichotomy i j) as [Hij|[->|Hji]]; [|done|].
  - by destruct (Hlt i j x).
  - by destruct (Hlt j i x).
Qed.

(** A game of two rounds, in exact arithmetic. *)
Lemma R_game_two_rounds :
  Sim.play_game (F := R) 6 ["raise"; "abcde"] 1
  = Some (Ok {| Sim.remaining := [1%nat]; Sim.guesses := 2;
                Sim.game_feedbacks := [[0; 1; 0; 0; 2]; [2; 2; 2; 2; 2]];
                Sim.game_words := ["raise"; "abcde"] |}).
Proof.
  unfold Sim.play_game.
  rewrite (build_feedback_table_ok ["raise"; "abcde"])
    by (repeat constructor).
  change (list_index ["raise"; "abcde"] "raise") with (Ok (A := nat) 0%nat).
  set (table := (λ g, cell g <$> ["raise"; "abcde"]) <$> ["raise"; "abcde"]).
  assert (Hround1 :
    Sim.game_round (F := R) ["raise"; "abcde"] table 0 1
      (Sim.game_init ["raise"; "abcde"])
    = Ok ({| Sim.remaining := [1%nat]; Sim.guesses := 1;
             Sim.game_feedbacks := [[0; 1; 0; 0; 2]];
             Sim.game_words := ["raise"] |}, false)) by reflexivity.
  assert (Hbest : Sim.best_entropy_guess (F := R) table [1%nat]
                  = Ok (Some 1%nat)).
  { destruct (sim_best_some (F := R) ["raise"; "abcde"] sim_scores_R
                [1%nat])
      as (gi & Hsel & Hgi); [done | repeat constructor; simpl; lia |].
    apply list_elem_of_singleton in Hgi as ->. exact Hsel. }
  assert (Hround2 :
    Sim.game_round (F := R) ["raise"; "abcde"] table 0 1
      {| Sim.remaining := [1%nat]; Sim.guesses := 1;
         Sim.game_feedbacks := [[0; 1; 0; 0; 2]];
         Sim.game_words := ["raise"] |}
    = Ok ({| Sim.remaining := [1%nat]; Sim.guesses := 2;
             Sim.game_feedbacks := [[0; 1; 0; 0; 2]; [2; 2; 2; 2; 2]];
             Sim.game_words := ["raise"; "abcde"] |}, true)).
  { unfold Sim.game_round. simpl Sim.guesses. simpl Sim.remaining.
    rewrite decide_False by lia. rewrite Hbest. reflexivity. }
  cbv beta iota.
  change (Sim.game_loop 6 ["raise"; "abcde"] table 0 1
            (Sim.game_init ["raise"; "abcde"]))
    with (match Sim.game_round (F := R) ["raise"; "abcde"] table 0 1
                  (Sim.game_init ["raise"; "abcde"]) with
          | Raise x => Some (Raise x)
          | Ok (st', true) => Some (Ok st')
          | Ok (st', false) =>
              Sim.game_loop 5 ["raise"; "abcde"] table 0 1 st'
          end).
  rewrite Hround1. simpl Sim.game_loop. by rewrite Hround2.
Qed.

Lemma sim_guesses_consistent_witness :
  record_consistent ["raise"; "abcde"] [[0; 1; 0; 0; 2]; [2; 2; 2; 2; 2]] ∧
  (NoDup ["raise"; "abcde"] → NoDup ["raise"; "abcde"]).
Proof.
  apply (sim_guesses_consistent (F := R) ["raise"; "abcde"] 1 6
           {| Sim.remaining := [1%nat]; Sim.guesses := 2;
              Sim.game_feedbacks := [[0; 1; 0; 0; 2]; [2; 2; 2; 2; 2]];
              Sim.game_words := ["raise"; "abcde"] |}).
  - repeat constructor.
  - apply R_game_two_rounds.
Defined.

(** ** The grid of a game *)

Lemma emoji_row_ok (fb : list Z) :
  Forall (λ v, 0 ≤ v ≤ 2) fb →
  mapM (list_getitem_int EMOJIS) fb
  = Ok ((λ v, default "" (EMOJIS !! Z.to_nat v)) <$> fb).
Proof.
  intros Hfb. apply mapM_ok. intros v Hv.
  rewrite Forall_forall in Hfb. specialize (Hfb v Hv).
  assert (v = 0 ∨ v = 1 ∨ v = 2) as [-> | [-> | ->]] by lia; reflexivity.
Qed.

(** The lines [format_game] returns for a record of valid patterns. *)
Lemma format_game_lines (feedbacks : list (list Z)) (words : list string) :
  Forall (Forall (λ v, 0 ≤ v ≤ 2)) feedbacks →
  ∃ lines, format_game feedbacks words = Ok lines ∧
    length lines = Z.to_nat MAX_GUESSES ∧
    ∀ i, (i < Z.to_nat MAX_GUESSES)%nat →
      lines !! i
      = Some (String.append
                (str_join ((λ v, default "" (EMOJIS !! Z.to_nat v))
                             <$> default [0; 0; 0; 0; 0] (feedbacks !! i)))
                (String.append "  " (default "     " (words !! i)))).
Proof.
  intros Hvalid. unfold format_game.
  destruct (for_range_inv
    (λ n (lines : list string),
       length lines = n ∧
       ∀ i, (i < n)%nat →
         lines !! i
         = Some (String.append
                   (str_join ((λ v, default "" (EMOJIS !! Z.to_nat v))
                                <$> default [0; 0; 0; 0; 0] (feedbacks !! i)))
                   (String.append "  " (default "     " (words !! i)))))
    (λ i lines,
       let fb := match feedbacks !! i with
                 | Some fb => fb
                 | None => [0; 0; 0; 0; 0]
                 end in
       let w := match words !! i with
                | Some w => w
                | None => "     "
                end in
       tiles ← mapM (list_getitem_int EMOJIS) fb;
       Ok (lines ++ [String.append (str_join tiles) (String.append "  " w)]))
    (Z.to_nat MAX_GUESSES) []) as (lines & Hrun & Hlen & Hlines).
  - split; [done|]. intros i Hi. lia.
  - intros i lines Hi [Hlen Hlines]. cbv zeta.
    assert (Hrow : Forall (λ v, 0 ≤ v ≤ 2)
                     match feedbacks !! i with
                     | Some fb => fb
                     | None => [0; 0; 0; 0; 0]
                     end).
    { destruct (feedbacks !! i) as [fb|] eqn:Hfb.
      - rewrite Forall_forall in Hvalid.
        eapply Hvalid, list_elem_of_lookup_2. done.
      - repeat constructor; lia. }
    rewrite (emoji_row_ok _ Hrow). simpl. eexists. split; [done|].
    split; [rewrite length_app; simpl; lia|].
    intros j Hj. destruct (decide (j < i)%nat) as [Hlt|Hge].
    + rewrite lookup_app_l by lia. by apply Hlines.
    + assert (j = i) as -> by lia.
      rewrite lookup_app_r by lia.
      replace (i - length lines)%nat with 0%nat by lia. simpl.
      by destruct (feedbacks !! i), (words !! i).
  - exists lines. done.
Qed.

(** X17. For a record of valid patterns [format_game] raises nothing and
    returns exactly [MAX_GUESSES] lines, however many rounds the record
    has: line [i] shows the tiles of round [i], two blanks and the word
    guessed, and five gray tiles and five blanks when the game had no
    round [i]. *)
Theorem format_game_grid (feedbacks : list (list Z)) (words : list string) :
  Forall valid_pattern feedbacks →
  ∃ lines, format_game feedbacks words = Ok lines ∧
    length lines = Z.to_nat MAX_GUESSES ∧
    (∀ i fb w, feedbacks !! i = Some fb → words !! i = Some w →
       (i < Z.to_nat MAX_GUESSES)%nat →
       lines !! i
       = Some (String.append
                 (str_join ((λ v, default "" (EMOJIS !! Z.to_nat v)) <$> fb))
                 (String.append "  " w))) ∧
    (∀ i, (length feedbacks ≤ i)%nat → (length words ≤ i)%nat →
       (i < Z.to_nat MAX_GUESSES)%nat →
       lines !! i = Some "⬛⬛⬛⬛⬛       ").
Proof.
  intros Hvalid.
  destruct (format_game_lines feedbacks words) as (lines & Hrun & Hlen & Hl).
  { eapply Forall_impl; [exact Hvalid|]. by intros fb [_ Hfb]. }
  exists lines. split_and!; [done | done | |].
  - intros i fb w Hfb Hw Hi. by rewrite (Hl i Hi), Hfb, Hw.
  - intros i Hfb Hw Hi.
    by rewrite (Hl i Hi), (lookup_ge_None_2 feedbacks),
      (lookup_ge_None_2 words).
Qed.

Lemma format_game_grid_witness :
  ∃ lines,
    format_game [[0; 1; 0; 0; 2]; [2; 2; 2; 2; 2]] ["raise"; "abcde"]
    = Ok lines ∧
    length lines = Z.to_nat MAX_GUESSES ∧
    (∀ i fb w, [[0; 1; 0; 0; 2]; [2; 2; 2; 2; 2]] !! i = Some fb →
       ["raise"; "abcde"] !! i = Some w →
       (i < Z.to_nat MAX_GUESSES)%nat →
       lines !! i
       = Some (String.append
                 (str_join ((λ v, default "" (EMOJIS !! Z.to_nat v)) <$> fb))
                 (String.append "  " w))) ∧
    (∀ i, (length [[0; 1; 0; 0; 2]; [2; 2; 2; 2; 2]] ≤ i)%nat →
       (length ["raise"; "abcde"] ≤ i)%nat →
       (i < Z.to_nat MAX_GUESSES)%nat →
       lines !! i = Some "⬛⬛⬛⬛⬛       ").
Proof.
  apply (format_game_grid [[0; 1; 0; 0; 2]; [2; 2; 2; 2; 2]]
           ["raise"; "abcde"]).
  repeat constructor; lia.
Defined.

(** ** The words of a game are determined by its feedback *)

Section SameFeedback.
Context {F : Type} `{PyFloat F}.
Variable possible_words : list string.
Hypothesis Hwords : Forall (λ w, (5 ≤ String.length w)%nat) possible_words.
Variable fixed_first_guess_idx : nat.

Let table : list (list Z) :=
  (λ g, cell g <$> possible_words) <$> possible_words.

(** Two games that leave the same state with different answers and end
    with the same feedback record have made the same guesses: the next
    guess depends on the state only, and the state after a round on the
    guess and its feedback only. *)
Lemma same_feedback_same_words (fuel ai bi : nat) (st sa sb : Sim.game) :
  Sim.game_loop fuel possible_words table fixed_first_guess_idx ai st
  = Some (Ok sa) →
  Sim.game_loop fuel possible_words table fixed_first_guess_idx bi st
  = Some (Ok sb) →
  Sim.game_feedbacks sa = Sim.game_feedbacks sb →
  Sim.game_words sa = Sim.game_words sb.
Proof.
  revert st. induction fuel as [|fuel IH]; intros st Ha Hb Heq; [done|].
  simpl in Ha, Hb.
  destruct (Sim.game_round _ _ _ ai st) as [[sa1 ba]|e] eqn:Hra; [|done].
  destruct (Sim.game_round _ _ _ bi st) as [[sb1 bb]|e] eqn:Hrb; [|done].
  apply game_round_inv in Hra
    as (gi & g & ca & Hchoice & Hg & Hgeta & Hka & Hfa & Hwa & _ & Hrema).
  apply game_round_inv in Hrb
    as (gi' & g' & cb & Hchoice' & Hg' & Hgetb & Hkb & Hfb & Hwb & _ & Hremb).
  assert (gi' = gi) as ->.
  { destruct Hchoice as [[Hz ->]|[Hnz Hsel]],
             Hchoice' as [[Hz' ->]|[Hnz' Hsel']]; congruence. }
  assert (g' = g) as -> by congruence.
  destruct ba, bb.
  - injection Ha as <-. injection Hb as <-. congruence.
  - injection Ha as <-.
    apply game_loop_extends in Hb as (_ & more & Hmore & Hext).
    rewrite Hfa, Hext, Hfb in Heq. apply (f_equal length) in Heq.
    rewrite !length_app in Heq. simpl in Heq.
    destruct more; [done | simpl in Heq; lia].
  - injection Hb as <-.
    apply game_loop_extends in Ha as (_ & more & Hmore & Hext).
    rewrite Hfb, Hext, Hfa in Heq. apply (f_equal length) in Heq.
    rewrite !length_app in Heq. simpl in Heq.
    destruct more; [done | simpl in Heq; lia].
  - pose proof (game_loop_extends _ _ _ _ _ _ _ Ha) as (_ & ma & _ & Hexta).
    pose proof (game_loop_extends _ _ _ _ _ _ _ Hb) as (_ & mb & _ & Hextb).
    pose proof Heq as Heq0.
    rewrite Hexta, Hextb, Hfa, Hfb, <- !app_assoc in Heq.
    apply app_inv_head in Heq.
    apply (f_equal (λ l : list (list Z), l !! 0%nat)) in Heq.
    simpl in Heq. apply (inj Some) in Heq. rename Heq into Hcode.
    assert (ca = cb) as <-.
    { destruct (table_cell_code possible_words gi ai ca Hwords Hgeta)
        as (_ & _ & _ & _ & _ & _ & ->).
      destruct (table_cell_code possible_words gi bi cb Hwords Hgetb)
        as (_ & _ & _ & _ & _ & _ & ->).
      by rewrite Hcode. }
    assert (sb1 = sa1) as ->.
    { destruct sa1, sb1. simpl in *. f_equal; congruence. }
    by apply (IH sa1).
Qed.

(** Every feedback a game records is a valid pattern. *)
Lemma game_loop_feedbacks_valid (fuel ai : nat) (st st' : Sim.game) :
  Sim.game_loop fuel possible_words table fixed_first_guess_idx ai st
  = Some (Ok st') →
  Forall valid_pattern (Sim.game_feedbacks st) →
  Forall valid_pattern (Sim.game_feedbacks st').
Proof.
  revert st. induction fuel as [|fuel IH]; intros st Hrun Hvalid; [done|].
  simpl in Hrun.
  destruct (Sim.game_round _ _ _ _ st) as [[st1 b]|e] eqn:Hround; [|done].
  apply game_round_inv in Hround
    as (gi & g & c & _ & _ & _ & _ & Hfb & _ & _ & _).
  assert (Hvalid1 : Forall valid_pattern (Sim.game_feedbacks st1)).
  { rewrite Hfb. apply Forall_app. split; [done|].
    apply Forall_singleton, fb_list_valid. }
  destruct b; [by injection Hrun as <- | by eapply IH].
Qed.

End SameFeedback.

(** ** The live display looks the words up by feedback *)

Lemma display_loop_own (all_game_feedbacks : list (list (list Z)))
    (all_game_words : list (list string)) (l1 : list (list (list Z)))
    (l2 : list (list string)) (acc : list string) :
  length l1 = length l2 →
  (∀ i fbs ws, l1 !! i = Some fbs → l2 !! i = Some ws →
     ∃ idx, list_index all_game_feedbacks fbs = Ok idx
            ∧ list_getitem all_game_words idx = Ok ws) →
  for_each l1
    (λ last_games display_lines,
       idx ← list_index all_game_feedbacks last_games;
       words ← list_getitem all_game_words idx;
       lines ← format_game last_games words;
       Ok (display_lines ++ lines ++ [""]))
    acc
  = for_each (zip l1 l2)
      (λ game display_lines,
         lines ← format_game game.1 game.2;
         Ok (display_lines ++ lines ++ [""]))
      acc.
Proof.
  revert l2 acc. induction l1 as [|fbs l1 IH];
    intros [|ws l2] acc Hlen Hsuffix; try done.
  simpl zip_with. rewrite !for_each_cons. cbv beta.
  destruct (Hsuffix 0%nat fbs ws) as (idx & Hidx & Hget); [done | done |].
  rewrite Hidx. simpl mbind at 1. cbv beta. rewrite Hget. simpl.
  destruct (format_game fbs ws) as [lines|e]; simpl; [|done].
  apply IH; [by injection Hlen|].
  intros i fbs' ws' Hfbs' Hws'. by apply (Hsuffix (S i)).
Qed.

Lemma display_games_own (all_game_feedbacks : list (list (list Z)))
    (all_game_words : list (list string)) :
  length all_game_feedbacks = length all_game_words →
  (∀ i j fbs wi wj,
     all_game_feedbacks !! i = Some fbs → all_game_feedbacks !! j = Some fbs →
     all_game_words !! i = Some wi → all_game_words !! j = Some wj →
     wi = wj) →
  display_games all_game_feedbacks all_game_words
  = for_each (last_n (Z.to_nat MAX_DISPLAY_GAMES)
                (zip all_game_feedbacks all_game_words))
      (λ game display_lines,
         lines ← format_game game.1 game.2;
         Ok (display_lines ++ lines ++ [""]))
      [].
Proof.
  intros Hlen Hsame. unfold display_games, last_n.
  rewrite length_zip_with_l_eq by done.
  set (d := (length all_game_feedbacks - Z.to_nat MAX_DISPLAY_GAMES)%nat).
  rewrite zip_with_drop.
  apply display_loop_own; [rewrite !length_drop; lia|].
  intros i fbs ws Hfbs Hws.
  rewrite lookup_drop in Hfbs. rewrite lookup_drop in Hws.
  destruct (list_index_spec all_game_feedbacks fbs)
    as (idx & Hidx & Hat & Hlt); [by eapply list_elem_of_lookup_2|].
  exists idx. split; [done|]. unfold list_getitem.
  destruct (lookup_lt_is_Some_2 all_game_words idx) as [w0 Hw0]; [lia|].
  rewrite Hw0. f_equal.
  exact (Hsame idx (d + i)%nat fbs w0 ws Hat Hfbs Hw0 Hws).
Qed.

(** With valid patterns in the record, the grids are computed: seven
    lines for each of the last three games. *)
Lemma own_display_total (games : list (list (list Z) * list string))
    (acc : list string) :
  Forall (λ game, Forall valid_pattern game.1) games →
  ∃ grid,
    for_each games
      (λ game display_lines,
         lines ← format_game game.1 game.2;
         Ok (display_lines ++ lines ++ [""]))
      acc
    = Ok grid
    ∧ length grid = (length acc + 7 * length games)%nat.
Proof.
  revert acc. induction games as [|[fbs ws] games IH]; intros acc Hvalid.
  - exists acc. split; [done | simpl; lia].
  - apply Forall_cons in Hvalid as [Hfbs Hvalid]. rewrite for_each_cons.
    simpl in Hfbs. simpl.
    destruct (format_game_lines fbs ws) as (lines & -> & Hlen & _).
    { eapply Forall_impl; [exact Hfbs|]. by intros fb [_ Hfb]. }
    simpl. destruct (IH (acc ++ lines ++ [""]) Hvalid) as (grid & -> & Hgrid).
    exists grid. split; [done|]. rewrite Hgrid, !length_app, Hlen.
    unfold MAX_GUESSES. simpl. lia.
Qed.

(** ** The simulation loop *)

Section SimulationRun.
Context {F : Type} `{PyFloat F}.
Variable possible_words : list string.
Hypothesis Hwords : Forall (λ w, (5 ≤ String.length w)%nat) possible_words.
Variables (fuel fixed_first_guess_idx : nat).

Let table : list (list Z) :=
  (λ g, cell g <$> possible_words) <$> possible_words.

Lemma recorded_snoc (k : nat) (rs : list Z) (afb : list (list (list Z)))
    (agw : list (list string)) (st : Sim.game) :
  Simulation.recorded fuel possible_words table
    fixed_first_guess_idx k rs afb agw →
  Sim.game_loop fuel possible_words table fixed_first_guess_idx k
    (Sim.game_init possible_words) = Some (Ok st) →
  Simulation.recorded fuel possible_words table
    fixed_first_guess_idx (S k) (rs ++ [Sim.guesses st]) (afb ++ [Sim.game_feedbacks st])
    (agw ++ [Sim.game_words st]).
Proof.
  intros (Hr & Hf & Hw & Hgames) Hloop. unfold Simulation.recorded.
  rewrite !length_app. simpl. split_and!; [lia | lia | lia |].
  intros j Hj. destruct (decide (j < k)%nat) as [Hlt|Hge].
  - destruct (Hgames j Hlt) as (stj & Hj1 & Hj2 & Hj3 & Hj4).
    exists stj. rewrite !lookup_app_l by lia. done.
  - assert (j = k) as -> by lia. exists st.
    split; [done|]. rewrite !lookup_app_r by lia.
    rewrite Hr, Hf, Hw, Nat.sub_diag. done.
Qed.

(** The display of the last games, each with its own words. *)
Lemma recorded_display (k : nat) (rs : list Z) (afb : list (list (list Z)))
    (agw : list (list string)) :
  Simulation.recorded fuel possible_words table
    fixed_first_guess_idx k rs afb agw →
  ∃ grid,
    display_games afb agw = Ok grid ∧
    for_each (last_n (Z.to_nat MAX_DISPLAY_GAMES) (zip afb agw))
      (λ game display_lines,
         lines ← format_game game.1 game.2;
         Ok (display_lines ++ lines ++ [""]))
      []
    = Ok grid ∧
    length grid = (7 * (k `min` 3))%nat.
Proof.
  intros (Hr & Hf & Hw & Hgames).
  assert (Hown : display_games afb agw
            = for_each (last_n (Z.to_nat MAX_DISPLAY_GAMES) (zip afb agw))
                (λ game display_lines,
                   lines ← format_game game.1 game.2;
                   Ok (display_lines ++ lines ++ [""]))
                []).
  { apply display_games_own; [lia|].
    intros i j fbs wi wj Hi Hj Hwi Hwj.
    destruct (Hgames i) as (sti & Hloopi & _ & Hfi & Hwi');
      [apply lookup_lt_Some in Hi; lia|].
    destruct (Hgames j) as (stj & Hloopj & _ & Hfj & Hwj');
      [apply lookup_lt_Some in Hj; lia|].
    assert (Sim.game_words sti = Sim.game_words stj); [|congruence].
    eapply (same_feedback_same_words possible_words Hwords); [done | done |].
    congruence. }
  destruct (own_display_total
              (last_n (Z.to_nat MAX_DISPLAY_GAMES) (zip afb agw)) [])
    as (grid & Hgrid & Hlen).
  { apply Forall_forall. intros [fbs ws] Hin. simpl.
    unfold last_n in Hin. apply list_elem_of_lookup in Hin as [i Hi].
    rewrite lookup_drop in Hi.
    apply lookup_zip_with_Some in Hi as (fbs' & ws' & [= <- <-] & Hfbs & _).
    destruct (Hgames (length (zip afb agw) - Z.to_nat MAX_DISPLAY_GAMES + i)%nat)
      as (st & Hloop & _ & Hfi & _); [apply lookup_lt_Some in Hfbs; lia|].
    assert (fbs = Sim.game_feedbacks st) as -> by congruence.
    eapply (game_loop_feedbacks_valid possible_words); [done|].
    constructor. }
  exists grid. rewrite Hown. split_and!; [done | done |].
  rewrite Hlen. unfold last_n. rewrite length_drop, length_zip_with_l_eq by lia.
  unfold MAX_DISPLAY_GAMES. simpl. lia.
Qed.

Lemma play_recorded (k : nat) (s s' : Simulation.run) :
  Simulation.recorded fuel possible_words table
    fixed_first_guess_idx k (Simulation.results s) (Simulation.all_game_feedbacks s)
    (Simulation.all_game_words s) →
  Simulation.play fuel possible_words table fixed_first_guess_idx k s
  = Some (Ok s') →
  Simulation.recorded fuel possible_words table
    fixed_first_guess_idx (S k) (Simulation.results s') (Simulation.all_game_feedbacks s')
    (Simulation.all_game_words s') ∧
  display_games (Simulation.all_game_feedbacks s')
    (Simulation.all_game_words s')
  = Ok (Simulation.display_lines s').
Proof.
  intros Hrec Hplay. unfold Simulation.play in Hplay.
  destruct (Sim.game_loop _ _ _ _ _ _) as [[st|e]|] eqn:Hloop; [|done|done].
  cbv zeta in Hplay. simpl in Hplay.
  destruct (display_games _ _) as [grid|e] eqn:Hgrid; [|done].
  simpl in Hplay. injection Hplay as <-. simpl.
  split; [by apply recorded_snoc | done].
Qed.

Lemma play_total (k : nat) (s : Simulation.run) (st : Sim.game) :
  Simulation.recorded fuel possible_words table
    fixed_first_guess_idx k (Simulation.results s) (Simulation.all_game_feedbacks s)
    (Simulation.all_game_words s) →
  Sim.game_loop fuel possible_words table fixed_first_guess_idx k
    (Sim.game_init possible_words) = Some (Ok st) →
  ∃ s', Simulation.play fuel possible_words table fixed_first_guess_idx k s
        = Some (Ok s').
Proof.
  intros Hrec Hloop. unfold Simulation.play. rewrite Hloop. cbv zeta. simpl.
  destruct (recorded_display (S k) _ _ _ (recorded_snoc k _ _ _ st Hrec Hloop))
    as (grid & -> & _).
  simpl. by eexists.
Qed.

Lemma games_app (l1 l2 : list nat) (s : Simulation.run) :
  Simulation.games fuel possible_words table fixed_first_guess_idx
    (l1 ++ l2) s
  = match Simulation.games fuel possible_words table fixed_first_guess_idx
            l1 s with
    | Some (Ok s1) =>
        Simulation.games fuel possible_words table fixed_first_guess_idx l2 s1
    | r => r
    end.
Proof.
  revert s. induction l1 as [|ai l1 IH]; intros s; simpl; [done|].
  destruct (Simulation.play _ _ _ _ _ _) as [[s1|e]|]; [apply IH | done | done].
Qed.

Lemma games_recorded (k : nat) (s : Simulation.run) :
  Simulation.games fuel possible_words table fixed_first_guess_idx
    (seq 0 k) Simulation.run_init = Some (Ok s) →
  Simulation.recorded fuel possible_words table
    fixed_first_guess_idx k (Simulation.results s) (Simulation.all_game_feedbacks s)
    (Simulation.all_game_words s) ∧
  ((0 < k)%nat →
   display_games (Simulation.all_game_feedbacks s)
     (Simulation.all_game_words s)
   = Ok (Simulation.display_lines s)).
Proof.
  revert s. induction k as [|k IH]; intros s Hrun.
  - injection Hrun as <-. split; [|lia].
    unfold Simulation.recorded. simpl. split_and!; [done | done | done |]. lia.
  - rewrite seq_S, games_app in Hrun. simpl in Hrun.
    destruct (Simulation.games _ _ _ _ (seq 0 k) _) as [[s0|e]|]; [|done|done].
    destruct (IH s0 eq_refl) as [Hrec _]. simpl in Hrun.
    destruct (Simulation.play _ _ _ _ _ _) as [[s1|e]|] eqn:Hplay;
      [|done|done].
    injection Hrun as <-.
    destruct (play_recorded k s0 s1 Hrec Hplay) as [Hrec1 Hdisp]. done.
Qed.

Lemma games_total (k : nat) :
  (∀ j, (j < k)%nat →
        ∃ st, Sim.game_loop fuel possible_words table fixed_first_guess_idx j
                (Sim.game_init possible_words) = Some (Ok st)) →
  ∃ s, Simulation.games fuel possible_words table fixed_first_guess_idx
         (seq 0 k) Simulation.run_init = Some (Ok s).
Proof.
  induction k as [|k IH]; intros Hgames; [by eexists|].
  destruct IH as [s0 Hs0]; [intros j Hj; apply Hgames; lia|].
  destruct (games_recorded k s0 Hs0) as [Hrec _].
  destruct (Hgames k) as [st Hst]; [lia|].
  destruct (play_total k s0 st Hrec Hst) as [s1 Hs1].
  exists s1. rewrite seq_S, games_app, Hs0. simpl. by rewrite Hs1.
Qed.

(** Only the game whose answer is the opening guess takes one round. *)
Lemma one_round_iff_opening (ai : nat) (st : Sim.game) :
  Sim.game_loop fuel possible_words table fixed_first_guess_idx ai
    (Sim.game_init possible_words) = Some (Ok st) →
  Sim.guesses st = 1 ↔ ai = fixed_first_guess_idx.
Proof.
  intros Hloop. destruct fuel as [|fuel']; [done|]. simpl in Hloop.
  destruct (Sim.game_round _ _ _ _ _) as [[st1 b]|e] eqn:Hround; [|done].
  apply game_round_inv in Hround
    as (gi & g & c & Hchoice & _ & _ & Hk & _ & _ & Hb & _).
  simpl in *. destruct Hchoice as [[_ ->]|[Hne _]]; [|done].
  rewrite orb_false_r in Hb. destruct b.
  - injection Hloop as <-. symmetry in Hb. apply bool_decide_eq_true in Hb.
    split; [done | lia].
  - symmetry in Hb. apply bool_decide_eq_false in Hb.
    apply game_loop_extends in Hloop as [Hlt _]. split; [lia | done].
Qed.

End SimulationRun.

(** Every game of a list of 5-letter words that holds the opening guess
    stops within [MAX_GUESSES] rounds, so the loop over the first [k]
    answers runs to its end. *)
Lemma simulation_prefix_runs {F : Type} `{PyFloat F}
    (possible_words : list string) (fuel fixed_first_guess_idx k : nat)
    (first : string) :
  Forall is_word possible_words →
  Sim.scores_above_init →
  possible_words !! fixed_first_guess_idx = Some first →
  (Z.to_nat MAX_GUESSES ≤ fuel)%nat →
  (k ≤ length possible_words)%nat →
  (∀ j, (j < k)%nat →
     ∃ a st,
       possible_words !! j = Some a ∧
       Sim.game_loop fuel possible_words
         ((λ g, cell g <$> possible_words) <$> possible_words)
         fixed_first_guess_idx j (Sim.game_init possible_words)
       = Some (Ok st) ∧
       Sim.game_done possible_words j a st) ∧
  ∃ s, Simulation.games fuel possible_words
         ((λ g, cell g <$> possible_words) <$> possible_words)
         fixed_first_guess_idx (seq 0 k) Simulation.run_init
       = Some (Ok s).
Proof.
  intros Hwords Hpos Hfirst Hfuel Hk.
  assert (Hgames : ∀ j, (j < k)%nat →
     ∃ a st,
       possible_words !! j = Some a ∧
       Sim.game_loop fuel possible_words
         ((λ g, cell g <$> possible_words) <$> possible_words)
         fixed_first_guess_idx j (Sim.game_init possible_words)
       = Some (Ok st) ∧
       Sim.game_done possible_words j a st).
  { intros j Hj.
    destruct (lookup_lt_is_Some_2 possible_words j) as [a Ha]; [lia|].
    destruct (game_loop_spec possible_words Hwords Hpos fixed_first_guess_idx
                j first a Hfirst Ha fuel (Sim.game_init possible_words))
      as (st & Hrun & Hdone).
    - apply (reachable_inv possible_words Hwords Hpos fixed_first_guess_idx
               j first a); [done | done | lia | constructor].
    - unfold MAX_GUESSES in *. simpl. lia.
    - by exists a, st. }
  split; [done|].
  apply games_total; [by apply is_word_long|].
  intros j Hj. destruct (Hgames j Hj) as (a & st & _ & Hrun & _).
  by exists st.
Qed.

Lemma py_max_bounds (xs : list Z) (lo hi : Z) :
  xs ≠ [] → Forall (λ x, lo ≤ x ≤ hi) xs →
  ∃ m, py_max xs = Ok m ∧ lo ≤ m ≤ hi.
Proof.
  destruct xs as [|x xs]; [done|]. intros _ Hall.
  apply Forall_cons in Hall as [Hx Hxs]. simpl. eexists. split; [done|].
  revert x Hx. induction Hxs as [|y ys Hy Hys IH]; intros x Hx; simpl; [done|].
  apply IH. lia.
Qed.

(** X18. On a list of 5-letter words that holds the opening guess the
    simulation runs to its end without an exception: it records one
    result per answer, the number of rounds of that answer's game, between
    1 and [MAX_GUESSES]; exactly one game takes a single round, the one
    whose answer is the first occurrence of the opening guess; and the
    worst result reported is at most [MAX_GUESSES]. *)
Theorem simulation_results {F : Type} `{PyFloat F}
    (possible_words : list string) (fuel : nat) :
  Forall is_word possible_words →
  "raise" ∈ possible_words →
  Sim.scores_above_init →
  (Z.to_nat MAX_GUESSES ≤ fuel)%nat →
  ∃ s first,
    Simulation.simulation fuel possible_words = Some (Ok s) ∧
    list_index possible_words "raise" = Ok first ∧
    length (Simulation.results s) = length possible_words ∧
    (∀ ai, (ai < length possible_words)%nat →
       ∃ st, Sim.play_game fuel possible_words ai = Some (Ok st) ∧
             Simulation.results s !! ai = Some (Sim.guesses st) ∧
             Simulation.all_game_feedbacks s !! ai
             = Some (Sim.game_feedbacks st) ∧
             Simulation.all_game_words s !! ai = Some (Sim.game_words st)) ∧
    Forall (λ r, 1 ≤ r ≤ MAX_GUESSES) (Simulation.results s) ∧
    (∀ ai, Simulation.results s !! ai = Some 1 ↔ ai = first) ∧
    ∃ worst, py_max (Simulation.results s) = Ok worst
             ∧ 1 ≤ worst ≤ MAX_GUESSES.
Proof.
  intros Hwords Hraise Hpos Hfuel.
  pose proof (is_word_long possible_words Hwords) as Hlong.
  destruct (list_index_spec possible_words "raise" Hraise)
    as (first & Hidx & Hfirst & Hlt).
  destruct (simulation_prefix_runs possible_words fuel first
              (length possible_words) "raise" Hwords Hpos Hfirst Hfuel)
    as [Hgames [s Hs]]; [done|].
  destruct (games_recorded possible_words fuel first _ s Hs)
    as [(Hr & Hf & Hw & Hrec) _].
  assert (Hplay : ∀ ai,
            Sim.play_game fuel possible_words ai
            = Sim.game_loop fuel possible_words
                ((λ g, cell g <$> possible_words) <$> possible_words)
                first ai (Sim.game_init possible_words)).
  { intros ai. unfold Sim.play_game.
    by rewrite (build_feedback_table_ok possible_words Hlong), Hidx. }
  assert (Hrange : Forall (λ r, 1 ≤ r ≤ MAX_GUESSES) (Simulation.results s)).
  { apply Forall_lookup. intros j r Hj.
    assert (Hjlt : (j < length possible_words)%nat)
      by (apply lookup_lt_Some in Hj; lia).
    destruct (Hrec j Hjlt) as (st & Hrun & Hres & _).
    destruct (Hgames j Hjlt) as (a & st' & _ & Hrun' & Hdone).
    assert (st' = st) as -> by congruence.
    destruct Hdone as (Hk & _). congruence. }
  exists s, first. split_and!.
  - unfold Simulation.simulation.
    by rewrite (build_feedback_table_ok possible_words Hlong), Hidx.
  - done.
  - done.
  - intros ai Hai. destruct (Hrec ai Hai) as (st & Hrun & Hres).
    exists st. by rewrite Hplay.
  - done.
  - intros ai. split.
    + intros Hone.
      assert (Hai : (ai < length possible_words)%nat)
        by (apply lookup_lt_Some in Hone; lia).
      destruct (Hrec ai Hai) as (st & Hrun & Hres & _).
      apply (one_round_iff_opening possible_words fuel first ai st Hrun).
      congruence.
    + intros ->. destruct (Hrec first Hlt) as (st & Hrun & Hres & _).
      rewrite Hres. f_equal.
      by apply (one_round_iff_opening possible_words fuel first first st Hrun).
  - apply py_max_bounds; [|done].
    intros Hnil. rewrite Hnil in Hr. simpl in Hr. lia.
Qed.

Lemma simulation_results_witness :
  ∃ (s : Simulation.run) (first : nat),
    Simulation.simulation (F := R) 6 ["raise"; "abcde"] = Some (Ok s) ∧
    list_index ["raise"; "abcde"] "raise" = Ok first ∧
    length (Simulation.results s) = length ["raise"; "abcde"] ∧
    (∀ ai, (ai < length ["raise"; "abcde"])%nat →
       ∃ st, Sim.play_game (F := R) 6 ["raise"; "abcde"] ai = Some (Ok st) ∧
             Simulation.results s !! ai = Some (Sim.guesses st) ∧
             Simulation.all_game_feedbacks s !! ai
             = Some (Sim.game_feedbacks st) ∧
             Simulation.all_game_words s !! ai = Some (Sim.game_words st)) ∧
    Forall (λ r, 1 ≤ r ≤ MAX_GUESSES) (Simulation.results s) ∧
    (∀ ai, Simulation.results s !! ai = Some 1 ↔ ai = first) ∧
    ∃ worst, py_max (Simulation.results s) = Ok worst
             ∧ 1 ≤ worst ≤ MAX_GUESSES.
Proof.
  apply (simulation_results (F := R) ["raise"; "abcde"] 6).
  - repeat constructor.
  - apply (bool_decide_unpack ("raise" ∈ ["raise"; "abcde"])). exact I.
  - apply sim_scores_R.
  - vm_compute. lia.
Defined.

(** X19. After every game the live display shows each of the last
    [MAX_DISPLAY_GAMES] games with its own words, although it looks the
    words up at the first game whose feedback record equals the game's:
    games with equal feedback records have made the same guesses. The
    grids are computed without an exception, seven lines a game. *)
Theorem display_shows_own_words {F : Type} `{PyFloat F}
    (possible_words : list string) (table : list (list Z))
    (fuel fixed_first_guess_idx k : nat) (s : Simulation.run) :
  build_feedback_table possible_words = Ok table →
  Simulation.games fuel possible_words table fixed_first_guess_idx
    (seq 0 (S k)) Simulation.run_init = Some (Ok s) →
  for_each (last_n (Z.to_nat MAX_DISPLAY_GAMES)
              (zip (Simulation.all_game_feedbacks s)
                 (Simulation.all_game_words s)))
    (λ game display_lines,
       lines ← format_game game.1 game.2;
       Ok (display_lines ++ lines ++ [""]))
    []
  = Ok (Simulation.display_lines s) ∧
  length (Simulation.display_lines s) = (7 * (S k `min` 3))%nat ∧
  ∀ i j fbs,
    Simulation.all_game_feedbacks s !! i = Some fbs →
    Simulation.all_game_feedbacks s !! j = Some fbs →
    Simulation.all_game_words s !! i = Simulation.all_game_words s !! j.
Proof.
  intros Htable Hrun.
  apply build_feedback_table_inv in Htable as [Hlong ->].
  destruct (games_recorded possible_words fuel fixed_first_guess_idx (S k) s
              Hrun) as [Hrec Hdisp].
  destruct (recorded_display possible_words Hlong fuel fixed_first_guess_idx
              (S k) _ _ _ Hrec) as (grid & Hgrid & Hown & Hlen).
  rewrite Hdisp in Hgrid by lia. injection Hgrid as <-.
  split_and!; [done | done |].
  intros i j fbs Hi Hj. destruct Hrec as (_ & Hf & Hw & Hrec).
  destruct (Hrec i) as (sti & Hloopi & _ & Hfi & ->);
    [apply lookup_lt_Some in Hi; lia|].
  destruct (Hrec j) as (stj & Hloopj & _ & Hfj & ->);
    [apply lookup_lt_Some in Hj; lia|].
  f_equal.
  eapply (same_feedback_same_words possible_words Hlong); [done | done |].
  congruence.
Qed.

Lemma display_shows_own_words_witness :
  ∃ s : Simulation.run,
    Simulation.games (F := R) 6 ["raise"; "abcde"]
      ((λ g, cell g <$> ["raise"; "abcde"]) <$> ["raise"; "abcde"]) 0
      (seq 0 2) Simulation.run_init = Some (Ok s) ∧
    for_each (last_n (Z.to_nat MAX_DISPLAY_GAMES)
                (zip (Simulation.all_game_feedbacks s)
                   (Simulation.all_game_words s)))
      (λ game display_lines,
         lines ← format_game game.1 game.2;
         Ok (display_lines ++ lines ++ [""]))
      []
    = Ok (Simulation.display_lines s) ∧
    length (Simulation.display_lines s) = (7 * (2 `min` 3))%nat ∧
    ∀ i j fbs,
      Simulation.all_game_feedbacks s !! i = Some fbs →
      Simulation.all_game_feedbacks s !! j = Some fbs →
      Simulation.all_game_words s !! i = Simulation.all_game_words s !! j.
Proof.
  destruct (simulation_prefix_runs (F := R) ["raise"; "abcde"] 6 0 2 "raise")
    as [_ [s Hs]];
    [repeat constructor | apply sim_scores_R | reflexivity
    | vm_compute; lia | simpl; lia |].
  exists s. split; [exact Hs|].
  apply (display_shows_own_words (F := R) ["raise"; "abcde"]
           ((λ g, cell g <$> ["raise"; "abcde"]) <$> ["raise"; "abcde"])
           6 0 1 s); [reflexivity | exact Hs].
Defined.

(** ** The final report *)

Lemma counter_incr_spec (k : Z) (dist : list (Z * Z)) :
  (∀ k', counter_getitem (counter_incr k dist) k'
         = counter_getitem dist k' + (if decide (k = k') then 1 else 0)) ∧
  (∀ k', k' ∈ (counter_incr k dist).*1 ↔ k' = k ∨ k' ∈ dist.*1) ∧
  (NoDup dist.*1 → NoDup (counter_incr k dist).*1) ∧
  foldr Z.add 0 (counter_incr k dist).*2 = foldr Z.add 0 dist.*2 + 1.
Proof.
  induction dist as [|[k0 c0] dist (IHget & IHin & IHnd & IHsum)]; simpl.
  - split_and!.
    + intros k'. destruct (decide (k = k')); lia.
    + intros k'. rewrite list_elem_of_singleton, elem_of_nil. tauto.
    + intros _. apply NoDup_singleton.
    + lia.
  - destruct (decide (k0 = k)) as [->|Hne]; simpl.
    + split_and!.
      * intros k'. destruct (decide (k = k')); lia.
      * intros k'. rewrite !elem_of_cons. tauto.
      * done.
      * lia.
    + split_and!.
      * intros k'. destruct (decide (k0 = k')) as [->|Hne'].
        -- rewrite decide_False by done. lia.
        -- apply IHget.
      * intros k'. rewrite !elem_of_cons, IHin. tauto.
      * intros Hnd. apply NoDup_cons in Hnd as [Hk0 Hnd].
        apply NoDup_cons. split; [|by apply IHnd].
        rewrite IHin. intros [?|?]; [congruence | done].
      * rewrite <- Z.add_assoc. f_equal. exact IHsum.
Qed.

Lemma count_in_snoc {A} `{EqDecision A} (x y : A) (l : list A) :
  count_in x (l ++ [y])
  = (count_in x l + (if decide (y = x) then 1 else 0))%nat.
Proof.
  unfold count_in. rewrite filter_app, length_app, filter_cons, filter_nil.
  by destruct (decide (y = x)).
Qed.

Lemma Counter_spec (xs : list Z) :
  (∀ k, counter_getitem (Counter xs) k = Z.of_nat (count_in k xs)) ∧
  (∀ k, k ∈ (Counter xs).*1 ↔ k ∈ xs) ∧
  NoDup (Counter xs).*1 ∧
  foldr Z.add 0 (Counter xs).*2 = Z.of_nat (length xs).
Proof.
  unfold Counter.
  induction xs as [|x xs (IHget & IHin & IHnd & IHsum)] using rev_ind.
  - simpl. split_and!; [done | done | constructor | done].
  - rewrite foldl_app. simpl.
    destruct (counter_incr_spec x (foldl (λ dist k, counter_incr k dist) [] xs))
      as (Hget & Hin & Hnd & Hsum).
    split_and!.
    + intros k. rewrite Hget, IHget, count_in_snoc.
      destruct (decide (x = k)); lia.
    + intros k. rewrite Hin, IHin, elem_of_app, list_elem_of_singleton. tauto.
    + by apply Hnd.
    + rewrite Hsum, IHsum, length_app. simpl. lia.
Qed.

Lemma counter_values (dist : list (Z * Z)) :
  NoDup dist.*1 → (λ k, counter_getitem dist k) <$> dist.*1 = dist.*2.
Proof.
  induction dist as [|[k c] dist IH]; intros Hnd; [done|].
  rewrite !fmap_cons in *. cbn [fst snd] in *.
  apply NoDup_cons in Hnd as [Hk Hnd].
  rewrite <- IH by done. f_equal; [simpl; by rewrite decide_True|].
  apply list_fmap_ext. intros i k' Hk'. simpl.
  rewrite decide_False; [done|]. intros ->. apply Hk.
  by eapply list_elem_of_lookup_2.
Qed.

Lemma sum_permutation (l1 l2 : list Z) :
  l1 ≡ₚ l2 → foldr Z.add 0 l1 = foldr Z.add 0 l2.
Proof. induction 1; simpl; lia. Qed.

Lemma sorted_nodup_strict (l : list Z) :
  StronglySorted Z.le l → NoDup l → StronglySorted Z.lt l.
Proof.
  induction 1 as [|x l Hl IH Hx]; intros Hnd; constructor.
  - apply IH. by apply NoDup_cons in Hnd as [_ ?].
  - apply NoDup_cons in Hnd as [Hnot _].
    apply Forall_forall. intros y Hy. rewrite Forall_forall in Hx.
    specialize (Hx y Hy). assert (x ≠ y) by (intros ->; done). lia.
Qed.

Lemma graph_fst_snd {A B} (f : A → B) (l : list A) :
  ((λ k, (k, f k)) <$> l).*1 = l ∧ ((λ k, (k, f k)) <$> l).*2 = f <$> l.
Proof.
  induction l as [|x l [IH1 IH2]]; [done|].
  rewrite !fmap_cons. cbn [fst snd]. by rewrite IH1, IH2.
Qed.

(** X20. The distribution printed at the end lists the numbers of
    guesses that occurred in strictly increasing order, each with the
    number of games that took that many guesses, and the counts add up to
    the number of games. *)
Theorem distribution_counts (results : list Z) :
  StronglySorted Z.lt (distribution results).*1 ∧
  (∀ k n, (k, n) ∈ distribution results
          ↔ k ∈ results ∧ n = Z.of_nat (count_in k results)) ∧
  foldr Z.add 0 (distribution results).*2 = Z.of_nat (length results).
Proof.
  destruct (Counter_spec results) as (Hget & Hin & Hnd & Hsum).
  unfold distribution. cbv zeta.
  set (dist := Counter results) in *.
  pose proof (merge_sort_Permutation Z.le dist.*1) as Hperm.
  destruct (graph_fst_snd (counter_getitem dist) (merge_sort Z.le dist.*1))
    as [Hkeys Hvalues].
  split_and!.
  - rewrite Hkeys. apply sorted_nodup_strict.
    + apply StronglySorted_merge_sort; apply _.
    + by rewrite Hperm.
  - intros k n. rewrite list_elem_of_fmap. split.
    + intros (k' & [= -> ->] & Hk). rewrite Hperm, Hin in Hk.
      split; [done | apply Hget].
    + intros [Hk ->]. exists k. split; [by rewrite Hget|].
      by rewrite Hperm, Hin.
  - rewrite Hvalues, <- Hsum, <- (counter_values dist Hnd).
    apply sum_permutation. by apply fmap_Permutation.
Qed.

(** ** The candidates of the simulator *)

(** X21. At the top of every round of a simulated game the candidate
    indices are exactly the indices of the words that, taken as the
    answer, give every guess made so far the feedback it received; they
    are kept in increasing order. *)
Theorem sim_candidates_exact {F : Type} `{PyFloat F}
    (possible_words : list string) (table : list (list Z))
    (fixed_first_guess_idx ai : nat) (st : Sim.game) :
  build_feedback_table possible_words = Ok table →
  Sim.reachable possible_words table fixed_first_guess_idx ai st →
  sublist (Sim.remaining st) (seq 0 (length possible_words)) ∧
  ∀ r, r ∈ Sim.remaining st ↔
       ∃ a, possible_words !! r = Some a
            ∧ Forall2 (λ w fb, get_feedback w a = Ok fb)
                (Sim.game_words st) (Sim.game_feedbacks st).
Proof.
  intros Htable Hreach.
  apply build_feedback_table_inv in Htable as [Hlong ->].
  assert (Hinv : length (Sim.game_words st) = length (Sim.game_feedbacks st)
            ∧ sublist (Sim.remaining st) (seq 0 (length possible_words))
            ∧ ∀ r, r ∈ Sim.remaining st ↔
                ∃ a, possible_words !! r = Some a
                     ∧ Forall2 (λ w fb, get_feedback w a = Ok fb)
                         (Sim.game_words st) (Sim.game_feedbacks st));
    [|by destruct Hinv as (_ & ? & ?)].
  induction Hreach as [|st st' Hreach (Hlen & Hsub & Hmem) Hround].
  - unfold Sim.game_init. simpl. split_and!; [done | done |].
    intros r. rewrite elem_of_seq. split.
    + intros [_ Hr]. destruct (lookup_lt_is_Some_2 possible_words r) as [a Ha];
        [lia|].
      exists a. split; [done | constructor].
    + intros (a & Ha & _). apply lookup_lt_Some in Ha. lia.
  - apply game_round_inv in Hround
      as (gi & g & c & _ & Hg & Hget & _ & Hfbs & Hws & _ & Hfilter).
    destruct (table_cell_code possible_words gi ai c Hlong Hget)
      as (g0 & a0 & Hg0 & _ & _ & _ & Hcode).
    assert (Hrange : Forall (λ r, (r < length possible_words)%nat)
                       (Sim.remaining st)).
    { apply Forall_forall. intros r Hr.
      apply Hmem in Hr as (a & Ha & _). by eapply lookup_lt_Some. }
    rewrite (table_filter_ok possible_words gi g c) in Hfilter by done.
    injection Hfilter as Hrem. rewrite <- Hrem, Hws, Hfbs.
    split_and!.
    + rewrite !length_app. simpl. lia.
    + etrans; [apply sublist_filter | done].
    + intros r. rewrite list_elem_of_filter, Hmem, list_lookup_fmap.
      assert (Hcell : ∀ a, possible_words !! r = Some a →
                cell g a = c ↔ get_feedback g a = Ok (fb_list c)).
      { intros a Ha. rewrite Forall_forall in Hlong.
        destruct (cell_code g a) as (fb & Hfb & Hvalid & Hcell & Hdec);
          [eapply Hlong, list_elem_of_lookup_2; done
          |eapply Hlong, list_elem_of_lookup_2; done|].
        split.
        - intros <-. by rewrite Hdec.
        - intros Hfb'. rewrite Hcell, Hcode. f_equal. congruence. }
      split.
      * intros [Hc (a & Ha & Hall)]. exists a. split; [done|].
        apply Forall2_app; [done|]. constructor; [|constructor].
        apply Hcell; [done|]. rewrite Ha in Hc. simpl in Hc. congruence.
      * intros (a & Ha & Hall).
        apply Forall2_app_inv in Hall as [Hall Hlast]; [|done].
        apply Forall2_cons_1 in Hlast as [Hlast _].
        split; [|by exists a]. rewrite Ha. simpl. f_equal. by apply Hcell.
Qed.

Lemma sim_candidates_exact_witness :
  sublist [1%nat] (seq 0 (length ["raise"; "abcde"])) ∧
  ∀ r, r ∈ [1%nat] ↔
       ∃ a, ["raise"; "abcde"] !! r = Some a
            ∧ Forall2 (λ w fb, get_feedback w a = Ok fb)
                ["raise"] [[0; 1; 0; 0; 2]].
Proof.
  apply (sim_candidates_exact (F := R) ["raise"; "abcde"]
           ((λ g, cell g <$> ["raise"; "abcde"]) <$> ["raise"; "abcde"])
           0 1
           {| Sim.remaining := [1%nat]; Sim.guesses := 1;
              Sim.game_feedbacks := [[0; 1; 0; 0; 2]];
              Sim.game_words := ["raise"] |}).
  - reflexivity.
  - apply (Sim.reachable_round _ _ _ _ (Sim.game_init ["raise"; "abcde"]));
      [constructor | reflexivity].
Defined.

(** ** What stops the script before the first game *)

Lemma list_index_absent {A} `{EqDecision A} (l : list A) (x : A) :
  x ∉ l → list_index l x = Raise ValueError.
Proof.
  induction l as [|y l IH]; intros Hnot; [done|]. simpl.
  rewrite decide_False by (intros ->; apply Hnot; by left).
  rewrite IH; [done|]. intros Hin. apply Hnot. by right.
Qed.

(** X22. The simulator needs a list of words of at least five characters
    that holds the opening guess: with a shorter word in the list the
    script stops with an [IndexError] while the table is built, and with
    no ["raise"] in a list of well-formed words it stops with a
    [ValueError] before the first game. *)
Theorem simulation_start_failures {F : Type} `{PyFloat F}
    (possible_words : list string) (fuel : nat) :
  ((∃ w, w ∈ possible_words ∧ (String.length w < 5)%nat) →
   Simulation.simulation fuel possible_words = Some (Raise IndexError)) ∧
  (Forall (λ w, (5 ≤ String.length w)%nat) possible_words →
   "raise" ∉ possible_words →
   Simulation.simulation fuel possible_words = Some (Raise ValueError)).
Proof.
  unfold Simulation.simulation. split.
  - intros (w & Hw & Hshort).
    destruct (build_feedback_table possible_words) as [table|e] eqn:Hbuild.
    + apply build_feedback_table_inv in Hbuild as [Hlong _].
      rewrite Forall_forall in Hlong. specialize (Hlong w Hw). lia.
    + destruct (mapM_cases (table_row possible_words) possible_words IndexError)
        as [(ys & Hok & _)|[Hr _]].
      * intros g _.
        destruct (table_row_cases possible_words g)
          as [(_ & _ & Hok)|(_ & _ & Hr)]; [left; by eexists | by right].
      * unfold build_feedback_table in Hbuild. congruence.
      * unfold build_feedback_table in Hbuild. congruence.
  - intros Hlong Hnot.
    rewrite (build_feedback_table_ok possible_words Hlong).
    by rewrite (list_index_absent possible_words "raise" Hnot).
Qed.
